(** * Golomb-Rice bit vector (sux::function::RiceBitVector) and the
      Fenwick-tree contract (sux::fenwick::FenwickTree)

    A shallow embedding of [RiceBitVector.hpp] (builder, sequential decoder,
    bulk skip, repositioning) over 64-bit words held in [Z], with the
    wrap-around of the C++ integer types written out, and of the [find]
    contract of [fenwick/Tree.hpp].

    The file has three parts: the program, the vocabulary of its
    specification, and the lemmas and theorems. *)

From Stdlib Require Import ZArith List Bool Lia Znumtheory.
Import ListNotations.

Local Open Scope Z_scope.

(** * The program *)

(** ** Machine integers *)

(** [uint64_t] and [size_t] arithmetic is modulo [2^64]. *)
Definition wrap64 (z : Z) : Z := z mod 2 ^ 64.

(** [uint32_t] arithmetic ([u + 1] on an element of [vector<uint32_t>]). *)
Definition wrap32 (z : Z) : Z := z mod 2 ^ 32.

(** Conversion of an integer value to [int] (32-bit two's complement). *)
Definition int_of (z : Z) : Z := (z + 2 ^ 31) mod 2 ^ 32 - 2 ^ 31.

(** ** A small error monad: [None] is undefined behaviour or an abort
    (out-of-bounds access, over-wide shift, failed assertion). *)

Definition bind {A B : Type} (m : option A) (k : A -> option B) : option B :=
  match m with
  | Some a => k a
  | None => None
  end.

Notation "x <- m ;; k" := (bind m (fun x => k))
  (at level 61, m at next level, right associativity).
Notation "' p <- m ;; k" := (bind m (fun x => match x with p => k end))
  (at level 61, p pattern, m at next level, right associativity).

(** ** Word primitives of [support/common.hpp] *)

(** Modelled from the spec: [rho], [nu] and [select64] live in
    [support/common.hpp], which is not among the sources.  The spec calls
    them "index of lowest set bit", "count set bits in a word" and "index of
    the k-th set bit in a word" (k counted from 0).  They are defined on the
    binary representation of the word. *)
Fixpoint pos_rho (p : positive) : Z :=
  match p with
  | xO q => 1 + pos_rho q
  | _ => 0
  end.

Definition rho (x : Z) : Z :=
  match x with
  | Zpos p => pos_rho p
  | _ => 64
  end.

Fixpoint pos_nu (p : positive) : Z :=
  match p with
  | xH => 1
  | xO q => pos_nu q
  | xI q => 1 + pos_nu q
  end.

Definition nu (x : Z) : Z :=
  match x with
  | Zpos p => pos_nu p
  | _ => 0
  end.

Fixpoint pos_select (p : positive) (k : nat) : Z :=
  match p with
  | xH => 0
  | xO q => 1 + pos_select q k
  | xI q => match k with
            | O => 0
            | S k' => 1 + pos_select q k'
            end
  end.

Definition select64 (x : Z) (k : Z) : Z :=
  match x with
  | Zpos p => pos_select p (Z.to_nat k)
  | _ => 64
  end.

(** ** Raw word memory *)

(** [*(p + i)] on a buffer of [length d] words. *)
Definition load (d : list Z) (i : Z) : option Z :=
  if (0 <=? i) && (i <? Z.of_nat (length d))
  then nth_error d (Z.to_nat i) else None.

Fixpoint set_nth (d : list Z) (n : nat) (w : Z) : list Z :=
  match d, n with
  | [], _ => []
  | _ :: t, O => w :: t
  | h :: t, S n' => h :: set_nth t n' w
  end.

(** [*(p + i) = w]. *)
Definition store (d : list Z) (i : Z) (w : Z) : option (list Z) :=
  if (0 <=? i) && (i <? Z.of_nat (length d))
  then Some (set_nth d (Z.to_nat i) w) else None.

(** The words from [p + i] on: what a pointer walking upwards can read. *)
Definition suffix (d : list Z) (i : Z) : list Z :=
  if (0 <=? i) && (i <? Z.of_nat (length d))
  then skipn (Z.to_nat i) d else [].

(** Byte [i] of the buffer seen as bytes on a little-endian machine. *)
Definition byte_at (d : list Z) (i : Z) : option Z :=
  w <- load d (i / 8) ;;
  Some (Z.land (Z.shiftr w (8 * (i mod 8))) 255).

(** [memcpy] of [n] bytes from byte offset [o] into a little-endian
    integer. *)
Fixpoint read_le (d : list Z) (o : Z) (n : nat) : option Z :=
  match n with
  | O => Some 0
  | S n' =>
      b <- byte_at d o ;;
      r <- read_le d (o + 1) n' ;;
      Some (Z.lor b (Z.shiftl r 8))
  end.

(** ** The growable word buffer [util::Vector<uint64_t>] *)

Module Vector.

(** Modelled from the spec: [util::Vector] ([util/Vector.hpp]) is not among
    the sources.  The spec describes it as a growable array of 64-bit words
    with [resize(words)], [trimToFit()] and raw word pointer access.  [mem]
    is the allocated backing array (its length is the capacity), [size] the
    logical length.  Growing keeps the old words and zero-fills the new
    ones; trimming cuts the allocation down to [size] words. *)
Record t : Type := mk { mem : list Z; size : Z }.

Definition capacity (v : t) : Z := Z.of_nat (length (mem v)).

Definition create (n : Z) : t := mk (repeat 0 (Z.to_nat n)) n.

Definition resize (n : Z) (v : t) : t :=
  if capacity v <? n
  then mk (mem v ++ repeat 0 (Z.to_nat (n - capacity v))) n
  else mk (mem v) n.

Definition trimToFit (v : t) : t :=
  mk (firstn (Z.to_nat (size v)) (mem v)) (size v).

End Vector.

(** ** RiceBitVector::Builder *)

Record Builder : Type := mkBuilder {
  data : Vector.t;
  bit_count : Z
}.

(** [Builder(alloc_words)]; the default constructor passes 16. *)
Definition Builder_new (alloc_words : Z) : Builder :=
  mkBuilder (Vector.create alloc_words) 0.

(** [Builder()]. *)
Definition Builder_default : Builder := Builder_new 16.

(** [(((bits + 7) / 8) + 7 + 7) / 8] in [size_t] arithmetic. *)
Definition words_for (bits : Z) : Z :=
  wrap64 (wrap64 (wrap64 (bits + 7) / 8 + 7) + 7) / 8.

(** [Builder::appendFixed].  Shifting a 64-bit word by a negative count
    or by 64 is undefined, hence the first line. *)
Definition appendFixed (v : Z) (log2golomb : Z) (b : Builder) : option Builder :=
  if negb ((0 <=? log2golomb) && (log2golomb <? 64)) then None else
  let lower_bits := Z.land v (wrap64 (wrap64 (Z.shiftl 1 log2golomb) - 1)) in
  let used_bits := Z.land (bit_count b) 63 in
  let d := Vector.resize (words_for (wrap64 (bit_count b + log2golomb))) (data b) in
  let append_ptr := bit_count b / 64 in
  cur_word <- load (Vector.mem d) append_ptr ;;
  let cur_word := Z.lor cur_word (wrap64 (Z.shiftl lower_bits used_bits)) in
  if used_bits + log2golomb >? 64 then
    m1 <- store (Vector.mem d) append_ptr cur_word ;;
    let cur_word := Z.shiftr lower_bits (64 - used_bits) in
    m2 <- store m1 (append_ptr + 1) cur_word ;;
    Some (mkBuilder (Vector.mk m2 (Vector.size d)) (wrap64 (bit_count b + log2golomb)))
  else
    m1 <- store (Vector.mem d) append_ptr cur_word ;;
    Some (mkBuilder (Vector.mk m1 (Vector.size d)) (wrap64 (bit_count b + log2golomb))).

(** First loop of [appendUnaryAll]: [bit_inc += u + 1], the sum [u + 1]
    being computed in the 32-bit type of [u]. *)
Definition bit_inc_of (unary : list Z) : Z :=
  fold_left (fun acc u => wrap64 (acc + wrap32 (u + 1))) unary 0.

(** [*append_ptr |= uint64_t(1) << (bit_count & 63)] with
    [append_ptr = data.p() + bit_count / 64]. *)
Definition set_bit (m : list Z) (bc : Z) : option (list Z) :=
  let append_ptr := bc / 64 in
  w <- load m append_ptr ;;
  store m append_ptr (Z.lor w (wrap64 (Z.shiftl 1 (Z.land bc 63)))).

(** Second loop of [appendUnaryAll]. *)
Fixpoint write_unary (unary : list Z) (m : list Z) (bc : Z) : option (list Z * Z) :=
  match unary with
  | [] => Some (m, bc)
  | u :: rest =>
      let bc := wrap64 (bc + u) in
      m' <- set_bit m bc ;;
      write_unary rest m' (wrap64 (bc + 1))
  end.

(** [Builder::appendUnaryAll]: size the buffer once, then set the
    terminator of every code. *)
Definition appendUnaryAll (unary : list Z) (b : Builder) : option Builder :=
  let bit_inc := bit_inc_of unary in
  let d := Vector.resize (words_for (wrap64 (bit_count b + bit_inc))) (data b) in
  '(m, bc) <- write_unary unary (Vector.mem d) (bit_count b) ;;
  Some (mkBuilder (Vector.mk m (Vector.size d)) bc).

(** [Builder::getBits]. *)
Definition Builder_getBits (b : Builder) : Z := bit_count b.

(** ** RiceBitVector: sealed data and the decoding cursor *)

Record RiceBitVector : Type := mkRBV {
  rdata : Vector.t;
  curr_fixed_offset : Z;
  curr_window_unary : Z;
  curr_ptr_unary : Z;            (* index of the word the pointer designates *)
  valid_lower_bits_unary : Z
}.

(** [Builder::build]: trim and move the data into a vector.  The unary
    pointer is left uninitialised by the constructor; it is given the
    address [-1], outside every buffer, so that reading through it fails. *)
Definition build (b : Builder) : RiceBitVector :=
  mkRBV (Vector.trimToFit (data b)) 0 0 (-1) 0.

(** The [while (curr_window_unary == 0)] loop of [readNext], run over the
    words that remain above the pointer. *)
Fixpoint skip_zero_words (rest : list Z) (window result ptr : Z)
  : option (Z * Z * Z) :=
  if window =? 0 then
    match rest with
    | [] => None
    | w :: rest' => skip_zero_words rest' w (wrap64 (result + 64)) (ptr + 1)
    end
  else Some (window, result, ptr).

(** The [if (curr_window_unary == 0) { ... }] block of [readNext]. *)
Definition refill (d : list Z) (window ptr valid : Z) : option (Z * Z * Z * Z) :=
  if window =? 0 then
    let result := wrap64 (0 + valid) in
    match suffix d ptr with
    | [] => None
    | w :: rest =>
        '(w', result', ptr') <- skip_zero_words rest w result (ptr + 1) ;;
        Some (w', result', ptr', 64)
    end
  else Some (window, 0, ptr, valid).

(** [readNext]: the unary quotient, then the remainder read with one
    eight-byte [memcpy] at the byte holding [curr_fixed_offset]. *)
Definition readNext (log2golomb : Z) (r : RiceBitVector)
  : option (Z * RiceBitVector) :=
  if negb ((0 <=? log2golomb) && (log2golomb <? 64)) then None else
  let d := Vector.mem (rdata r) in
  '(window, result, ptr, valid) <-
     refill d (curr_window_unary r) (curr_ptr_unary r) (valid_lower_bits_unary r) ;;
  let pos := rho window in
  let window := Z.shiftr window pos in
  let window := Z.shiftr window 1 in
  let valid := int_of (valid - wrap64 (pos + 1)) in
  let result := wrap64 (result + pos) in
  let result := wrap64 (Z.shiftl result log2golomb) in
  fixed <- read_le d (curr_fixed_offset r / 8) 8 ;;
  let result :=
    Z.lor result
      (Z.land (Z.shiftr fixed (curr_fixed_offset r mod 8))
              (wrap64 (wrap64 (Z.shiftl 1 log2golomb) - 1))) in
  Some (result,
        mkRBV (rdata r) (wrap64 (curr_fixed_offset r + log2golomb))
              window ptr valid).

(** The [while ((cnt = nu(curr_window_unary)) < missing)] loop of
    [skipSubtree]. *)
Fixpoint skip_loop (rest : list Z) (window missing ptr valid : Z)
  : option (Z * Z * Z * Z) :=
  let cnt := nu window in
  if cnt <? missing then
    match rest with
    | [] => None
    | w :: rest' => skip_loop rest' w (wrap64 (missing - cnt)) (ptr + 1) 64
    end
  else Some (window, missing, ptr, valid).

(** [skipSubtree]; a failed assertion is [None]. *)
Definition skipSubtree (nodes fixed_len : Z) (r : RiceBitVector)
  : option RiceBitVector :=
  if negb (0 <? nodes) then None (* assert(nodes > 0) *) else
  let d := Vector.mem (rdata r) in
  '(window, missing, ptr, valid) <-
     skip_loop (suffix d (curr_ptr_unary r)) (curr_window_unary r) nodes
               (curr_ptr_unary r) (valid_lower_bits_unary r) ;;
  let cnt := select64 window (wrap64 (missing - 1)) in
  let window := Z.shiftr window cnt in
  let window := Z.shiftr window 1 in
  let valid := int_of (valid - wrap64 (cnt + 1)) in
  Some (mkRBV (rdata r) (wrap64 (curr_fixed_offset r + fixed_len))
              window ptr valid).

(** [readReset]. *)
Definition readReset (bit_pos unary_offset : Z) (r : RiceBitVector)
  : option RiceBitVector :=
  let unary_pos := wrap64 (bit_pos + unary_offset) in
  let ptr := unary_pos / 64 in
  w <- load (Vector.mem (rdata r)) ptr ;;
  Some (mkRBV (rdata r) bit_pos
              (Z.shiftr w (Z.land unary_pos 63)) (ptr + 1)
              (64 - Z.land unary_pos 63)).

(** [RiceBitVector::getBits]: [data.size() * sizeof(uint64_t)]. *)
Definition getBits (r : RiceBitVector) : Z :=
  wrap64 (Vector.size (rdata r) * 8).

(** ** Whole runs *)

(** One [appendFixed] per item [(v, l)], in order. *)
Fixpoint appendFixedAll (items : list (Z * Z)) (b : Builder) : option Builder :=
  match items with
  | [] => Some b
  | (v, l) :: rest => b' <- appendFixed v l b ;; appendFixedAll rest b'
  end.

(** The quotients [v >> l] of the items. *)
Definition quotients (items : list (Z * Z)) : list Z :=
  map (fun it => Z.shiftr (fst it) (snd it)) items.

(** All remainders, then all quotients in one call, then [build]. *)
Definition encode (items : list (Z * Z)) : option RiceBitVector :=
  b1 <- appendFixedAll items Builder_default ;;
  b2 <- appendUnaryAll (quotients items) b1 ;;
  Some (build b2).

(** One [readNext] per parameter of [ls], in order. *)
Fixpoint readAll (ls : list Z) (r : RiceBitVector)
  : option (list Z * RiceBitVector) :=
  match ls with
  | [] => Some ([], r)
  | l :: rest =>
      '(v, r1) <- readNext l r ;;
      '(vs, r2) <- readAll rest r1 ;;
      Some (v :: vs, r2)
  end.

(** Sum of a list of integers. *)
Definition sum (ls : list Z) : Z := fold_right Z.add 0 ls.

(** ** Runs of reader operations *)

Inductive ReaderOp : Type :=
| OpReadNext (log2golomb : Z)
| OpSkipSubtree (nodes fixed_len : Z).

Definition step_op (op : ReaderOp) (r : RiceBitVector) : option RiceBitVector :=
  match op with
  | OpReadNext l => '(_, r') <- readNext l r ;; Some r'
  | OpSkipSubtree n f => skipSubtree n f r
  end.

Fixpoint run_ops (ops : list ReaderOp) (r : RiceBitVector)
  : option RiceBitVector :=
  match ops with
  | [] => Some r
  | op :: rest => r' <- step_op op r ;; run_ops rest r'
  end.

(** ** Whole-stream runs used in the statements *)

(** Total width of the remainders: where the unary region starts. *)
Definition fixed_len (items : list (Z * Z)) : Z := sum (map snd items).

(** Skip [k] items, then decode; decode [k] items, then decode. *)
Definition skip_then_read (k fixed_bits : Z) (ls : list Z) (r : RiceBitVector)
  : option (list Z * RiceBitVector) :=
  r1 <- skipSubtree k fixed_bits r ;; readAll ls r1.

Definition read_then_read (ls_pre ls : list Z) (r : RiceBitVector)
  : option (list Z * RiceBitVector) :=
  '(_, r1) <- readAll ls_pre r ;; readAll ls r1.

(** Encode, seal, place the reader at the start of the stream, decode
    every item. *)
Definition decode_all (items : list (Z * Z)) : option (list Z) :=
  rbv <- encode items ;;
  r0 <- readReset 0 (fixed_len items) rbv ;;
  '(vs, _) <- readAll (map snd items) r0 ;;
  Some vs.

Definition skip_run (items : list (Z * Z)) (k fixed_bits : Z) (ls : list Z)
  : option (list Z * RiceBitVector) :=
  rbv <- encode items ;;
  r0 <- readReset 0 (fixed_len items) rbv ;;
  skip_then_read k fixed_bits ls r0.

Definition read_run (items : list (Z * Z)) (ls_pre ls : list Z)
  : option (list Z * RiceBitVector) :=
  rbv <- encode items ;;
  r0 <- readReset 0 (fixed_len items) rbv ;;
  read_then_read ls_pre ls r0.

(** The scenario of the spec: remainders 3 and 1 on two bits, then the
    quotients 0 and 2. *)
Definition scenario_builder : option Builder :=
  b1 <- appendFixed 3 2 Builder_default ;;
  b2 <- appendFixed 1 2 b1 ;;
  appendUnaryAll [0; 2] b2.

Definition scenario : option (Z * Z * Z) :=
  b <- scenario_builder ;;
  r0 <- readReset 0 4 (build b) ;;
  '(x, r1) <- readNext 2 r0 ;;
  '(y, _) <- readNext 2 r1 ;;
  Some (Builder_getBits b, x, y).

(** A builder of [alloc_words] words fed all remainders, then all
    quotients in one call. *)
Definition fill (alloc_words : Z) (items : list (Z * Z)) : option Builder :=
  b1 <- appendFixedAll items (Builder_new alloc_words) ;;
  appendUnaryAll (quotients items) b1.

(** The same, sealed. *)
Definition encode_from (alloc_words : Z) (items : list (Z * Z))
  : option RiceBitVector :=
  b <- fill alloc_words items ;; Some (build b).

(** ** The Fenwick-tree interface *)

Module Fenwick.

(** Modelled from the spec: [FenwickTree] in [fenwick/Tree.hpp] is an
    abstract interface; the classes implementing [prefix] and [find] are
    not among the sources.  The tree is modelled by the logical sequence
    it indexes, elements [1 .. size()]; [prefix(length)] is the sum of the
    elements in [(0 .. length]], and [find] returns the greatest length
    whose prefix sum is within the bound together with the excess, the
    lengths being tried from [size()] downwards. *)
Definition tree : Type := list Z.

Definition size (t : tree) : Z := Z.of_nat (length t).

Definition prefix (t : tree) (len : Z) : Z := sum (firstn (Z.to_nat len) t).

Fixpoint find_down (t : tree) (n : nat) (bound : Z) : Z * Z :=
  match n with
  | O => (0, bound)
  | S n' =>
      if prefix t (Z.of_nat n) <=? bound
      then (Z.of_nat n, bound - prefix t (Z.of_nat n))
      else find_down t n' bound
  end.

(** [find(uint64_t *val)]: the length is returned, [*val] becomes the
    excess. *)
Definition find (t : tree) (val : Z) : Z * Z := find_down t (length t) val.

(** [size_t find(uint64_t val) const { return find(&val); }] *)
Definition find_value (t : tree) (val : Z) : Z := fst (find t val).

End Fenwick.

(** * Specification vocabulary *)

(** ** The bit stream held by a buffer *)

(** Bit [k] of the stream lives in word [k / 64] at position [k mod 64]. *)
Definition sbit (d : list Z) (k : Z) : bool :=
  Z.testbit (nth (Z.to_nat (k / 64)) d 0) (k mod 64).

(** Every word is a [uint64_t]. *)
Definition words_ok (d : list Z) : Prop :=
  Forall (fun w => 0 <= w < 2 ^ 64) d.

(** ** Builder invariant *)

Record builder_inv (b : Builder) : Prop := {
  inv_words : words_ok (Vector.mem (data b));
  inv_count : 0 <= bit_count b;
  inv_size : Vector.size (data b) <= Vector.capacity (data b);
  (* zero tail: nothing is set at or above the bit cursor *)
  inv_tail : forall k, bit_count b <= k -> sbit (Vector.mem (data b)) k = false
}.

(** ** Unary codes in the stream *)

(** Total length of the unary codes of [us]: [u + 1] bits each. *)
Definition unary_len (us : list Z) : Z := sum (map (fun u => u + 1) us).

(** [is_term us p k]: bit [k] is the terminating one bit of one of the
    codes of [us] laid out back to back from bit [p]. *)
Fixpoint is_term (us : list Z) (p k : Z) : bool :=
  match us with
  | [] => false
  | u :: rest => (k =? p + u) || is_term rest (p + u + 1) k
  end.

(** ** The unary cursor *)

(** The window once the lowest set bit and everything below it are
    shifted out: [x >>= rho(x); x >>= 1]. *)
Definition strip (x : Z) : Z := Z.shiftr (Z.shiftr x (rho x)) 1.

(** The cursor invariant: at most 64 unconsumed window bits, and nothing
    in the window above them. *)
Definition cursor_inv (r : RiceBitVector) : Prop :=
  0 <= valid_lower_bits_unary r <= 64 /\
  0 <= curr_window_unary r < 2 ^ valid_lower_bits_unary r.

(** The unary half of [readNext]: quotient, then window, pointer and count
    of valid bits afterwards. *)
Definition read_unary (d : list Z) (window ptr valid : Z)
  : option (Z * Z * Z * Z) :=
  '(w, res, p, v) <- refill d window ptr valid ;;
  Some (wrap64 (res + rho w), strip w, p, int_of (v - wrap64 (rho w + 1))).

(** The unary half of [skipSubtree]. *)
Definition skip_unary (rest : list Z) (window missing ptr valid : Z)
  : option (Z * Z * Z) :=
  '(w, m, p, v) <- skip_loop rest window missing ptr valid ;;
  let cnt := select64 w (wrap64 (m - 1)) in
  Some (Z.shiftr (Z.shiftr w cnt) 1, p, int_of (v - wrap64 (cnt + 1))).

(** The arguments are values of their C++ types ([size_t] counts). *)
Definition op_typed (op : ReaderOp) : Prop :=
  match op with
  | OpReadNext _ => True
  | OpSkipSubtree n _ => n < 2 ^ 64
  end.

(** ** What the reader sees in a stream *)

(** [unary_at d p qs]: the unary codes of [qs] lie back to back from bit
    [p] of the stream. *)
Fixpoint unary_at (d : list Z) (p : Z) (qs : list Z) : Prop :=
  match qs with
  | [] => True
  | q :: rest =>
      (forall j, p <= j < p + q -> sbit d j = false) /\
      sbit d (p + q) = true /\
      unary_at d (p + q + 1) rest
  end.

(** [fixed_at d off items]: the remainders of [items] lie back to back
    from bit [off]. *)
Fixpoint fixed_at (d : list Z) (off : Z) (items : list (Z * Z)) : Prop :=
  match items with
  | [] => True
  | (v, l) :: rest =>
      (forall j, 0 <= j < l -> sbit d (off + j) = Z.testbit v j) /\
      fixed_at d (off + l) rest
  end.

(** The unary cursor designates stream bit [p]: the window holds the
    [v] bits of word [ptr - 1] from [p] on. *)
Record cur_at (d : list Z) (w ptr v p : Z) : Prop := {
  ca_valid : 0 <= v <= 64;
  ca_ptr : 1 <= ptr <= Z.of_nat (length d);
  ca_pos : p = 64 * ptr - v;
  ca_window : w = Z.shiftr (nth (Z.to_nat (ptr - 1)) d 0) (64 - v)
}.

(** The remainder field as [readNext] extracts it. *)
Definition fixed_field (d : list Z) (off l : Z) : Z :=
  match read_le d (off / 8) 8 with
  | Some fixed => Z.land (Z.shiftr fixed (off mod 8)) (Z.ones l)
  | None => 0
  end.

(** The value [readNext] assembles from quotient [q] and the field at
    [off]. *)
Definition decoded (d : list Z) (off q l : Z) : Z :=
  Z.lor (wrap64 (Z.shiftl q l)) (fixed_field d off l).

(** The values decoded from offset [off] for quotients and parameters
    [qls]. *)
Fixpoint expected (d : list Z) (off : Z) (qls : list (Z * Z)) : list Z :=
  match qls with
  | [] => []
  | (q, l) :: rest => decoded d off q l :: expected d (off + l) rest
  end.

(** The reader [r] stands at fixed offset [off] and unary bit [p]. *)
Definition reader_at (r : RiceBitVector) (off p : Z) : Prop :=
  curr_fixed_offset r = off /\
  cur_at (Vector.mem (rdata r)) (curr_window_unary r) (curr_ptr_unary r)
         (valid_lower_bits_unary r) p.

(** A quotient and a parameter the reader can meet. *)
Definition item_ok (ql : Z * Z) : Prop :=
  0 <= fst ql < 2 ^ 64 /\ 0 <= snd ql <= 63.

(** ** Streams produced by the builder *)

(** An item [(v, l)]: a 64-bit value, a parameter in [0, 63], and a
    quotient [v >> l] whose unary length [u + 1] is computed without
    32-bit wrap-around. *)
Definition item_valid (it : Z * Z) : Prop :=
  0 <= fst it < 2 ^ 64 /\ 0 <= snd it <= 63 /\
  Z.shiftr (fst it) (snd it) < 2 ^ 32 - 1.

(** Bits written for [items]: remainders, then unary codes. *)
Definition stream_len (items : list (Z * Z)) : Z :=
  fixed_len items + unary_len (quotients items).

(** Quotient and parameter of every item, as the reader meets them. *)
Definition qls_of (items : list (Z * Z)) : list (Z * Z) :=
  map (fun it => (Z.shiftr (fst it) (snd it), snd it)) items.

(** What [encode] produces: a sealed vector whose stream holds the
    remainders from bit 0 and the unary codes from bit [fixed_len]. *)
Record encoded (items : list (Z * Z)) (rbv : RiceBitVector) : Prop := {
  enc_words : words_ok (Vector.mem (rdata rbv));
  enc_size : Vector.size (rdata rbv) = words_for (stream_len items);
  enc_length : Z.of_nat (length (Vector.mem (rdata rbv))) =
               words_for (stream_len items);
  enc_fixed : fixed_at (Vector.mem (rdata rbv)) 0 items;
  enc_unary : unary_at (Vector.mem (rdata rbv)) (fixed_len items)
                       (quotients items)
}.

(** Every remainder slot lies inside the eight bytes [readNext] loads at
    the byte containing its first bit. *)
Fixpoint fits (off : Z) (items : list (Z * Z)) : Prop :=
  match items with
  | [] => True
  | (_, l) :: rest => off mod 8 + l <= 64 /\ fits (off + l) rest
  end.

(** What [readNext] returns for the item [(v, l)] whose remainder starts
    at stream bit [off]: the quotient above bit [l], and of the remainder
    the bits that lie inside the eight bytes loaded at the byte of
    [off], that is the lowest [64 - off mod 8] of them. *)
Definition seen (off v l : Z) : Z :=
  Z.lor (Z.shiftl (Z.shiftr v l) l)
        (Z.land v (Z.ones (Z.min l (64 - off mod 8)))).

Fixpoint seen_all (off : Z) (items : list (Z * Z)) : list Z :=
  match items with
  | [] => []
  | (v, l) :: rest => seen off v l :: seen_all (off + l) rest
  end.

(** Builder states reachable from the constructor by calls whose bit
    counts stay within [size_t]. *)
Inductive reach : Builder -> Prop :=
| reach_new n : 0 <= n -> reach (Builder_new n)
| reach_fixed b v l b' :
    reach b -> bit_count b + l + 7 < 2 ^ 64 ->
    appendFixed v l b = Some b' -> reach b'
| reach_unary b us b' :
    reach b -> Forall (fun u => 0 <= u < 2 ^ 32) us ->
    bit_count b + unary_len us < 2 ^ 64 ->
    appendUnaryAll us b = Some b' -> reach b'.

(** * Lemmas *)

Lemma Some_inj {A : Type} (a b : A) : Some a = Some b -> a = b.
Proof. congruence. Qed.

Section Memory.

Lemma load_Some d i w :
  load d i = Some w ->
  0 <= i < Z.of_nat (length d) /\ nth (Z.to_nat i) d 0 = w.
Proof.
  unfold load. destruct (0 <=? i) eqn:H0; simpl; [|discriminate].
  destruct (i <? Z.of_nat (length d)) eqn:H1; [|discriminate].
  intros H. split; [lia|]. now apply nth_error_nth.
Qed.

Lemma load_ok d i :
  0 <= i < Z.of_nat (length d) ->
  load d i = Some (nth (Z.to_nat i) d 0).
Proof.
  intros H. unfold load.
  replace (0 <=? i) with true by (symmetry; apply Z.leb_le; lia).
  replace (i <? Z.of_nat (length d)) with true by (symmetry; apply Z.ltb_lt; lia).
  simpl. apply nth_error_nth'. lia.
Qed.

Lemma store_ok d i w :
  0 <= i < Z.of_nat (length d) ->
  store d i w = Some (set_nth d (Z.to_nat i) w).
Proof.
  intros H. unfold store.
  replace (0 <=? i) with true by (symmetry; apply Z.leb_le; lia).
  replace (i <? Z.of_nat (length d)) with true by (symmetry; apply Z.ltb_lt; lia).
  reflexivity.
Qed.

Lemma store_Some d i w d' :
  store d i w = Some d' ->
  0 <= i < Z.of_nat (length d) /\ d' = set_nth d (Z.to_nat i) w.
Proof.
  unfold store. destruct (0 <=? i) eqn:H0; simpl; [|discriminate].
  destruct (i <? Z.of_nat (length d)) eqn:H1; [|discriminate].
  intros H. inversion H. split; [lia|reflexivity].
Qed.

Lemma set_nth_length d n w : length (set_nth d n w) = length d.
Proof.
  revert n; induction d as [|h t IH]; intros [|n]; simpl; auto.
Qed.

Lemma nth_set_nth_eq d n w :
  (n < length d)%nat -> nth n (set_nth d n w) 0 = w.
Proof.
  revert n; induction d as [|h t IH]; intros [|n] H; simpl in *; try lia; auto.
  apply IH; lia.
Qed.

Lemma nth_set_nth_neq d n j w :
  j <> n -> nth j (set_nth d n w) 0 = nth j d 0.
Proof.
  revert n j; induction d as [|h t IH]; intros [|n] [|j] H; simpl; auto;
    try congruence.
Qed.

Lemma words_ok_set_nth d n w :
  words_ok d -> 0 <= w < 2 ^ 64 -> words_ok (set_nth d n w).
Proof.
  unfold words_ok. intros Hd Hw. revert n.
  induction Hd as [|h t Hh Ht IH]; intros [|n]; simpl; constructor; auto.
Qed.

Lemma words_ok_nth d n : words_ok d -> 0 <= nth n d 0 < 2 ^ 64.
Proof.
  intros Hd. destruct (Nat.lt_ge_cases n (length d)) as [H|H].
  - unfold words_ok in Hd. rewrite Forall_forall in Hd.
    apply Hd. now apply nth_In.
  - rewrite nth_overflow by lia. lia.
Qed.

Lemma words_ok_app_zeros d n : words_ok d -> words_ok (d ++ repeat 0 n).
Proof.
  intros Hd. apply Forall_app. split; [exact Hd|].
  apply Forall_forall. intros x Hx. apply repeat_spec in Hx. subst. lia.
Qed.

Lemma words_ok_repeat n : words_ok (repeat 0 n).
Proof.
  apply Forall_forall. intros x Hx. apply repeat_spec in Hx. subst. lia.
Qed.

Lemma words_ok_firstn d n : words_ok d -> words_ok (firstn n d).
Proof.
  intros Hd. revert n.
  induction Hd as [|h t Hh Ht IH]; intros [|n]; simpl; constructor; auto.
  apply IH.
Qed.

Lemma nth_app_zeros d n j : nth j (d ++ repeat 0 n) 0 = nth j d 0.
Proof.
  destruct (Nat.lt_ge_cases j (length d)) as [H|H].
  - now apply app_nth1.
  - rewrite app_nth2 by lia. rewrite (nth_overflow d) by lia.
    apply nth_repeat.
Qed.

Lemma nth_firstn_lt (d : list Z) n j :
  (j < n)%nat -> nth j (firstn n d) 0 = nth j d 0.
Proof.
  revert n j; induction d as [|h t IH]; intros [|n] [|j] H; simpl; auto; try lia.
  apply IH; lia.
Qed.

End Memory.

Section StreamBits.

Lemma sbit_set_nth d i w k :
  0 <= i < Z.of_nat (length d) -> 0 <= k ->
  sbit (set_nth d (Z.to_nat i) w) k =
  if k / 64 =? i then Z.testbit w (k mod 64) else sbit d k.
Proof.
  intros Hi Hk. unfold sbit.
  destruct (k / 64 =? i) eqn:E.
  - apply Z.eqb_eq in E. subst i. rewrite nth_set_nth_eq; [reflexivity|lia].
  - apply Z.eqb_neq in E. rewrite nth_set_nth_neq; [reflexivity|].
    assert (0 <= k / 64) by (apply Z.div_pos; lia). lia.
Qed.

Lemma sbit_app_zeros d n k : sbit (d ++ repeat 0 n) k = sbit d k.
Proof. unfold sbit. now rewrite nth_app_zeros. Qed.

Lemma sbit_overflow d k : 64 * Z.of_nat (length d) <= k -> sbit d k = false.
Proof.
  intros H. unfold sbit. rewrite nth_overflow; [apply Z.testbit_0_l|].
  assert (Z.of_nat (length d) <= k / 64) by (apply Z.div_le_lower_bound; lia).
  lia.
Qed.

Lemma sbit_firstn d n k :
  0 <= k < 64 * Z.of_nat n -> sbit (firstn n d) k = sbit d k.
Proof.
  intros H. unfold sbit. rewrite nth_firstn_lt; [reflexivity|].
  assert (k / 64 < Z.of_nat n) by (apply Z.div_lt_upper_bound; lia).
  assert (0 <= k / 64) by (apply Z.div_pos; lia). lia.
Qed.

Lemma sbit_repeat n k : sbit (repeat 0 n) k = false.
Proof. unfold sbit. rewrite nth_repeat. apply Z.testbit_0_l. Qed.

(** Bit [j] of word [i]. *)
Lemma sbit_word d i j :
  0 <= i -> 0 <= j < 64 ->
  Z.testbit (nth (Z.to_nat i) d 0) j = sbit d (64 * i + j).
Proof.
  intros Hi Hj. unfold sbit.
  replace ((64 * i + j) / 64) with i by (Z.div_mod_to_equations; lia).
  replace ((64 * i + j) mod 64) with j by (Z.div_mod_to_equations; lia).
  reflexivity.
Qed.

Lemma testbit_wrap64 x k :
  0 <= k -> Z.testbit (wrap64 x) k = (k <? 64) && Z.testbit x k.
Proof.
  intros Hk. unfold wrap64. destruct (k <? 64) eqn:E.
  - apply Z.ltb_lt in E. now rewrite Z.mod_pow2_bits_low.
  - apply Z.ltb_ge in E. now rewrite Z.mod_pow2_bits_high by lia.
Qed.

Lemma wrap64_small x : 0 <= x < 2 ^ 64 -> wrap64 x = x.
Proof. intros. unfold wrap64. now apply Z.mod_small. Qed.

Lemma wrap64_range x : 0 <= wrap64 x < 2 ^ 64.
Proof. unfold wrap64. apply Z.mod_pos_bound. lia. Qed.

Lemma mask_ones l :
  0 <= l < 64 -> wrap64 (wrap64 (Z.shiftl 1 l) - 1) = Z.ones l.
Proof.
  intros Hl. rewrite Z.shiftl_1_l.
  assert (0 < 2 ^ l < 2 ^ 64).
  { split; [apply Z.pow_pos_nonneg; lia|apply Z.pow_lt_mono_r; lia]. }
  rewrite (wrap64_small (2 ^ l)) by lia.
  rewrite wrap64_small by lia.
  rewrite Z.ones_equiv. lia.
Qed.

Lemma testbit_low_bits v l j :
  0 <= l -> 0 <= j ->
  Z.testbit (Z.land v (Z.ones l)) j = (j <? l) && Z.testbit v j.
Proof.
  intros Hl Hj. rewrite Z.land_spec, Z.testbit_ones_nonneg by lia.
  apply andb_comm.
Qed.

Lemma land_63 x : Z.land x 63 = x mod 64.
Proof. change 63 with (Z.ones 6). rewrite Z.land_ones by lia. reflexivity. Qed.

Lemma range_of_bits x n :
  0 <= n -> 0 <= x -> (forall j, n <= j -> Z.testbit x j = false) -> x < 2 ^ n.
Proof.
  intros Hn Hx H.
  destruct (Z.eq_dec x 0) as [->|Hnz]; [apply Z.pow_pos_nonneg; lia|].
  destruct (Z.lt_ge_cases x (2 ^ n)) as [|Hge]; [assumption|].
  exfalso.
  assert (Hl : n <= Z.log2 x) by (apply Z.log2_le_pow2; lia).
  specialize (H (Z.log2 x) Hl).
  rewrite Z.bit_log2 in H by lia. discriminate.
Qed.

Lemma bits_above x n j :
  0 <= x < 2 ^ n -> n <= j -> Z.testbit x j = false.
Proof.
  intros Hx Hj.
  destruct (Z.eq_dec x 0) as [->|Hnz]; [apply Z.testbit_0_l|].
  apply Z.bits_above_log2; [lia|].
  destruct (Z.le_gt_cases 0 n) as [Hn|Hn].
  - assert (Z.log2 x < n) by (apply Z.log2_lt_pow2; lia). lia.
  - rewrite Z.pow_neg_r in Hx by lia. lia.
Qed.

End StreamBits.

(** ** The builder *)

Section BuilderLemmas.

Lemma words_for_eq bits :
  0 <= bits -> bits + 7 < 2 ^ 64 ->
  words_for bits = ((bits + 7) / 8 + 14) / 8.
Proof.
  intros H0 H1. unfold words_for.
  rewrite (wrap64_small (bits + 7)) by lia.
  assert (0 <= (bits + 7) / 8 < 2 ^ 61).
  { change (2 ^ 64) with (8 * 2 ^ 61) in H1.
    split; [apply Z.div_pos; lia|apply Z.div_lt_upper_bound; lia]. }
  rewrite (wrap64_small ((bits + 7) / 8 + 7)) by lia.
  rewrite (wrap64_small (_ + 7)) by lia.
  f_equal. lia.
Qed.

Lemma words_for_covers bits :
  0 <= bits -> bits + 7 < 2 ^ 64 ->
  bits + 56 <= 64 * words_for bits <= bits + 126.
Proof.
  intros H0 H1. rewrite words_for_eq by assumption.
  Z.div_mod_to_equations. lia.
Qed.

Lemma resize_mem n v :
  exists z, Vector.mem (Vector.resize n v) = Vector.mem v ++ repeat 0 z.
Proof.
  unfold Vector.resize. destruct (Vector.capacity v <? n).
  - eexists; reflexivity.
  - exists O. simpl. now rewrite app_nil_r.
Qed.

Lemma resize_capacity n v :
  n <= Vector.capacity (Vector.resize n v) /\
  Vector.capacity v <= Vector.capacity (Vector.resize n v).
Proof.
  unfold Vector.resize, Vector.capacity.
  destruct (Z.of_nat (length (Vector.mem v)) <? n) eqn:E; simpl.
  - apply Z.ltb_lt in E. rewrite length_app, repeat_length. lia.
  - apply Z.ltb_ge in E. lia.
Qed.

Lemma resize_size n v : Vector.size (Vector.resize n v) = n.
Proof. unfold Vector.resize. now destruct (Vector.capacity v <? n). Qed.

Lemma sbit_resize n v k :
  sbit (Vector.mem (Vector.resize n v)) k = sbit (Vector.mem v) k.
Proof. destruct (resize_mem n v) as [z ->]. apply sbit_app_zeros. Qed.

Lemma words_ok_resize n v :
  words_ok (Vector.mem v) -> words_ok (Vector.mem (Vector.resize n v)).
Proof. destruct (resize_mem n v) as [z ->]. apply words_ok_app_zeros. Qed.

(** Bits of the word written at the cursor by [appendFixed]. *)
Lemma fixed_low_word_bits cur v l used j :
  0 <= l < 64 -> 0 <= used < 64 -> 0 <= j < 64 ->
  Z.testbit (Z.lor cur (wrap64 (Z.shiftl (Z.land v (Z.ones l)) used))) j =
  Z.testbit cur j || ((used <=? j) && (j - used <? l) && Z.testbit v (j - used)).
Proof.
  intros Hl Hu Hj. rewrite Z.lor_spec, testbit_wrap64 by lia.
  replace (j <? 64) with true by (symmetry; apply Z.ltb_lt; lia). simpl.
  rewrite Z.shiftl_spec by lia.
  destruct (used <=? j) eqn:E.
  - apply Z.leb_le in E. rewrite testbit_low_bits by lia. reflexivity.
  - apply Z.leb_gt in E. rewrite (Z.testbit_neg_r _ (j - used)) by lia.
    reflexivity.
Qed.

(** Bits of the spill-over word written by [appendFixed]. *)
Lemma fixed_high_word_bits v l used j :
  0 <= l < 64 -> 0 <= used < 64 -> 0 <= j ->
  Z.testbit (Z.shiftr (Z.land v (Z.ones l)) (64 - used)) j =
  (j + 64 - used <? l) && Z.testbit v (j + 64 - used).
Proof.
  intros Hl Hu Hj. rewrite Z.shiftr_spec by lia.
  rewrite testbit_low_bits by lia.
  replace (j + (64 - used)) with (j + 64 - used) by lia. reflexivity.
Qed.

Lemma fixed_word_range cur v l used :
  0 <= cur < 2 ^ 64 ->
  0 <= Z.lor cur (wrap64 (Z.shiftl (Z.land v (Z.ones l)) used)) < 2 ^ 64.
Proof.
  intros Hc. pose proof (wrap64_range (Z.shiftl (Z.land v (Z.ones l)) used)) as Hw.
  split.
  - apply Z.lor_nonneg. lia.
  - apply range_of_bits; [lia|apply Z.lor_nonneg; lia|].
    intros j Hj. rewrite Z.lor_spec.
    rewrite (bits_above cur 64), (bits_above (wrap64 _) 64) by lia. reflexivity.
Qed.

Lemma low_bits_range v l : 0 <= l -> 0 <= Z.land v (Z.ones l) < 2 ^ l.
Proof.
  intros Hl. rewrite Z.land_ones by lia. apply Z.mod_pos_bound.
  apply Z.pow_pos_nonneg; lia.
Qed.

End BuilderLemmas.

Section AppendFixed.

Ltac split_div k :=
  let H1 := fresh in let H2 := fresh in
  pose proof (Z.div_mod k 64 ltac:(lia)) as H1;
  pose proof (Z.mod_pos_bound k 64 ltac:(lia)) as H2.

Lemma appendFixed_spec b v l :
  builder_inv b -> 0 <= l <= 63 -> bit_count b + l + 7 < 2 ^ 64 ->
  exists b',
    appendFixed v l b = Some b' /\
    bit_count b' = bit_count b + l /\
    Vector.size (data b') = words_for (bit_count b + l) /\
    builder_inv b' /\
    (forall k, 0 <= k ->
       sbit (Vector.mem (data b')) k =
       if (bit_count b <=? k) && (k <? bit_count b + l)
       then Z.testbit v (k - bit_count b)
       else sbit (Vector.mem (data b)) k).
Proof.
  intros [Hw Hc Hs Ht] Hl Hov.
  unfold appendFixed.
  replace (negb ((0 <=? l) && (l <? 64))) with false
    by (symmetry; apply negb_false_iff, andb_true_iff; split;
        [apply Z.leb_le|apply Z.ltb_lt]; lia).
  rewrite mask_ones by lia. rewrite land_63.
  rewrite (wrap64_small (bit_count b + l)) by lia.
  set (B := bit_count b) in *.
  set (d := Vector.resize (words_for (B + l)) (data b)).
  pose proof (words_for_covers (B + l) ltac:(lia) ltac:(lia)) as Hcov.
  destruct (resize_capacity (words_for (B + l)) (data b)) as [Hcap1 Hcap2].
  fold d in Hcap1, Hcap2. unfold Vector.capacity in Hcap1, Hcap2.
  pose proof (words_ok_resize (words_for (B + l)) (data b) Hw) as Hwd. fold d in Hwd.
  assert (Hsb : forall k, sbit (Vector.mem d) k = sbit (Vector.mem (data b)) k)
    by (intros; apply sbit_resize).
  assert (Hsz : Vector.size d = words_for (B + l)) by apply resize_size.
  set (md := Vector.mem d) in *.
  set (W := words_for (B + l)) in *.
  split_div B.
  set (ap := B / 64) in *. set (used := B mod 64) in *.
  assert (Hap : 0 <= ap < Z.of_nat (length md)) by lia.
  rewrite (load_ok _ _ Hap). cbn [bind].
  set (cw1 := Z.lor (nth (Z.to_nat ap) md 0)
                    (wrap64 (Z.shiftl (Z.land v (Z.ones l)) used))).
  assert (Hcw1 : 0 <= cw1 < 2 ^ 64)
    by (apply fixed_word_range, words_ok_nth, Hwd).
  assert (Hb1 : forall j, 0 <= j < 64 ->
            Z.testbit cw1 j =
            sbit md (64 * ap + j) ||
            ((used <=? j) && (j - used <? l) && Z.testbit v (j - used))).
  { intros j Hj. unfold cw1. rewrite fixed_low_word_bits by lia.
    rewrite sbit_word by lia. reflexivity. }
  clearbody cw1.
  destruct (used + l >? 64) eqn:Esplit.
  - (* the slot straddles a word boundary *)
    apply Z.gtb_lt in Esplit.
    rewrite (store_ok _ _ _ Hap). cbn [bind].
    assert (Hap1 : 0 <= ap + 1 < Z.of_nat (length (set_nth md (Z.to_nat ap) cw1)))
      by (rewrite set_nth_length; lia).
    rewrite (store_ok _ _ _ Hap1). cbn [bind].
    set (cw2 := Z.shiftr (Z.land v (Z.ones l)) (64 - used)).
    assert (Hb2 : forall j, 0 <= j ->
              Z.testbit cw2 j = (j + 64 - used <? l) && Z.testbit v (j + 64 - used))
      by (intros j Hj; apply fixed_high_word_bits; lia).
    assert (Hcw2 : 0 <= cw2 < 2 ^ 64).
    { split.
      - apply Z.shiftr_nonneg. pose proof (low_bits_range v l); lia.
      - apply range_of_bits; [lia| |].
        + apply Z.shiftr_nonneg. pose proof (low_bits_range v l); lia.
        + intros j Hj. rewrite Hb2 by lia.
          replace (j + 64 - used <? l) with false
            by (symmetry; apply Z.ltb_ge; lia).
          reflexivity. }
    clearbody cw2.
    assert (Hbits : forall k, 0 <= k ->
       sbit (set_nth (set_nth md (Z.to_nat ap) cw1) (Z.to_nat (ap + 1)) cw2) k =
       if (B <=? k) && (k <? B + l) then Z.testbit v (k - B)
       else sbit (Vector.mem (data b)) k).
    { intros k Hk. rewrite sbit_set_nth by assumption.
      rewrite sbit_set_nth by assumption.
      split_div k.
      destruct (k / 64 =? ap + 1) eqn:E1; [apply Z.eqb_eq in E1|apply Z.eqb_neq in E1].
      - rewrite Hb2 by lia.
        destruct (Z.ltb_spec (k mod 64 + 64 - used) l).
        + replace ((B <=? k) && (k <? B + l)) with true
            by (symmetry; apply andb_true_iff; split;
                [apply Z.leb_le|apply Z.ltb_lt]; lia).
          simpl. f_equal. lia.
        + replace ((B <=? k) && (k <? B + l)) with false
            by (symmetry; apply andb_false_iff; right; apply Z.ltb_ge; lia).
          simpl. symmetry. apply Ht. lia.
      - destruct (k / 64 =? ap) eqn:E2; [apply Z.eqb_eq in E2|apply Z.eqb_neq in E2].
        + rewrite Hb1 by lia.
          replace (64 * ap + k mod 64) with k by lia.
          replace (k mod 64 - used) with (k - B) by lia.
          replace (k - B <? l) with true by (symmetry; apply Z.ltb_lt; lia).
          rewrite andb_true_r.
          destruct (Z.leb_spec used (k mod 64)).
          * replace ((B <=? k) && (k <? B + l)) with true
              by (symmetry; apply andb_true_iff; split;
                  [apply Z.leb_le|apply Z.ltb_lt]; lia).
            rewrite Hsb, Ht by lia. reflexivity.
          * replace ((B <=? k) && (k <? B + l)) with false
              by (symmetry; apply andb_false_iff; left; apply Z.leb_gt; lia).
            simpl. rewrite orb_false_r. apply Hsb.
        + replace ((B <=? k) && (k <? B + l)) with false.
          * apply Hsb.
          * symmetry. apply andb_false_iff.
            destruct (Z.lt_ge_cases k B); [left; apply Z.leb_gt; lia|].
            right. apply Z.ltb_ge. lia. }
    eexists. split; [reflexivity|]. cbn [bit_count data Vector.mem Vector.size].
    split; [reflexivity|]. split; [exact Hsz|]. split; [|exact Hbits].
    constructor; cbn [bit_count data Vector.mem Vector.size].
    + apply words_ok_set_nth; [apply words_ok_set_nth|]; assumption.
    + lia.
    + unfold Vector.capacity. cbn [Vector.mem].
      rewrite !set_nth_length. lia.
    + intros k Hk. rewrite Hbits by lia.
      replace ((B <=? k) && (k <? B + l)) with false
        by (symmetry; apply andb_false_iff; right; apply Z.ltb_ge; lia).
      apply Ht. lia.
  - (* the slot fits in the current word *)
    assert (Hfit : used + l <= 64) by (rewrite Z.gtb_ltb in Esplit; apply Z.ltb_ge in Esplit; lia).
    rewrite (store_ok _ _ _ Hap). cbn [bind].
    assert (Hbits : forall k, 0 <= k ->
       sbit (set_nth md (Z.to_nat ap) cw1) k =
       if (B <=? k) && (k <? B + l) then Z.testbit v (k - B)
       else sbit (Vector.mem (data b)) k).
    { intros k Hk. rewrite sbit_set_nth by assumption.
      split_div k.
      destruct (k / 64 =? ap) eqn:E2; [apply Z.eqb_eq in E2|apply Z.eqb_neq in E2].
      + rewrite Hb1 by lia.
        replace (64 * ap + k mod 64) with k by lia.
        replace (k mod 64 - used) with (k - B) by lia.
        destruct (Z.leb_spec used (k mod 64)); destruct (Z.ltb_spec (k - B) l).
        * replace ((B <=? k) && (k <? B + l)) with true
            by (symmetry; apply andb_true_iff; split;
                [apply Z.leb_le|apply Z.ltb_lt]; lia).
          rewrite Hsb, Ht by lia. reflexivity.
        * replace ((B <=? k) && (k <? B + l)) with false
            by (symmetry; apply andb_false_iff; right; apply Z.ltb_ge; lia).
          simpl. rewrite orb_false_r. apply Hsb.
        * replace ((B <=? k) && (k <? B + l)) with false
            by (symmetry; apply andb_false_iff; left; apply Z.leb_gt; lia).
          simpl. rewrite orb_false_r. apply Hsb.
        * replace ((B <=? k) && (k <? B + l)) with false
            by (symmetry; apply andb_false_iff; left; apply Z.leb_gt; lia).
          simpl. rewrite orb_false_r. apply Hsb.
      + replace ((B <=? k) && (k <? B + l)) with false.
        * apply Hsb.
        * symmetry. apply andb_false_iff.
          destruct (Z.lt_ge_cases k B); [left; apply Z.leb_gt; lia|].
          right. apply Z.ltb_ge. lia. }
    eexists. split; [reflexivity|]. cbn [bit_count data Vector.mem Vector.size].
    split; [reflexivity|]. split; [exact Hsz|]. split; [|exact Hbits].
    constructor; cbn [bit_count data Vector.mem Vector.size].
    + apply words_ok_set_nth; assumption.
    + lia.
    + unfold Vector.capacity. cbn [Vector.mem].
      rewrite !set_nth_length. lia.
    + intros k Hk. rewrite Hbits by lia.
      replace ((B <=? k) && (k <? B + l)) with false
        by (symmetry; apply andb_false_iff; right; apply Z.ltb_ge; lia).
      apply Ht. lia.
Qed.

End AppendFixed.

(** ** Appending unary codes *)

Section AppendUnary.

Lemma unary_len_nonneg us :
  Forall (fun u => 0 <= u) us -> 0 <= unary_len us.
Proof.
  unfold unary_len. induction 1 as [|u us Hu _ IH]; simpl; lia.
Qed.

Lemma unary_len_cons u us : unary_len (u :: us) = u + 1 + unary_len us.
Proof. reflexivity. Qed.

Lemma unary_len_app us vs : unary_len (us ++ vs) = unary_len us + unary_len vs.
Proof.
  induction us as [|u us IH]; [reflexivity|].
  simpl app. rewrite !unary_len_cons, IH. lia.
Qed.

Lemma is_term_ge us p k :
  Forall (fun u => 0 <= u) us -> is_term us p k = true -> p <= k.
Proof.
  intros H; revert p. induction H as [|u us Hu _ IH]; intros p; simpl.
  - discriminate.
  - intros E. apply orb_true_iff in E. destruct E as [E|E].
    + apply Z.eqb_eq in E. lia.
    + apply IH in E. lia.
Qed.

Lemma is_term_lt us p k :
  Forall (fun u => 0 <= u) us -> is_term us p k = true -> k < p + unary_len us.
Proof.
  intros H; revert p. induction H as [|u us Hu Hus IH]; intros p; simpl.
  - discriminate.
  - intros E. rewrite unary_len_cons.
    pose proof (unary_len_nonneg us Hus).
    apply orb_true_iff in E. destruct E as [E|E].
    + apply Z.eqb_eq in E. lia.
    + apply IH in E. lia.
Qed.

Lemma set_bit_Some m p m' :
  set_bit m p = Some m' -> words_ok m -> 0 <= p ->
  length m' = length m /\ words_ok m' /\ p < 64 * Z.of_nat (length m) /\
  forall k, 0 <= k -> sbit m' k = sbit m k || (k =? p).
Proof.
  unfold set_bit. intros H Hw Hp.
  destruct (load m (p / 64)) as [w|] eqn:El; [|discriminate]. cbn [bind] in H.
  apply load_Some in El. destruct El as [Hi Ew].
  apply store_Some in H. destruct H as [_ ->].
  pose proof (Z.div_mod p 64 ltac:(lia)) as Hdm.
  pose proof (Z.mod_pos_bound p 64 ltac:(lia)) as Hmb.
  assert (Hbit : forall j, 0 <= j < 64 ->
            Z.testbit (Z.lor w (wrap64 (Z.shiftl 1 (Z.land p 63)))) j =
            Z.testbit w j || (j =? p mod 64)).
  { intros j Hj. rewrite Z.lor_spec, testbit_wrap64 by lia.
    replace (j <? 64) with true by (symmetry; apply Z.ltb_lt; lia).
    rewrite land_63, Z.shiftl_1_l, Z.pow2_bits_eqb by lia.
    simpl. now rewrite (Z.eqb_sym (p mod 64) j). }
  split; [apply set_nth_length|]. split; [|split; [lia|]].
  - apply words_ok_set_nth; [assumption|].
    pose proof (words_ok_nth m (Z.to_nat (p / 64)) Hw) as Hr. rewrite Ew in Hr.
    pose proof (wrap64_range (Z.shiftl 1 (Z.land p 63))) as Hr2.
    split; [apply Z.lor_nonneg; lia|].
    apply range_of_bits; [lia|apply Z.lor_nonneg; lia|].
    intros j Hj. rewrite Z.lor_spec.
    rewrite (bits_above w 64), (bits_above (wrap64 _) 64) by lia. reflexivity.
  - intros k Hk. rewrite sbit_set_nth by lia.
    pose proof (Z.div_mod k 64 ltac:(lia)) as Hkd.
    pose proof (Z.mod_pos_bound k 64 ltac:(lia)) as Hkm.
    destruct (k / 64 =? p / 64) eqn:E; [apply Z.eqb_eq in E|apply Z.eqb_neq in E].
    + rewrite Hbit by lia. rewrite <- Ew.
      rewrite <- E. unfold sbit at 1. f_equal.
      destruct (Z.eqb_spec (k mod 64) (p mod 64)); destruct (Z.eqb_spec k p);
        try reflexivity; exfalso; lia.
    + replace (k =? p) with false; [now rewrite orb_false_r|].
      symmetry. apply Z.eqb_neq. intros ->. now apply E.
Qed.

Lemma set_bit_ok m p :
  0 <= p < 64 * Z.of_nat (length m) -> exists m', set_bit m p = Some m'.
Proof.
  intros Hp. unfold set_bit.
  assert (Hi : 0 <= p / 64 < Z.of_nat (length m)).
  { split; [apply Z.div_pos; lia|apply Z.div_lt_upper_bound; lia]. }
  rewrite (load_ok _ _ Hi). cbn [bind]. rewrite (store_ok _ _ _ Hi).
  eexists; reflexivity.
Qed.

Lemma write_unary_Some us : forall m bc m' bc',
  write_unary us m bc = Some (m', bc') ->
  words_ok m -> 0 <= bc -> Forall (fun u => 0 <= u) us ->
  bc + unary_len us < 2 ^ 64 ->
  bc' = bc + unary_len us /\ length m' = length m /\ words_ok m' /\
  forall k, 0 <= k -> sbit m' k = sbit m k || is_term us bc k.
Proof.
  induction us as [|u us IH]; intros m bc m' bc' H Hw Hbc Hus Hov.
  - simpl in H. inversion H; subst. unfold unary_len; simpl.
    repeat split; try lia; try assumption.
    intros k _. now rewrite orb_false_r.
  - inversion Hus as [|? ? Hu Hus']; subst.
    rewrite unary_len_cons in *. pose proof (unary_len_nonneg us Hus') as Hn.
    cbn [write_unary] in H.
    rewrite (wrap64_small (bc + u)) in H by lia.
    destruct (set_bit m (bc + u)) as [m1|] eqn:Es; [|discriminate].
    cbn [bind] in H. rewrite (wrap64_small (bc + u + 1)) in H by lia.
    apply set_bit_Some in Es; [|assumption|lia].
    destruct Es as (Hlen & Hw1 & _ & Hb1).
    apply IH in H; [|assumption|lia|assumption|lia].
    destruct H as (-> & Hlen' & Hw' & Hb').
    repeat split; try lia; try assumption.
    intros k Hk. rewrite Hb', Hb1 by lia. cbn [is_term].
    now rewrite orb_assoc.
Qed.

Lemma write_unary_ok us : forall m bc,
  words_ok m -> 0 <= bc -> Forall (fun u => 0 <= u) us ->
  bc + unary_len us < 2 ^ 64 ->
  bc + unary_len us <= 64 * Z.of_nat (length m) ->
  exists m', write_unary us m bc = Some (m', bc + unary_len us).
Proof.
  induction us as [|u us IH]; intros m bc Hw Hbc Hus Hov Hcap.
  - exists m. simpl. unfold unary_len. simpl. f_equal. f_equal. lia.
  - inversion Hus as [|? ? Hu Hus']; subst.
    rewrite unary_len_cons in *. pose proof (unary_len_nonneg us Hus') as Hn.
    cbn [write_unary].
    rewrite (wrap64_small (bc + u)) by lia.
    destruct (set_bit_ok m (bc + u) ltac:(lia)) as [m1 Es].
    rewrite Es. cbn [bind]. rewrite (wrap64_small (bc + u + 1)) by lia.
    apply set_bit_Some in Es; [|assumption|lia].
    destruct Es as (Hlen & Hw1 & _ & _).
    destruct (IH m1 (bc + u + 1)) as [m' Hm']; try assumption; try lia.
    exists m'. rewrite Hm'. f_equal. f_equal. lia.
Qed.

Lemma bit_inc_fold us : forall acc,
  0 <= acc -> Forall (fun u => 0 <= u < 2 ^ 32 - 1) us ->
  acc + unary_len us < 2 ^ 64 ->
  fold_left (fun a u => wrap64 (a + wrap32 (u + 1))) us acc = acc + unary_len us.
Proof.
  induction us as [|u us IH]; intros acc Hacc Hus Hov.
  - unfold unary_len; simpl. lia.
  - inversion Hus as [|? ? Hu Hus']; subst.
    rewrite unary_len_cons in *.
    assert (0 <= unary_len us).
    { apply unary_len_nonneg. eapply Forall_impl; [|exact Hus'].
      simpl; intros; lia. }
    assert (E : wrap64 (acc + wrap32 (u + 1)) = acc + (u + 1)).
    { unfold wrap32. rewrite Z.mod_small by lia. apply wrap64_small; lia. }
    cbn [fold_left]. cbv beta. rewrite E.
    rewrite IH; try assumption; lia.
Qed.

Lemma u32m_nonneg us :
  Forall (fun u => 0 <= u < 2 ^ 32 - 1) us -> Forall (fun u => 0 <= u) us.
Proof. apply Forall_impl. intros; lia. Qed.

(** Whatever [appendUnaryAll] returns keeps the invariant and has set
    exactly the terminator bits. *)
Lemma appendUnaryAll_Some us b b' :
  appendUnaryAll us b = Some b' ->
  builder_inv b -> Forall (fun u => 0 <= u) us ->
  bit_count b + unary_len us < 2 ^ 64 ->
  bit_count b' = bit_count b + unary_len us /\
  Vector.size (data b') =
    words_for (wrap64 (bit_count b + bit_inc_of us)) /\
  builder_inv b' /\
  (forall k, 0 <= k ->
     sbit (Vector.mem (data b')) k =
     sbit (Vector.mem (data b)) k || is_term us (bit_count b) k).
Proof.
  intros H [Hw Hc Hs Ht] Hus Hov. unfold appendUnaryAll in H.
  set (d := Vector.resize _ (data b)) in H.
  destruct (write_unary us (Vector.mem d) (bit_count b)) as [[m bc]|] eqn:E;
    [|discriminate].
  cbn [bind] in H. inversion H; subst b'; clear H.
  cbn [bit_count data Vector.mem Vector.size].
  apply write_unary_Some in E; try assumption; [|apply words_ok_resize; assumption].
  destruct E as (-> & Hlen & Hw' & Hb).
  assert (Hbits : forall k, 0 <= k ->
     sbit m k = sbit (Vector.mem (data b)) k || is_term us (bit_count b) k).
  { intros k Hk. rewrite Hb by lia. unfold d. now rewrite sbit_resize. }
  split; [reflexivity|]. split; [apply resize_size|]. split; [|exact Hbits].
  constructor; cbn [bit_count data Vector.mem Vector.size].
  - assumption.
  - pose proof (unary_len_nonneg us Hus). lia.
  - unfold Vector.capacity. cbn [Vector.mem]. rewrite Hlen.
    pose proof (resize_capacity
      (words_for (wrap64 (bit_count b + bit_inc_of us))) (data b)) as [Hc1 _].
    pose proof (resize_size
      (words_for (wrap64 (bit_count b + bit_inc_of us))) (data b)) as Hsz.
    fold d in Hc1, Hsz. rewrite Hsz. exact Hc1.
  - intros k Hk. pose proof (unary_len_nonneg us Hus).
    rewrite Hbits by lia. rewrite Ht by lia. simpl.
    destruct (is_term us (bit_count b) k) eqn:E; [|reflexivity].
    apply is_term_lt in E; [lia|assumption].
Qed.

Lemma appendUnaryAll_spec us b :
  builder_inv b -> Forall (fun u => 0 <= u < 2 ^ 32 - 1) us ->
  bit_count b + unary_len us + 7 < 2 ^ 64 ->
  exists b',
    appendUnaryAll us b = Some b' /\
    bit_count b' = bit_count b + unary_len us /\
    Vector.size (data b') = words_for (bit_count b + unary_len us) /\
    builder_inv b' /\
    (forall k, 0 <= k ->
       sbit (Vector.mem (data b')) k =
       sbit (Vector.mem (data b)) k || is_term us (bit_count b) k).
Proof.
  intros Hinv Hus Hov.
  pose proof (u32m_nonneg us Hus) as Hus0.
  pose proof (unary_len_nonneg us Hus0) as Hn.
  pose proof (inv_count b Hinv) as Hc.
  assert (Hinc : bit_inc_of us = unary_len us).
  { unfold bit_inc_of. rewrite bit_inc_fold; try assumption; lia. }
  assert (exists b', appendUnaryAll us b = Some b') as [b' Hb'].
  { unfold appendUnaryAll. rewrite Hinc.
    rewrite (wrap64_small (bit_count b + unary_len us)) by lia.
    set (d := Vector.resize _ (data b)).
    destruct (write_unary_ok us (Vector.mem d) (bit_count b)) as [m Hm];
      try assumption; try lia.
    - apply words_ok_resize, Hinv.
    - pose proof (words_for_covers (bit_count b + unary_len us)
                    ltac:(lia) ltac:(lia)) as Hcov.
      pose proof (resize_capacity (words_for (bit_count b + unary_len us))
                    (data b)) as [Hc1 _].
      fold d in Hc1. unfold Vector.capacity in Hc1. lia.
    - rewrite Hm. cbn [bind]. eexists; reflexivity. }
  exists b'. split; [assumption|].
  apply appendUnaryAll_Some in Hb'; try assumption; [|lia].
  rewrite Hinc in Hb'.
  rewrite (wrap64_small (bit_count b + unary_len us)) in Hb' by lia.
  exact Hb'.
Qed.

End AppendUnary.

(** ** Properties of the word primitives *)

Section Primitives.

Lemma pos_rho_nonneg p : 0 <= pos_rho p.
Proof. induction p; cbn [pos_rho]; lia. Qed.

Lemma pos_nu_pos p : 1 <= pos_nu p.
Proof. induction p; cbn [pos_nu]; lia. Qed.

Lemma nu_nonneg x : 0 <= nu x.
Proof. destruct x; cbn [nu]; try lia. pose proof (pos_nu_pos p); lia. Qed.

Lemma nu_pos x : 0 < x -> 1 <= nu x.
Proof. destruct x; cbn [nu]; try lia. intros _. apply pos_nu_pos. Qed.

Lemma testbit_xO_succ q j :
  0 <= j -> Z.testbit (Z.pos q~0) (1 + j) = Z.testbit (Z.pos q) j.
Proof.
  intros Hj. change (Z.pos q~0) with (2 * Z.pos q).
  replace (1 + j) with (Z.succ j) by lia. now apply Z.testbit_even_succ.
Qed.

Lemma rho_spec x :
  0 < x ->
  0 <= rho x /\ Z.testbit x (rho x) = true /\
  forall j, 0 <= j < rho x -> Z.testbit x j = false.
Proof.
  destruct x as [|p|p]; try lia. intros _. simpl rho.
  induction p as [q IH|q IH|].
  - simpl. repeat split; try lia; intros; lia.
  - destruct IH as (H0 & H1 & H2). cbn [pos_rho].
    split; [lia|]. split.
    + now rewrite testbit_xO_succ.
    + intros j Hj. destruct (Z.eq_dec j 0) as [->|Hnz]; [reflexivity|].
      replace j with (1 + (j - 1)) by lia.
      rewrite testbit_xO_succ by lia. apply H2. lia.
  - simpl. repeat split; try lia; intros; lia.
Qed.

Lemma rho_lt x n : 0 < x < 2 ^ n -> rho x < n.
Proof.
  intros Hx. destruct (rho_spec x) as (H0 & H1 & _); [lia|].
  destruct (Z.lt_ge_cases (rho x) n) as [|Hge]; [assumption|].
  rewrite (bits_above x n) in H1 by lia. discriminate.
Qed.

Lemma strip_bits x j :
  0 < x -> 0 <= j -> Z.testbit (strip x) j = Z.testbit x (j + rho x + 1).
Proof.
  intros Hx Hj. destruct (rho_spec x Hx) as (R0 & _).
  unfold strip. rewrite !Z.shiftr_spec by lia. f_equal. lia.
Qed.

Lemma strip_nonneg x : 0 <= x -> 0 <= strip x.
Proof. intros. unfold strip. now apply Z.shiftr_nonneg, Z.shiftr_nonneg. Qed.

Lemma strip_range x n :
  0 < x < 2 ^ n -> 0 <= strip x < 2 ^ (n - rho x - 1).
Proof.
  intros Hx. pose proof (rho_lt x n Hx) as Hr.
  destruct (rho_spec x) as (R0 & _); [lia|].
  split; [apply strip_nonneg; lia|].
  apply range_of_bits; [lia|apply strip_nonneg; lia|].
  intros j Hj. rewrite strip_bits by lia. apply (bits_above x n); lia.
Qed.

Lemma strip_xO q : strip (Z.pos q~0) = strip (Z.pos q).
Proof.
  unfold strip. cbn [rho pos_rho]. f_equal.
  pose proof (pos_rho_nonneg q).
  replace (1 + pos_rho q) with (1 + pos_rho q)%Z by reflexivity.
  rewrite <- Z.shiftr_shiftr by lia. reflexivity.
Qed.

Lemma strip_xI q : strip (Z.pos q~1) = Z.pos q.
Proof. reflexivity. Qed.

Lemma nu_strip x : 0 < x -> nu (strip x) = nu x - 1.
Proof.
  destruct x as [|p|p]; try lia. intros _.
  induction p as [q IH|q IH|].
  - rewrite strip_xI. cbn [nu pos_nu]. lia.
  - rewrite strip_xO, IH. reflexivity.
  - reflexivity.
Qed.

Lemma select64_0 x : 0 < x -> select64 x 0 = rho x.
Proof.
  destruct x as [|p|p]; try lia. intros _. simpl.
  induction p as [q IH|q IH|]; simpl; try reflexivity.
  now rewrite IH.
Qed.

Lemma select64_strip x k :
  0 < x -> 1 <= k < nu x ->
  select64 x k = rho x + 1 + select64 (strip x) (k - 1).
Proof.
  destruct x as [|p|p]; try lia. intros _. revert k.
  induction p as [q IH|q IH|]; intros k Hk.
  - rewrite strip_xI. cbn [select64 rho pos_rho pos_select nu pos_nu] in *.
    replace (Z.to_nat k) with (S (Z.to_nat (k - 1))) by lia. lia.
  - rewrite strip_xO. specialize (IH k Hk).
    cbn [select64 rho pos_rho pos_select] in *. lia.
  - cbn [nu pos_nu] in Hk. lia.
Qed.

Lemma select64_range x : forall k n,
  0 < x < 2 ^ n -> 0 <= k < nu x -> 0 <= select64 x k < n.
Proof.
  intros k. revert x.
  assert (Hk : forall m : nat, forall x n,
            0 < x < 2 ^ n -> Z.of_nat m < nu x ->
            0 <= select64 x (Z.of_nat m) < n).
  { induction m as [|m IH]; intros x n Hx Hm.
    - change (Z.of_nat 0) with 0. rewrite select64_0 by lia.
      pose proof (rho_lt x n Hx). destruct (rho_spec x) as (R0 & _); lia.
    - rewrite select64_strip by lia.
      replace (Z.of_nat (S m) - 1) with (Z.of_nat m) by lia.
      pose proof (rho_lt x n Hx). destruct (rho_spec x) as (R0 & _); [lia|].
      pose proof (strip_range x n Hx) as Hs.
      pose proof (nu_strip x ltac:(lia)) as Hn.
      assert (0 < strip x).
      { destruct (Z.eq_dec (strip x) 0) as [E|E]; [|lia].
        rewrite E in Hn. cbn [nu] in Hn. lia. }
      specialize (IH (strip x) (n - rho x - 1) ltac:(lia) ltac:(lia)). lia. }
  intros x n Hx Hkn. specialize (Hk (Z.to_nat k) x n Hx).
  rewrite Z2Nat.id in Hk by lia. apply Hk. lia.
Qed.

Lemma nu_le x n : 0 <= n -> 0 <= x < 2 ^ n -> nu x <= n.
Proof.
  intros Hn. revert x.
  assert (H : forall m : nat, forall x n,
            0 <= n <= Z.of_nat m -> 0 <= x < 2 ^ n -> nu x <= n).
  { induction m as [|m IH]; intros x n' Hn' Hx.
    - assert (n' = 0) by lia. subst n'. change (2 ^ 0) with 1 in Hx.
      assert (x = 0) by lia. subst x. cbn [nu]. lia.
    - destruct (Z.eq_dec x 0) as [->|Hnz]; [cbn [nu]; lia|].
      pose proof (rho_lt x n' ltac:(lia)) as Hr.
      destruct (rho_spec x ltac:(lia)) as (R0 & _).
      pose proof (strip_range x n' ltac:(lia)) as Hs.
      pose proof (nu_strip x ltac:(lia)) as Hns.
      specialize (IH (strip x) (n' - rho x - 1) ltac:(lia) Hs). lia. }
  intros x Hx. apply (H (Z.to_nat n)); [lia|assumption].
Qed.

Lemma int_of_small z : - 2 ^ 31 <= z < 2 ^ 31 -> int_of z = z.
Proof. intros H. unfold int_of. rewrite Z.mod_small; lia. Qed.

End Primitives.

(** ** Steps of the unary cursor *)

Section Cursor.

Lemma readNext_unfold l r :
  readNext l r =
  if negb ((0 <=? l) && (l <? 64)) then None else
  '(q, w, p, v) <- read_unary (Vector.mem (rdata r)) (curr_window_unary r)
                     (curr_ptr_unary r) (valid_lower_bits_unary r) ;;
  fixed <- read_le (Vector.mem (rdata r)) (curr_fixed_offset r / 8) 8 ;;
  Some (Z.lor (wrap64 (Z.shiftl q l))
          (Z.land (Z.shiftr fixed (curr_fixed_offset r mod 8))
                  (wrap64 (wrap64 (Z.shiftl 1 l) - 1))),
        mkRBV (rdata r) (wrap64 (curr_fixed_offset r + l)) w p v).
Proof.
  unfold readNext, read_unary, strip.
  destruct (negb ((0 <=? l) && (l <? 64))); [reflexivity|].
  destruct (refill _ _ _ _) as [[[[w res] p] v]|]; reflexivity.
Qed.

Lemma skipSubtree_unfold n f r :
  skipSubtree n f r =
  if negb (0 <? n) then None else
  '(w, p, v) <- skip_unary (suffix (Vector.mem (rdata r)) (curr_ptr_unary r))
                  (curr_window_unary r) n (curr_ptr_unary r)
                  (valid_lower_bits_unary r) ;;
  Some (mkRBV (rdata r) (wrap64 (curr_fixed_offset r + f)) w p v).
Proof.
  unfold skipSubtree, skip_unary.
  destruct (negb (0 <? n)); [reflexivity|].
  destruct (skip_loop _ _ _ _ _) as [[[[w m] p] v]|]; reflexivity.
Qed.

Lemma suffix_cons d i x t :
  suffix d i = x :: t ->
  0 <= i < Z.of_nat (length d) /\ x = nth (Z.to_nat i) d 0 /\ t = suffix d (i + 1).
Proof.
  unfold suffix.
  destruct (0 <=? i) eqn:E0; [|discriminate].
  destruct (i <? Z.of_nat (length d)) eqn:E1; [|discriminate].
  apply Z.leb_le in E0. apply Z.ltb_lt in E1. cbn [andb]. intros H.
  split; [lia|].
  assert (Hs : forall (n : nat) (l : list Z) y u,
             skipn n l = y :: u -> y = nth n l 0 /\ u = skipn (S n) l).
  { induction n as [|n IH]; intros [|h l'] y u E; simpl in E; try discriminate.
    - inversion E. split; reflexivity.
    - apply IH in E. exact E. }
  apply Hs in H. destruct H as [Hx Ht]. split; [assumption|].
  replace (0 <=? i + 1) with true by (symmetry; apply Z.leb_le; lia).
  cbn [andb].
  replace (Z.to_nat (i + 1)) with (S (Z.to_nat i)) by lia.
  destruct (i + 1 <? Z.of_nat (length d)) eqn:E2; [assumption|].
  apply Z.ltb_ge in E2. rewrite Ht. apply skipn_all2. lia.
Qed.

Lemma suffix_ok d i :
  0 <= i < Z.of_nat (length d) ->
  suffix d i = nth (Z.to_nat i) d 0 :: suffix d (i + 1).
Proof.
  intros Hi. destruct (suffix d i) as [|x t] eqn:E.
  - exfalso. unfold suffix in E.
    replace (0 <=? i) with true in E by (symmetry; apply Z.leb_le; lia).
    replace (i <? Z.of_nat (length d)) with true in E
      by (symmetry; apply Z.ltb_lt; lia).
    cbn [andb] in E.
    apply (f_equal (@length Z)) in E. rewrite length_skipn in E. simpl in E. lia.
  - apply suffix_cons in E. destruct E as (_ & -> & ->). reflexivity.
Qed.

Lemma words_ok_suffix d i : words_ok d -> words_ok (suffix d i).
Proof.
  intros Hd. unfold suffix.
  destruct ((0 <=? i) && (i <? Z.of_nat (length d))); [|constructor].
  generalize (Z.to_nat i). intros n. revert n.
  induction Hd as [|h t Hh Ht IH]; intros [|n]; simpl; try constructor; auto.
Qed.

Lemma skip_zero_words_inv rest : forall w res ptr w' res' ptr',
  skip_zero_words rest w res ptr = Some (w', res', ptr') ->
  words_ok rest -> 0 <= w < 2 ^ 64 ->
  0 < w' < 2 ^ 64 /\ ptr <= ptr'.
Proof.
  induction rest as [|x rest IH]; intros w res ptr w' res' ptr' H Hr Hw;
    cbn [skip_zero_words] in H; destruct (Z.eqb_spec w 0) as [E|E];
    try discriminate.
  - inversion H; subst. lia.
  - inversion Hr as [|? ? Hx Hr']; subst.
    apply IH in H; [lia|assumption|assumption].
  - inversion H; subst. lia.
Qed.

Lemma refill_inv d w p v w' res p' v' :
  refill d w p v = Some (w', res, p', v') ->
  words_ok d -> 0 <= v <= 64 -> 0 <= w < 2 ^ v ->
  0 <= v' <= 64 /\ 0 < w' < 2 ^ v' /\ p <= p' /\ (w = 0 -> p < p').
Proof.
  unfold refill. intros H Hd Hv Hw.
  destruct (Z.eqb_spec w 0) as [E|E].
  - destruct (suffix d p) as [|x rest] eqn:Es; [discriminate|].
    pose proof (words_ok_suffix d p Hd) as Hs. rewrite Es in Hs.
    inversion Hs as [|? ? Hx Hrest]; subst.
    destruct (skip_zero_words rest x _ (p + 1)) as [[[a b] c]|] eqn:Ez;
      [|discriminate].
    cbn [bind] in H. inversion H; subst.
    apply skip_zero_words_inv in Ez; [|assumption|assumption].
    repeat split; intros; lia.
  - inversion H; subst. repeat split; intros; lia.
Qed.

Lemma read_unary_inv d w p v q w1 p1 v1 :
  read_unary d w p v = Some (q, w1, p1, v1) ->
  words_ok d -> 0 <= v <= 64 -> 0 <= w < 2 ^ v ->
  0 <= v1 <= 63 /\ 0 <= w1 < 2 ^ v1 /\ p <= p1 /\ (w = 0 -> p < p1).
Proof.
  unfold read_unary. intros H Hd Hv Hw.
  destruct (refill d w p v) as [[[[w' res] p'] v']|] eqn:E; [|discriminate].
  cbn [bind] in H. inversion H; subst; clear H.
  apply refill_inv in E; try assumption.
  destruct E as (Hv' & Hw' & Hp & Hz).
  pose proof (rho_lt w' v' Hw') as Hr.
  destruct (rho_spec w') as (R0 & _); [lia|].
  rewrite (wrap64_small (rho w' + 1)) by lia.
  rewrite int_of_small by lia.
  pose proof (strip_range w' v' Hw') as Hs.
  replace (v' - (rho w' + 1)) with (v' - rho w' - 1) by lia.
  repeat split; intros; try lia; auto.
Qed.

Lemma skip_loop_inv rest : forall w m p v w' m' p' v',
  skip_loop rest w m p v = Some (w', m', p', v') ->
  words_ok rest -> 0 <= v <= 64 -> 0 <= w < 2 ^ v -> 1 <= m < 2 ^ 64 ->
  0 <= v' <= 64 /\ 0 < w' < 2 ^ v' /\ 1 <= m' <= nu w' /\ p <= p' /\
  (w = 0 -> p < p').
Proof.
  induction rest as [|x rest IH]; intros w m p v w' m' p' v' H Hr Hv Hw Hm;
    cbn [skip_loop] in H; destruct (Z.ltb_spec (nu w) m) as [E|E];
    try discriminate.
  - inversion H; subst.
    assert (0 < w') by (destruct (Z.eq_dec w' 0) as [->|]; [simpl in E|]; lia).
    repeat split; intros; lia.
  - inversion Hr as [|? ? Hx Hr']; subst.
    pose proof (nu_nonneg w) as Hn.
    rewrite (wrap64_small (m - nu w)) in H by lia.
    apply IH in H; [|assumption|lia|assumption|lia].
    repeat split; intros; lia.
  - inversion H; subst.
    assert (0 < w') by (destruct (Z.eq_dec w' 0) as [->|]; [simpl in E|]; lia).
    repeat split; intros; lia.
Qed.

Lemma skip_unary_inv rest w m p v w1 p1 v1 :
  skip_unary rest w m p v = Some (w1, p1, v1) ->
  words_ok rest -> 0 <= v <= 64 -> 0 <= w < 2 ^ v -> 1 <= m < 2 ^ 64 ->
  0 <= v1 <= 63 /\ 0 <= w1 < 2 ^ v1 /\ p <= p1 /\ (w = 0 -> p < p1).
Proof.
  unfold skip_unary. intros H Hr Hv Hw Hm.
  destruct (skip_loop rest w m p v) as [[[[w' m'] p'] v']|] eqn:E; [|discriminate].
  cbn [bind] in H. inversion H; subst; clear H.
  apply skip_loop_inv in E; try assumption.
  destruct E as (Hv' & Hw' & Hm' & Hp & Hz).
  assert (Hm64 : m' < 2 ^ 64).
  { pose proof (nu_le w' v' ltac:(lia) ltac:(lia)). lia. }
  rewrite (wrap64_small (m' - 1)) by lia.
  pose proof (select64_range w' (m' - 1) v' Hw' ltac:(lia)) as Hs.
  set (cnt := select64 w' (m' - 1)) in *.
  rewrite (wrap64_small (cnt + 1)) by lia.
  rewrite int_of_small by lia.
  assert (Hsh : 0 <= Z.shiftr (Z.shiftr w' cnt) 1 < 2 ^ (v' - (cnt + 1))).
  { split; [apply Z.shiftr_nonneg, Z.shiftr_nonneg; lia|].
    apply range_of_bits; [lia|apply Z.shiftr_nonneg, Z.shiftr_nonneg; lia|].
    intros j Hj. rewrite !Z.shiftr_spec by lia.
    apply (bits_above w' v'); lia. }
  repeat split; intros; try lia; auto.
Qed.

End Cursor.

(** ** Reader operations and the cursor invariant *)

Ltac rbv_fields :=
  cbv [valid_lower_bits_unary curr_window_unary curr_ptr_unary rdata
       curr_fixed_offset] in *.

Section CursorInvariant.

Lemma readNext_inv l r x r' :
  readNext l r = Some (x, r') ->
  words_ok (Vector.mem (rdata r)) -> cursor_inv r ->
  cursor_inv r' /\ rdata r' = rdata r /\
  valid_lower_bits_unary r' <= 63 /\
  (curr_window_unary r = 0 -> curr_ptr_unary r < curr_ptr_unary r').
Proof.
  rewrite readNext_unfold. intros H Hd [Hv Hw].
  destruct (negb _); [discriminate|].
  destruct (read_unary _ _ _ _) as [[[[q w] p] v]|] eqn:E; [|discriminate].
  cbn [bind] in H.
  destruct (read_le _ _ _) as [fixed|]; [|discriminate].
  cbn [bind] in H. inversion H; subst; clear H.
  apply read_unary_inv in E; try assumption.
  unfold cursor_inv. rbv_fields. repeat split; intros; try lia; tauto.
Qed.

Lemma skipSubtree_inv n f r r' :
  skipSubtree n f r = Some r' ->
  words_ok (Vector.mem (rdata r)) -> cursor_inv r -> n < 2 ^ 64 ->
  cursor_inv r' /\ rdata r' = rdata r /\
  valid_lower_bits_unary r' <= 63 /\
  (curr_window_unary r = 0 -> curr_ptr_unary r < curr_ptr_unary r').
Proof.
  rewrite skipSubtree_unfold. intros H Hd [Hv Hw] Hn.
  destruct (Z.ltb_spec 0 n) as [Hpos|]; [|discriminate]. cbn [negb] in H.
  destruct (skip_unary _ _ _ _ _) as [[[w p] v]|] eqn:E; [|discriminate].
  cbn [bind] in H. inversion H; subst; clear H.
  apply skip_unary_inv in E; try assumption; try lia;
    [|apply words_ok_suffix; assumption].
  unfold cursor_inv. rbv_fields. repeat split; intros; try lia; tauto.
Qed.

Lemma readReset_inv bp uo r r0 :
  readReset bp uo r = Some r0 ->
  words_ok (Vector.mem (rdata r)) ->
  cursor_inv r0 /\ rdata r0 = rdata r.
Proof.
  unfold readReset. intros H Hd.
  destruct (load _ _) as [w|] eqn:E; [|discriminate].
  cbv beta iota delta [bind] in H. apply Some_inj in H. subst r0.
  apply load_Some in E. destruct E as [_ E].
  pose proof (words_ok_nth _ (Z.to_nat (wrap64 (bp + uo) / 64)) Hd) as Hw.
  rewrite E in Hw. rewrite land_63.
  pose proof (Z.mod_pos_bound (wrap64 (bp + uo)) 64 ltac:(lia)) as Hm.
  set (s := wrap64 (bp + uo) mod 64) in *. clearbody s.
  assert (Hs : 0 <= Z.shiftr w s < 2 ^ (64 - s)).
  { split; [apply Z.shiftr_nonneg; lia|].
    apply range_of_bits; [lia|apply Z.shiftr_nonneg; lia|].
    intros j Hj. rewrite Z.shiftr_spec by lia. apply (bits_above w 64); lia. }
  unfold cursor_inv. rbv_fields. split; [split; [lia|exact Hs]|reflexivity].
Qed.

Lemma step_op_inv op r r' :
  step_op op r = Some r' -> op_typed op ->
  words_ok (Vector.mem (rdata r)) -> cursor_inv r ->
  cursor_inv r' /\ rdata r' = rdata r /\
  (curr_window_unary r = 0 -> curr_ptr_unary r < curr_ptr_unary r').
Proof.
  destruct op as [l|n f]; cbn [step_op op_typed]; intros H Ht Hd Hi.
  - destruct (readNext l r) as [[x r1]|] eqn:E; [|discriminate].
    cbn [bind] in H. inversion H; subst.
    apply readNext_inv in E; tauto.
  - apply skipSubtree_inv in H; tauto.
Qed.

Lemma run_ops_inv ops : forall r r',
  run_ops ops r = Some r' -> Forall op_typed ops ->
  words_ok (Vector.mem (rdata r)) -> cursor_inv r ->
  cursor_inv r' /\ rdata r' = rdata r.
Proof.
  induction ops as [|op ops IH]; intros r r' H Ht Hd Hi; cbn [run_ops] in H.
  - inversion H; subst. tauto.
  - inversion Ht as [|? ? Hop Hops]; subst.
    destruct (step_op op r) as [r1|] eqn:E; [|discriminate]. cbn [bind] in H.
    apply step_op_inv in E; try assumption. destruct E as (Hi1 & Hd1 & _).
    apply IH in H; try assumption; [|rewrite Hd1; assumption].
    destruct H as [H1 H2]. split; [assumption|congruence].
Qed.

End CursorInvariant.

(** ** Skipping is repeated unary decoding *)

Section SkipEquivalence.

Lemma skip_unary_nonzero_base rest w ptr v :
  0 < w < 2 ^ v -> 0 <= v <= 64 ->
  skip_unary rest w 1 ptr v =
  Some (strip w, ptr, int_of (v - wrap64 (rho w + 1))).
Proof.
  intros Hw Hv. unfold skip_unary.
  pose proof (nu_pos w ltac:(lia)) as Hn.
  assert (E : skip_loop rest w 1 ptr v = Some (w, 1, ptr, v)).
  { destruct rest; cbn [skip_loop];
      destruct (Z.ltb_spec (nu w) 1); try lia; reflexivity. }
  rewrite E. cbv beta iota delta [bind].
  change (wrap64 (1 - 1)) with 0. rewrite select64_0 by lia. reflexivity.
Qed.

Lemma skip_unary_nonzero_step rest w ptr v n :
  0 < w < 2 ^ v -> 0 <= v <= 64 -> 1 <= n -> n + 1 < 2 ^ 64 ->
  skip_unary rest w (n + 1) ptr v =
  skip_unary rest (strip w) n ptr (int_of (v - wrap64 (rho w + 1))).
Proof.
  intros Hw Hv Hn Hn64. unfold skip_unary.
  pose proof (nu_strip w ltac:(lia)) as Hns.
  pose proof (rho_lt w v Hw) as Hr.
  destruct (rho_spec w ltac:(lia)) as (R0 & _).
  pose proof (strip_range w v Hw) as Hsr.
  destruct (Z.ltb_spec (nu w) (n + 1)) as [Hlt|Hge].
  - (* the window does not hold enough terminators: both load a word *)
    destruct rest as [|x rest]; cbn [skip_loop]; rewrite Hns;
      destruct (Z.ltb_spec (nu w) (n + 1)); try lia;
      destruct (Z.ltb_spec (nu w - 1) n); try lia; [reflexivity|].
    replace (n + 1 - nu w) with (n - (nu w - 1)) by lia. reflexivity.
  - assert (E1 : skip_loop rest w (n + 1) ptr v = Some (w, n + 1, ptr, v)).
    { destruct rest; cbn [skip_loop];
        destruct (Z.ltb_spec (nu w) (n + 1)); try lia; reflexivity. }
    assert (E2 : forall v', skip_loop rest (strip w) n ptr v' =
                            Some (strip w, n, ptr, v')).
    { intros v'. destruct rest; cbn [skip_loop]; rewrite Hns;
        destruct (Z.ltb_spec (nu w - 1) n); try lia; reflexivity. }
    rewrite E1, E2. cbv beta iota delta [bind].
    replace (n + 1 - 1) with n by lia.
    rewrite (wrap64_small n), (wrap64_small (n - 1)) by lia.
    rewrite (select64_strip w n) by lia.
    assert (Hs0 : 0 < strip w).
    { destruct (Z.eq_dec (strip w) 0) as [E|E]; [|lia].
      rewrite E in Hns. cbn [nu] in Hns. lia. }
    pose proof (select64_range (strip w) (n - 1) (v - rho w - 1)
                  ltac:(lia) ltac:(lia)) as Hc.
    set (c := select64 (strip w) (n - 1)) in *.
    rewrite (wrap64_small (rho w + 1)), (wrap64_small (c + 1)),
            (wrap64_small (rho w + 1 + c + 1)) by lia.
    rewrite (int_of_small (v - (rho w + 1))) by lia.
    f_equal. f_equal; [f_equal|f_equal; lia].
    unfold strip. rewrite !Z.shiftr_shiftr by lia. f_equal. lia.
Qed.

(** The zero words [readNext] walks over are walked over by
    [skipSubtree] too. *)
Lemma skip_zero_equiv d rest : forall w res i w' res' p' m,
  rest = suffix d i ->
  skip_zero_words rest w res i = Some (w', res', p') ->
  1 <= m < 2 ^ 64 ->
  skip_loop rest w m i 64 = skip_loop (suffix d p') w' m p' 64.
Proof.
  induction rest as [|x rest IH]; intros w res i w' res' p' m Hs H Hm;
    cbn [skip_zero_words] in H; destruct (Z.eqb_spec w 0) as [E|E];
    try discriminate.
  - inversion H; subst. rewrite <- Hs. reflexivity.
  - subst w. symmetry in Hs. apply suffix_cons in Hs.
    destruct Hs as (_ & _ & Hs).
    cbn [skip_loop nu].
    replace (0 <? m) with true by (symmetry; apply Z.ltb_lt; lia).
    rewrite Z.sub_0_r, (wrap64_small m) by lia.
    eapply IH; eassumption.
  - inversion H; subst. rewrite <- Hs. reflexivity.
Qed.

(** After the refill of [readNext], the unary skip sees the same thing
    from the refilled state. *)
Lemma refill_skip d w ptr v w' res p' v' m :
  refill d w ptr v = Some (w', res, p', v') ->
  1 <= m < 2 ^ 64 ->
  skip_unary (suffix d ptr) w m ptr v = skip_unary (suffix d p') w' m p' v'.
Proof.
  unfold refill. intros H Hm.
  destruct (Z.eqb_spec w 0) as [E|E].
  - destruct (suffix d ptr) as [|x rest] eqn:Es; [discriminate|].
    destruct (skip_zero_words rest x _ (ptr + 1)) as [[[a b] c]|] eqn:Ez;
      [|discriminate].
    cbv beta iota delta [bind] in H. apply Some_inj in H.
    inversion H; subst; clear H.
    apply suffix_cons in Es. destruct Es as (_ & _ & Es).
    unfold skip_unary. cbn [skip_loop nu].
    replace (0 <? m) with true by (symmetry; apply Z.ltb_lt; lia).
    rewrite Z.sub_0_r, (wrap64_small m) by lia.
    now rewrite (skip_zero_equiv d rest x _ (ptr + 1) w' res p' m Es Ez Hm).
  - apply Some_inj in H. inversion H; subst. reflexivity.
Qed.

Lemma read_skip_base d w ptr v q w1 p1 v1 :
  words_ok d -> 0 <= v <= 64 -> 0 <= w < 2 ^ v ->
  read_unary d w ptr v = Some (q, w1, p1, v1) ->
  skip_unary (suffix d ptr) w 1 ptr v = Some (w1, p1, v1).
Proof.
  intros Hd Hv Hw H. unfold read_unary in H.
  destruct (refill d w ptr v) as [[[[w' res] p'] v']|] eqn:E; [|discriminate].
  cbv beta iota delta [bind] in H. apply Some_inj in H.
  rewrite (refill_skip d w ptr v w' res p' v' 1 E) by lia.
  apply refill_inv in E; try assumption. destruct E as (Hv' & Hw' & _).
  rewrite skip_unary_nonzero_base by assumption.
  inversion H; subst. reflexivity.
Qed.

Lemma read_skip_step d w ptr v q w1 p1 v1 n :
  words_ok d -> 0 <= v <= 64 -> 0 <= w < 2 ^ v ->
  read_unary d w ptr v = Some (q, w1, p1, v1) ->
  1 <= n -> n + 1 < 2 ^ 64 ->
  skip_unary (suffix d ptr) w (n + 1) ptr v =
  skip_unary (suffix d p1) w1 n p1 v1.
Proof.
  intros Hd Hv Hw H Hn Hn64. unfold read_unary in H.
  destruct (refill d w ptr v) as [[[[w' res] p'] v']|] eqn:E; [|discriminate].
  cbv beta iota delta [bind] in H. apply Some_inj in H.
  rewrite (refill_skip d w ptr v w' res p' v' (n + 1) E) by lia.
  apply refill_inv in E; try assumption. destruct E as (Hv' & Hw' & _).
  rewrite skip_unary_nonzero_step by assumption.
  inversion H; subst. reflexivity.
Qed.

Lemma wrap64_add_l a b : wrap64 (wrap64 a + b) = wrap64 (a + b).
Proof. unfold wrap64. apply Zplus_mod_idemp_l. Qed.

(** Decoding [length ls] items and dropping the values leaves the reader
    where one [skipSubtree] over them leaves it. *)
Lemma readAll_skipSubtree ls : forall r vs r',
  ls <> [] ->
  words_ok (Vector.mem (rdata r)) -> cursor_inv r ->
  Z.of_nat (length ls) < 2 ^ 64 ->
  readAll ls r = Some (vs, r') ->
  skipSubtree (Z.of_nat (length ls)) (sum ls) r = Some r'.
Proof.
  induction ls as [|l ls IH]; intros r vs r' Hne Hd Hi Hlen H; [congruence|].
  cbn [readAll] in H.
  destruct (readNext l r) as [[x r1]|] eqn:E1; [|discriminate].
  cbv beta iota delta [bind] in H.
  destruct (readAll ls r1) as [[vs' r2]|] eqn:E2; [|discriminate].
  cbv beta iota delta [bind] in H. apply Some_inj in H.
  assert (r2 = r') by congruence. subst r2. clear H.
  pose proof (readNext_inv l r x r1 E1 Hd Hi) as (Hi1 & Hd1 & _).
  rewrite readNext_unfold in E1.
  destruct (negb _) eqn:El; [discriminate|].
  destruct (read_unary _ _ _ _) as [[[[q w] p] v]|] eqn:Eu; [|discriminate].
  cbv beta iota delta [bind] in E1.
  destruct (read_le _ _ _) as [fixed|]; [|discriminate].
  cbv beta iota delta [bind] in E1. apply Some_inj in E1.
  assert (Er1 : r1 = mkRBV (rdata r) (wrap64 (curr_fixed_offset r + l)) w p v)
    by congruence.
  clear E1. destruct Hi as [Hv Hw].
  rewrite skipSubtree_unfold.
  replace (negb (0 <? Z.of_nat (length (l :: ls)))) with false
    by (symmetry; apply negb_false_iff, Z.ltb_lt; cbn [length]; lia).
  destruct ls as [|l2 ls].
  - cbn [readAll] in E2. apply Some_inj in E2.
    assert (r1 = r') by congruence. subst r'.
    change (Z.of_nat (length [l])) with 1.
    rewrite (read_skip_base _ _ _ _ _ _ _ _ Hd Hv Hw Eu).
    cbv beta iota delta [bind]. rewrite Er1.
    unfold sum; cbn [fold_right]. now rewrite Z.add_0_r.
  - specialize (IH r1 vs' r' ltac:(discriminate)).
    rewrite Hd1 in IH. specialize (IH Hd Hi1).
    cbn [length] in Hlen, IH |- *.
    specialize (IH ltac:(lia) E2).
    rewrite skipSubtree_unfold in IH.
    replace (negb (0 <? Z.of_nat (S (length ls)))) with false in IH
      by (symmetry; apply negb_false_iff, Z.ltb_lt; lia).
    replace (Z.of_nat (S (S (length ls)))) with (Z.of_nat (S (length ls)) + 1)
      by lia.
    rewrite (read_skip_step _ _ _ _ _ _ _ _ _ Hd Hv Hw Eu) by lia.
    rewrite Er1 in IH. rbv_fields.
    destruct (skip_unary _ _ _ _ _) as [[[w3 p3] v3]|]; [|discriminate].
    cbv beta iota delta [bind] in IH |- *. rewrite <- IH. f_equal. f_equal.
    unfold sum. cbn [fold_right]. fold (sum ls).
    rewrite wrap64_add_l. f_equal. lia.
Qed.

End SkipEquivalence.

(** ** Reading a unary code and a remainder field *)

Section ReaderSpec.

Variable d : list Z.
Hypothesis Hd : words_ok d.

Lemma cur_at_bits w ptr v p :
  cur_at d w ptr v p ->
  0 <= w < 2 ^ v /\
  forall j, 0 <= j < v -> Z.testbit w j = sbit d (p + j).
Proof.
  intros [Hv Hp Hpos Hw].
  pose proof (words_ok_nth d (Z.to_nat (ptr - 1)) Hd) as Hr.
  set (W := nth (Z.to_nat (ptr - 1)) d 0) in *.
  assert (Hb : forall j, 0 <= j < v -> Z.testbit w j = sbit d (p + j)).
  { intros j Hj. subst w. rewrite Z.shiftr_spec by lia.
    unfold W. rewrite sbit_word by lia. f_equal. lia. }
  split; [|exact Hb]. subst w.
  split; [apply Z.shiftr_nonneg; lia|].
  apply range_of_bits; [lia|apply Z.shiftr_nonneg; lia|].
  intros j Hj. rewrite Z.shiftr_spec by lia. apply (bits_above W 64); lia.
Qed.

Lemma unary_finish w ptr v p q :
  cur_at d w ptr v p -> w <> 0 -> 0 <= q ->
  (forall j, p <= j < p + q -> sbit d j = false) ->
  sbit d (p + q) = true ->
  rho w = q /\ q < v /\ cur_at d (strip w) ptr (v - q - 1) (p + q + 1).
Proof.
  intros Hc Hnz Hq Hz Ho.
  destruct (cur_at_bits _ _ _ _ Hc) as [Hw Hb].
  destruct Hc as [Hv Hp Hpos Hwin].
  assert (Hw0 : 0 < w < 2 ^ v) by lia.
  pose proof (rho_lt w v Hw0) as Hr.
  destruct (rho_spec w ltac:(lia)) as (R0 & R1 & R2).
  assert (E : rho w = q).
  { destruct (Z.lt_trichotomy (rho w) q) as [Hlt|[Heq|Hgt]]; [|assumption|].
    - rewrite Hb, Hz in R1 by lia. discriminate.
    - rewrite <- Hb, R2 in Ho by lia. discriminate. }
  split; [assumption|]. split; [lia|].
  constructor; try lia.
  unfold strip. rewrite E, Hwin. rewrite !Z.shiftr_shiftr by lia.
  f_equal. lia.
Qed.

Lemma word_zero i :
  0 <= i ->
  (forall j, 0 <= j < 64 -> sbit d (64 * i + j) = false) ->
  nth (Z.to_nat i) d 0 = 0.
Proof.
  intros Hi H. pose proof (words_ok_nth d (Z.to_nat i) Hd) as Hr.
  apply Z.bits_inj'. intros n Hn. rewrite Z.bits_0.
  destruct (Z.lt_ge_cases n 64).
  - rewrite sbit_word by lia. apply H. lia.
  - apply (bits_above _ 64); lia.
Qed.

Lemma sbit_true_in_bounds t :
  0 <= t -> sbit d t = true -> t / 64 < Z.of_nat (length d).
Proof.
  intros Ht H. destruct (Z.lt_ge_cases (t / 64) (Z.of_nat (length d))); [assumption|].
  rewrite sbit_overflow in H; [discriminate|].
  pose proof (Z.div_mod t 64 ltac:(lia)).
  pose proof (Z.mod_pos_bound t 64 ltac:(lia)). lia.
Qed.

Lemma skip_zero_spec rest : forall i w res t,
  rest = suffix d (i + 1) -> 0 <= i -> w = nth (Z.to_nat i) d 0 ->
  64 * i <= t ->
  (forall j, 64 * i <= j < t -> sbit d j = false) ->
  sbit d t = true ->
  0 <= res -> res + (t - 64 * i) < 2 ^ 64 ->
  skip_zero_words rest w res (i + 1) =
    Some (nth (Z.to_nat (t / 64)) d 0, res + 64 * (t / 64 - i), t / 64 + 1) /\
  nth (Z.to_nat (t / 64)) d 0 <> 0.
Proof.
  induction rest as [|x rest IH]; intros i w res t Hs Hi Hw Ht Hz Ho Hres Hov.
  - pose proof (sbit_true_in_bounds t ltac:(lia) Ho) as Hin.
    pose proof (Z.div_mod t 64 ltac:(lia)) as Hdm.
    pose proof (Z.mod_pos_bound t 64 ltac:(lia)) as Hmb.
    assert (Hti : t / 64 = i).
    { destruct (Z.eq_dec (t / 64) i) as [|Hne]; [assumption|exfalso].
      assert (i + 1 <= t / 64) by lia.
      rewrite (suffix_ok d (i + 1)) in Hs by lia. discriminate. }
    cbn [skip_zero_words]. rewrite Hti. subst w.
    assert (Hnz : nth (Z.to_nat i) d 0 <> 0).
    { intros E. unfold sbit in Ho. rewrite Hti, E in Ho.
      rewrite Z.bits_0 in Ho. discriminate. }
    destruct (Z.eqb_spec (nth (Z.to_nat i) d 0) 0); [contradiction|].
    split; [|assumption]. f_equal. f_equal. f_equal. lia.
  - pose proof (sbit_true_in_bounds t ltac:(lia) Ho) as Hin.
    pose proof (Z.div_mod t 64 ltac:(lia)) as Hdm.
    pose proof (Z.mod_pos_bound t 64 ltac:(lia)) as Hmb.
    cbn [skip_zero_words].
    destruct (Z.eqb_spec w 0) as [E|E].
    + assert (Hge : 64 * (i + 1) <= t).
      { destruct (Z.lt_ge_cases t (64 * (i + 1))) as [Hlt|]; [exfalso|assumption].
        assert (t / 64 = i) by lia.
        unfold sbit in Ho. rewrite H, <- Hw, E, Z.bits_0 in Ho. discriminate. }
      symmetry in Hs. apply suffix_cons in Hs. destruct Hs as (Hb & Hx & Hs).
      rewrite (wrap64_small (res + 64)) by lia.
      destruct (IH (i + 1) x (res + 64) t) as [IH1 IH2]; try assumption; try lia.
      * intros j Hj. apply Hz. lia.
      * split; [|assumption]. rewrite IH1. f_equal. f_equal. f_equal. lia.
    + assert (Hti : t / 64 = i).
      { destruct (Z.eq_dec (t / 64) i) as [|Hne]; [assumption|exfalso].
        apply E. rewrite Hw. apply word_zero; [lia|].
        intros j Hj. apply Hz. lia. }
      rewrite Hti. subst w. split; [|assumption].
      f_equal. f_equal. f_equal. lia.
Qed.

Lemma read_unary_spec w ptr v p q :
  cur_at d w ptr v p -> 0 <= q < 2 ^ 64 ->
  (forall j, p <= j < p + q -> sbit d j = false) ->
  sbit d (p + q) = true ->
  exists w1 p1 v1,
    read_unary d w ptr v = Some (q, w1, p1, v1) /\
    cur_at d w1 p1 v1 (p + q + 1).
Proof.
  intros Hc Hq Hz Ho.
  destruct (cur_at_bits _ _ _ _ Hc) as [Hw Hb].
  pose proof Hc as [Hv Hp Hpos Hwin].
  unfold read_unary, refill.
  destruct (Z.eqb_spec w 0) as [E|E].
  - (* window exhausted: walk to the word holding the terminator *)
    set (t := p + q).
    assert (Hqv : v <= q).
    { destruct (Z.lt_ge_cases q v) as [Hlt|]; [exfalso|assumption].
      rewrite <- Hb, E, Z.bits_0 in Ho by lia. discriminate. }
    pose proof (sbit_true_in_bounds t ltac:(unfold t; lia) Ho) as Hin.
    pose proof (Z.div_mod t 64 ltac:(lia)) as Hdm.
    pose proof (Z.mod_pos_bound t 64 ltac:(lia)) as Hmb.
    assert (Hpt : ptr <= t / 64) by (unfold t in *; lia).
    rewrite (suffix_ok d ptr) by lia.
    rewrite Z.add_0_l, (wrap64_small v) by lia.
    destruct (skip_zero_spec (suffix d (ptr + 1)) ptr
                (nth (Z.to_nat ptr) d 0) v t) as [Hsk Hnz];
      [reflexivity|lia|reflexivity|lia| |exact Ho|lia|unfold t in *; lia|].
    { intros j Hj. apply Hz. unfold t in *. lia. }
    rewrite Hsk. cbv beta iota delta [bind].
    set (w' := nth (Z.to_nat (t / 64)) d 0) in *.
    assert (Hc' : cur_at d w' (t / 64 + 1) 64 (64 * (t / 64))).
    { constructor; try lia.
      replace (t / 64 + 1 - 1) with (t / 64) by lia.
      rewrite Z.sub_diag. reflexivity. }
    destruct (unary_finish w' (t / 64 + 1) 64 (64 * (t / 64)) (t mod 64) Hc')
      as (Hr & _ & Hc''); try assumption; try lia.
    { intros j Hj. apply Hz. unfold t in *. lia. }
    { replace (64 * (t / 64) + t mod 64) with t by lia. exact Ho. }
    rewrite Hr.
    rewrite (wrap64_small (t mod 64 + 1)) by lia.
    rewrite int_of_small by lia.
    replace (wrap64 (v + 64 * (t / 64 - ptr) + t mod 64)) with q
      by (rewrite wrap64_small; unfold t in *; lia).
    eexists _, _, _. split; [reflexivity|].
    replace (64 - (t mod 64 + 1)) with (64 - t mod 64 - 1) by lia.
    replace (64 * (t / 64) + t mod 64 + 1) with (p + q + 1) in Hc''
      by (unfold t in *; lia).
    exact Hc''.
  - destruct (unary_finish w ptr v p q Hc) as (Hr & Hqv & Hc');
      try assumption; try lia.
    cbv beta iota delta [bind]. rewrite Hr.
    rewrite Z.add_0_l, (wrap64_small q), (wrap64_small (q + 1)) by lia.
    rewrite int_of_small by lia.
    eexists _, _, _. split; [reflexivity|].
    replace (v - (q + 1)) with (v - q - 1) by lia. exact Hc'.
Qed.

End ReaderSpec.

Section FixedField.

Variable d : list Z.
Hypothesis Hd : words_ok d.

Lemma byte_at_bits o :
  0 <= o < 8 * Z.of_nat (length d) ->
  exists b, byte_at d o = Some b /\ 0 <= b /\
    forall j, 0 <= j -> Z.testbit b j = (j <? 8) && sbit d (8 * o + j).
Proof.
  intros Ho. unfold byte_at.
  pose proof (Z.div_mod o 8 ltac:(lia)) as Hdm.
  pose proof (Z.mod_pos_bound o 8 ltac:(lia)) as Hmb.
  assert (Hi : 0 <= o / 8 < Z.of_nat (length d)) by lia.
  rewrite (load_ok _ _ Hi). cbv beta iota delta [bind].
  pose proof (words_ok_nth d (Z.to_nat (o / 8)) Hd) as Hr.
  eexists. split; [reflexivity|]. split.
  - apply Z.land_nonneg. right. lia.
  - intros j Hj. change 255 with (Z.ones 8).
    rewrite testbit_low_bits by lia.
    destruct (Z.ltb_spec j 8); [|reflexivity]. cbn [andb].
    rewrite Z.shiftr_spec by lia. rewrite sbit_word by lia.
    f_equal. lia.
Qed.

Lemma read_le_bits n : forall o,
  0 <= o -> o + Z.of_nat n <= 8 * Z.of_nat (length d) ->
  exists x, read_le d o n = Some x /\ 0 <= x /\
    forall j, 0 <= j ->
      Z.testbit x j = (j <? 8 * Z.of_nat n) && sbit d (8 * o + j).
Proof.
  induction n as [|n IH]; intros o Ho Hb.
  - exists 0. split; [reflexivity|]. split; [lia|].
    intros j Hj. rewrite Z.bits_0.
    replace (j <? 8 * Z.of_nat 0) with false by (symmetry; apply Z.ltb_ge; lia).
    reflexivity.
  - cbn [read_le].
    destruct (byte_at_bits o ltac:(lia)) as (b & Eb & Hb0 & Hbb).
    destruct (IH (o + 1) ltac:(lia) ltac:(lia)) as (r & Er & Hr0 & Hrb).
    rewrite Eb, Er. cbv beta iota delta [bind].
    eexists. split; [reflexivity|]. split.
    + apply Z.lor_nonneg. split; [lia|]. apply Z.shiftl_nonneg. lia.
    + intros j Hj. rewrite Z.lor_spec, Hbb, Z.shiftl_spec by lia.
      destruct (Z.ltb_spec j 8).
      * rewrite (Z.testbit_neg_r r) by lia.
        replace (j <? 8 * Z.of_nat (S n)) with true
          by (symmetry; apply Z.ltb_lt; lia).
        cbn [andb]. apply orb_false_r.
      * cbn [andb orb]. rewrite Hrb by lia.
        replace (8 * (o + 1) + (j - 8)) with (8 * o + j) by lia.
        f_equal.
        destruct (Z.ltb_spec (j - 8) (8 * Z.of_nat n));
          destruct (Z.ltb_spec j (8 * Z.of_nat (S n))); try reflexivity; lia.
Qed.

Lemma fixed_field_read off l :
  0 <= off -> off / 8 + 8 <= 8 * Z.of_nat (length d) ->
  exists fixed,
    read_le d (off / 8) 8 = Some fixed /\
    fixed_field d off l = Z.land (Z.shiftr fixed (off mod 8)) (Z.ones l) /\
    forall j, 0 <= j ->
      Z.testbit fixed j = (j <? 64) && sbit d (8 * (off / 8) + j).
Proof.
  intros Ho Hb.
  destruct (read_le_bits 8 (off / 8)) as (x & Ex & _ & Hx).
  - apply Z.div_pos; lia.
  - change (Z.of_nat 8) with 8. lia.
  - exists x. unfold fixed_field. rewrite Ex. repeat split. exact Hx.
Qed.

Lemma fixed_field_bits off l j :
  0 <= off -> off / 8 + 8 <= 8 * Z.of_nat (length d) ->
  0 <= l -> off mod 8 + l <= 64 -> 0 <= j ->
  Z.testbit (fixed_field d off l) j = (j <? l) && sbit d (off + j).
Proof.
  intros Ho Hb Hl Hfit Hj.
  destruct (fixed_field_read off l Ho Hb) as (fixed & _ & -> & Hx).
  pose proof (Z.div_mod off 8 ltac:(lia)) as Hdm.
  pose proof (Z.mod_pos_bound off 8 ltac:(lia)) as Hmb.
  rewrite testbit_low_bits by lia.
  destruct (Z.ltb_spec j l); [|reflexivity]. cbn [andb].
  rewrite Z.shiftr_spec, Hx by lia.
  replace (j + off mod 8 <? 64) with true by (symmetry; apply Z.ltb_lt; lia).
  cbn [andb]. f_equal. lia.
Qed.

(** When the slot lies inside the eight bytes loaded, quotient and field
    reassemble the value. *)
Lemma decoded_value off v l :
  0 <= v < 2 ^ 64 -> 0 <= l <= 63 ->
  0 <= off -> off / 8 + 8 <= 8 * Z.of_nat (length d) ->
  off mod 8 + l <= 64 ->
  (forall j, 0 <= j < l -> sbit d (off + j) = Z.testbit v j) ->
  decoded d off (Z.shiftr v l) l = v.
Proof.
  intros Hv Hl Ho Hb Hfit Hbits. unfold decoded.
  apply Z.bits_inj'. intros j Hj.
  rewrite Z.lor_spec, testbit_wrap64, fixed_field_bits by lia.
  destruct (Z.ltb_spec j l).
  - rewrite Z.shiftl_spec, (Z.testbit_neg_r _ (j - l)) by lia.
    rewrite andb_false_r. cbn [orb andb]. apply Hbits. lia.
  - cbn [andb]. rewrite orb_false_r.
    destruct (Z.ltb_spec j 64).
    + cbn [andb]. rewrite Z.shiftl_spec, Z.shiftr_spec by lia.
      f_equal. lia.
    + cbn [andb]. symmetry. apply (bits_above v 64); lia.
Qed.

End FixedField.

(** ** Decoding a laid-out stream *)

Section Decoding.

Lemma readNext_spec r off p q l :
  let d := Vector.mem (rdata r) in
  words_ok d ->
  reader_at r off p -> 0 <= q < 2 ^ 64 -> 0 <= l <= 63 ->
  0 <= off -> off + l < 2 ^ 64 ->
  (off + l) / 8 + 8 <= 8 * Z.of_nat (length d) ->
  (forall j, p <= j < p + q -> sbit d j = false) ->
  sbit d (p + q) = true ->
  exists r',
    readNext l r = Some (decoded d off q l, r') /\
    rdata r' = rdata r /\ reader_at r' (off + l) (p + q + 1).
Proof.
  intros d Hd [Hoff Hc] Hq Hl Ho Hov Hb Hz Hone.
  rewrite readNext_unfold.
  replace (negb ((0 <=? l) && (l <? 64))) with false
    by (symmetry; apply negb_false_iff, andb_true_iff; split;
        [apply Z.leb_le|apply Z.ltb_lt]; lia).
  destruct (read_unary_spec d Hd _ _ _ p q Hc Hq Hz Hone)
    as (w1 & p1 & v1 & Eu & Hc1).
  fold d. rewrite Eu. cbv beta iota delta [bind].
  assert (Hb' : off / 8 + 8 <= 8 * Z.of_nat (length d)).
  { assert (off / 8 <= (off + l) / 8) by (apply Z.div_le_mono; lia). lia. }
  destruct (fixed_field_read d Hd off l Ho Hb') as (fixed & Ef & Eff & _).
  rewrite Hoff, Ef. cbv beta iota delta [bind].
  rewrite mask_ones by lia.
  rewrite (wrap64_small (off + l)) by lia.
  eexists. split; [unfold decoded; rewrite Eff; reflexivity|].
  split; [reflexivity|]. split; [reflexivity|exact Hc1].
Qed.

Lemma readAll_spec qls : forall r off p,
  let d := Vector.mem (rdata r) in
  words_ok d ->
  reader_at r off p -> Forall item_ok qls ->
  0 <= off -> off + sum (map snd qls) < 2 ^ 64 ->
  (off + sum (map snd qls)) / 8 + 8 <= 8 * Z.of_nat (length d) ->
  unary_at d p (map fst qls) ->
  exists r',
    readAll (map snd qls) r = Some (expected d off qls, r') /\
    rdata r' = rdata r /\
    reader_at r' (off + sum (map snd qls)) (p + unary_len (map fst qls)).
Proof.
  induction qls as [|[q l] qls IH]; intros r off p d Hd Hr Hok Ho Hov Hb Hu.
  - exists r. cbn [map readAll expected]. unfold sum, unary_len. cbn.
    rewrite !Z.add_0_r. repeat split; try reflexivity; apply Hr.
  - inversion Hok as [|? ? [Hq Hl] Hok']; subst. cbn [fst snd] in *.
    cbn [map fst snd unary_at] in Hu. destruct Hu as (Hz & Hone & Hu).
    assert (Hs : 0 <= sum (map snd qls)).
    { clear -Hok'. induction Hok' as [|[q' l'] ? [_ Hl'] _ IH'];
        unfold sum in *; cbn [map fold_right snd] in *; lia. }
    cbn [map fst snd] in Hb, Hov |- *.
    replace (sum (l :: map snd qls)) with (l + sum (map snd qls)) in *
      by reflexivity.
    destruct (readNext_spec r off p q l Hd Hr Hq Hl Ho) as (r1 & E1 & Hd1 & Hr1);
      try assumption; try lia.
    { assert ((off + l) / 8 <= (off + (l + sum (map snd qls))) / 8)
        by (apply Z.div_le_mono; lia).
      fold d. lia. }
    fold d in E1.
    assert (Ed : Vector.mem (rdata r1) = d) by (unfold d; now rewrite Hd1).
    destruct (IH r1 (off + l) (p + q + 1)) as (r2 & E2 & Hd2 & Hr2);
      try rewrite Ed; try assumption; try lia.
    { replace (off + l + sum (map snd qls))
        with (off + (l + sum (map snd qls))) by lia. exact Hb. }
    rewrite Ed in E2.
    exists r2. cbn [readAll]. rewrite E1. cbv beta iota delta [bind].
    rewrite E2. cbv beta iota delta [bind]. cbn [expected].
    split; [reflexivity|]. split; [congruence|].
    rewrite unary_len_cons.
    replace (off + (l + sum (map snd qls)))
      with (off + l + sum (map snd qls)) by lia.
    replace (p + (q + 1 + unary_len (map fst qls)))
      with (p + q + 1 + unary_len (map fst qls)) by lia.
    exact Hr2.
Qed.

Lemma readReset_spec bp uo r :
  let d := Vector.mem (rdata r) in
  0 <= bp -> 0 <= uo -> bp + uo < 64 * Z.of_nat (length d) ->
  bp + uo < 2 ^ 64 ->
  exists r0,
    readReset bp uo r = Some r0 /\ rdata r0 = rdata r /\
    reader_at r0 bp (bp + uo) /\
    curr_window_unary r0 =
      Z.shiftr (nth (Z.to_nat ((bp + uo) / 64)) d 0) ((bp + uo) mod 64) /\
    valid_lower_bits_unary r0 = 64 - (bp + uo) mod 64.
Proof.
  intros d Hbp Huo Hin Hlen. unfold readReset.
  rewrite (wrap64_small (bp + uo)) by lia. rewrite land_63.
  pose proof (Z.div_mod (bp + uo) 64 ltac:(lia)) as Hdm.
  pose proof (Z.mod_pos_bound (bp + uo) 64 ltac:(lia)) as Hmb.
  assert (Hi : 0 <= (bp + uo) / 64 < Z.of_nat (length d)) by lia.
  fold d. rewrite (load_ok _ _ Hi). cbv beta iota delta [bind].
  eexists. split; [reflexivity|]. split; [reflexivity|].
  split; [|split; reflexivity].
  split; [reflexivity|]. rbv_fields. fold d.
  constructor; try lia.
  replace ((bp + uo) / 64 + 1 - 1) with ((bp + uo) / 64) by lia.
  f_equal. lia.
Qed.

End Decoding.

(** ** What the builder writes *)

Section Encoding.

Lemma Builder_new_inv n : 0 <= n -> builder_inv (Builder_new n).
Proof.
  intros Hn. constructor; cbn [Builder_new data bit_count Vector.create
                                Vector.mem Vector.size].
  - apply words_ok_repeat.
  - lia.
  - unfold Vector.capacity, Vector.create. cbn [Vector.mem].
    rewrite repeat_length. lia.
  - intros k _. apply sbit_repeat.
Qed.

Lemma fixed_len_cons v l items : fixed_len ((v, l) :: items) = l + fixed_len items.
Proof. reflexivity. Qed.

Lemma fixed_len_app a b : fixed_len (a ++ b) = fixed_len a + fixed_len b.
Proof.
  induction a as [|[v l] a IH]; [reflexivity|].
  simpl app. rewrite !fixed_len_cons, IH. lia.
Qed.

Lemma fixed_len_nonneg items : Forall item_valid items -> 0 <= fixed_len items.
Proof.
  induction 1 as [|[v l] items (_ & Hl & _) _ IH].
  - unfold fixed_len, sum; simpl; lia.
  - rewrite fixed_len_cons. cbn [snd] in Hl. lia.
Qed.

Lemma quotients_valid items :
  Forall item_valid items ->
  Forall (fun u => 0 <= u < 2 ^ 32 - 1) (quotients items).
Proof.
  induction 1 as [|[v l] items (Hv & Hl & Hq) _ IH]; cbn [quotients map].
  - constructor.
  - constructor; [|exact IH]. cbn [fst snd] in *.
    split; [apply Z.shiftr_nonneg; lia|assumption].
Qed.

Lemma quotients_app a b : quotients (a ++ b) = quotients a ++ quotients b.
Proof. apply map_app. Qed.

Lemma unary_len_quotients_nonneg items :
  Forall item_valid items -> 0 <= unary_len (quotients items).
Proof.
  intros H. apply unary_len_nonneg, u32m_nonneg, quotients_valid, H.
Qed.

Lemma length_le_unary_len us :
  Forall (fun u => 0 <= u) us -> Z.of_nat (length us) <= unary_len us.
Proof.
  induction 1 as [|u us Hu _ IH]; [unfold unary_len, sum; simpl; lia|].
  rewrite unary_len_cons. cbn [length]. lia.
Qed.

Lemma qls_of_fst items : map fst (qls_of items) = quotients items.
Proof. unfold qls_of, quotients. rewrite map_map. reflexivity. Qed.

Lemma qls_of_snd items : map snd (qls_of items) = map snd items.
Proof. unfold qls_of. rewrite map_map. reflexivity. Qed.

Lemma qls_of_ok items : Forall item_valid items -> Forall item_ok (qls_of items).
Proof.
  induction 1 as [|[v l] items (Hv & Hl & Hq) _ IH]; cbn [qls_of map].
  - constructor.
  - constructor; [|exact IH]. unfold item_ok. cbn [fst snd] in *.
    split; [|lia]. split; [apply Z.shiftr_nonneg; lia|lia].
Qed.

Lemma fixed_at_ext d d' items : forall off,
  Forall item_valid items -> 0 <= off ->
  (forall k, 0 <= k < off + fixed_len items -> sbit d' k = sbit d k) ->
  fixed_at d off items -> fixed_at d' off items.
Proof.
  induction items as [|[v l] items IH]; intros off Hv Ho He Hf; [exact I|].
  inversion Hv as [|? ? (_ & Hl & _) Hv']; subst. cbn [snd] in Hl.
  pose proof (fixed_len_nonneg items Hv') as Hn.
  rewrite fixed_len_cons in He.
  destruct Hf as [Hb Hf]. split.
  - intros j Hj. rewrite He by lia. now apply Hb.
  - apply IH; try assumption; try lia.
    intros k Hk. apply He. lia.
Qed.

Lemma appendFixedAll_spec items : forall b,
  builder_inv b -> Forall item_valid items ->
  bit_count b + fixed_len items + 7 < 2 ^ 64 ->
  exists b',
    appendFixedAll items b = Some b' /\
    bit_count b' = bit_count b + fixed_len items /\
    builder_inv b' /\
    (forall k, 0 <= k < bit_count b ->
       sbit (Vector.mem (data b')) k = sbit (Vector.mem (data b)) k) /\
    fixed_at (Vector.mem (data b')) (bit_count b) items.
Proof.
  induction items as [|[v l] items IH]; intros b Hinv Hv Hov.
  - exists b. unfold fixed_len, sum. cbn [map fold_right appendFixedAll fixed_at].
    rewrite Z.add_0_r.
    split; [reflexivity|]. split; [reflexivity|]. split; [assumption|].
    split; [reflexivity|exact I].
  - inversion Hv as [|? ? (_ & Hl & _) Hv']; subst. cbn [snd] in Hl.
    pose proof (fixed_len_nonneg items Hv') as Hn.
    pose proof (inv_count b Hinv) as Hc.
    rewrite fixed_len_cons in *.
    destruct (appendFixed_spec b v l Hinv Hl ltac:(lia))
      as (b1 & E1 & Hc1 & _ & Hinv1 & Hb1).
    destruct (IH b1 Hinv1 Hv' ltac:(lia)) as (b2 & E2 & Hc2 & Hinv2 & Hb2 & Hf2).
    exists b2. cbn [appendFixedAll]. rewrite E1. cbv beta iota delta [bind].
    split; [exact E2|]. split; [lia|]. split; [assumption|]. split.
    + intros k Hk. rewrite Hb2 by lia. rewrite Hb1 by lia.
      replace ((bit_count b <=? k) && (k <? bit_count b + l)) with false
        by (symmetry; apply andb_false_iff; left; apply Z.leb_gt; lia).
      reflexivity.
    + split.
      * intros j Hj. rewrite Hb2 by lia. rewrite Hb1 by lia.
        replace ((bit_count b <=? bit_count b + j) &&
                 (bit_count b + j <? bit_count b + l)) with true
          by (symmetry; apply andb_true_iff; split;
              [apply Z.leb_le|apply Z.ltb_lt]; lia).
        f_equal. lia.
      * rewrite <- Hc1. exact Hf2.
Qed.

Lemma unary_at_of_terms d us : forall p,
  Forall (fun u => 0 <= u) us ->
  (forall k, p <= k -> sbit d k = is_term us p k) ->
  unary_at d p us.
Proof.
  induction us as [|u us IH]; intros p Hus Hb; [exact I|].
  inversion Hus as [|? ? Hu Hus']; subst.
  cbn [unary_at]. split; [|split].
  - intros j Hj. rewrite Hb by lia. cbn [is_term].
    replace (j =? p + u) with false by (symmetry; apply Z.eqb_neq; lia).
    cbn [orb]. destruct (is_term us (p + u + 1) j) eqn:E; [|reflexivity].
    apply is_term_ge in E; [lia|assumption].
  - rewrite Hb by lia. cbn [is_term]. now rewrite Z.eqb_refl.
  - apply IH; [assumption|]. intros k Hk. rewrite Hb by lia. cbn [is_term].
    replace (k =? p + u) with false by (symmetry; apply Z.eqb_neq; lia).
    reflexivity.
Qed.

Lemma unary_at_app d a : forall p b,
  unary_at d p (a ++ b) <->
  unary_at d p a /\ unary_at d (p + unary_len a) b.
Proof.
  induction a as [|q a IH]; intros p b.
  - cbn [app unary_at]. unfold unary_len, sum. cbn. rewrite Z.add_0_r. tauto.
  - cbn [app unary_at]. rewrite IH, unary_len_cons.
    replace (p + q + 1 + unary_len a) with (p + (q + 1 + unary_len a)) by lia.
    tauto.
Qed.

Lemma expected_app d a : forall off b,
  expected d off (a ++ b) =
  expected d off a ++ expected d (off + sum (map snd a)) b.
Proof.
  induction a as [|[q l] a IH]; intros off b.
  - cbn [app expected map]. unfold sum. cbn. now rewrite Z.add_0_r.
  - cbn [app expected map snd]. rewrite IH. cbn [app]. f_equal. f_equal.
    f_equal. unfold sum. cbn [fold_right]. lia.
Qed.

Lemma encode_spec items :
  Forall item_valid items -> stream_len items + 7 < 2 ^ 64 ->
  exists rbv, encode items = Some rbv /\ encoded items rbv.
Proof.
  intros Hv Hov. unfold stream_len in *.
  pose proof (fixed_len_nonneg items Hv) as HF.
  pose proof (unary_len_quotients_nonneg items Hv) as HU.
  pose proof (quotients_valid items Hv) as Hq.
  unfold encode, Builder_default.
  destruct (appendFixedAll_spec items (Builder_new 16)
              (Builder_new_inv 16 ltac:(lia)) Hv)
    as (b1 & E1 & Hc1 & Hinv1 & _ & Hf1).
  { cbn [Builder_new bit_count]. lia. }
  cbn [Builder_new bit_count] in Hc1, Hf1. rewrite Z.add_0_l in Hc1.
  destruct (appendUnaryAll_spec (quotients items) b1 Hinv1 Hq)
    as (b2 & E2 & Hc2 & Hs2 & Hinv2 & Hb2); [lia|].
  rewrite E1. cbv beta iota delta [bind]. rewrite E2.
  cbv beta iota delta [bind].
  eexists. split; [reflexivity|].
  rewrite Hc1 in Hc2, Hs2, Hb2.
  pose proof (words_for_covers (fixed_len items + unary_len (quotients items))
                ltac:(lia) ltac:(lia)) as Hcov.
  set (W := words_for (fixed_len items + unary_len (quotients items))) in *.
  destruct Hinv2 as [Hw2 Hcnt2 Hsz2 Ht2]. unfold Vector.capacity in Hsz2.
  assert (Hlen : Z.of_nat (length (firstn (Z.to_nat (Vector.size (data b2)))
                                          (Vector.mem (data b2)))) = W).
  { rewrite length_firstn. lia. }
  assert (Hsb : forall k, 0 <= k ->
            sbit (firstn (Z.to_nat (Vector.size (data b2)))
                         (Vector.mem (data b2))) k =
            sbit (Vector.mem (data b2)) k).
  { intros k Hk. destruct (Z.lt_ge_cases k (64 * W)).
    - apply sbit_firstn. lia.
    - rewrite sbit_overflow by lia. symmetry. apply Ht2. lia. }
  constructor; cbn [build rdata Vector.trimToFit Vector.mem Vector.size].
  - apply words_ok_firstn, Hw2.
  - exact Hs2.
  - exact Hlen.
  - apply (fixed_at_ext (Vector.mem (data b1))); try assumption; [lia|].
    intros k Hk. rewrite Hsb, Hb2 by lia.
    destruct (is_term (quotients items) (fixed_len items) k) eqn:E;
      [|apply orb_false_r].
    apply is_term_ge in E; [lia|]. apply u32m_nonneg, Hq.
  - apply unary_at_of_terms; [apply u32m_nonneg, Hq|].
    intros k Hk. rewrite Hsb, Hb2 by lia.
    rewrite (inv_tail b1 Hinv1) by lia. reflexivity.
Qed.

End Encoding.

(** ** Decoding what the builder wrote *)

Section RoundTrip.

Lemma fits_le_57 items : forall off,
  Forall (fun it => 0 <= snd it <= 57) items -> fits off items.
Proof.
  induction items as [|[v l] items IH]; intros off H; [exact I|].
  inversion H as [|? ? Hl H']; subst. cbn [snd] in Hl.
  pose proof (Z.mod_pos_bound off 8 ltac:(lia)).
  split; [lia|]. apply IH. assumption.
Qed.

Lemma expected_values d items : forall off,
  words_ok d -> Forall item_valid items -> 0 <= off ->
  (off + fixed_len items) / 8 + 8 <= 8 * Z.of_nat (length d) ->
  fixed_at d off items -> fits off items ->
  expected d off (qls_of items) = map fst items.
Proof.
  induction items as [|[v l] items IH]; intros off Hd Hv Ho Hb Hf Hfit;
    [reflexivity|].
  inversion Hv as [|? ? (Hv0 & Hl & _) Hv']; subst. cbn [fst snd] in *.
  pose proof (fixed_len_nonneg items Hv') as Hn.
  rewrite fixed_len_cons in Hb.
  destruct Hf as [Hbits Hf]. destruct Hfit as [Hfit1 Hfit].
  cbn [qls_of map expected fst snd]. f_equal.
  - apply decoded_value; try assumption.
    assert (off / 8 <= (off + (l + fixed_len items)) / 8)
      by (apply Z.div_le_mono; lia).
    lia.
  - apply IH; try assumption; try lia.
    replace (off + l + fixed_len items) with (off + (l + fixed_len items))
      by lia.
    exact Hb.
Qed.

(** A reader placed at an item boundary of an encoded stream decodes the
    items that follow. *)
Lemma decode_from pre post rbv :
  Forall item_valid (pre ++ post) -> stream_len (pre ++ post) + 7 < 2 ^ 64 ->
  encoded (pre ++ post) rbv ->
  forall r, rdata r = rdata rbv ->
    reader_at r (fixed_len pre)
              (fixed_len (pre ++ post) + unary_len (quotients pre)) ->
    exists r',
      readAll (map snd post) r =
        Some (expected (Vector.mem (rdata rbv)) (fixed_len pre) (qls_of post), r') /\
      rdata r' = rdata rbv /\
      reader_at r' (fixed_len (pre ++ post)) (stream_len (pre ++ post)).
Proof.
  intros Hv Hov [Hw Hsz Hlen Hfx Hun] r Hr Hat.
  apply Forall_app in Hv. destruct Hv as [Hvpre Hvpost].
  pose proof (fixed_len_nonneg pre Hvpre) as Hn1.
  pose proof (fixed_len_nonneg post Hvpost) as Hn2.
  pose proof (unary_len_quotients_nonneg pre Hvpre) as Hu1.
  pose proof (unary_len_quotients_nonneg post Hvpost) as Hu2.
  unfold stream_len in *.
  rewrite quotients_app, unary_len_app, fixed_len_app in *.
  apply unary_at_app in Hun. destruct Hun as [_ Hun].
  set (d := Vector.mem (rdata rbv)) in *.
  set (F1 := fixed_len pre) in *. set (F2 := fixed_len post) in *.
  set (U1 := unary_len (quotients pre)) in *.
  set (U2 := unary_len (quotients post)) in *.
  pose proof (words_for_covers (F1 + F2 + (U1 + U2)) ltac:(lia) ltac:(lia)) as Hcov.
  rewrite (words_for_eq (F1 + F2 + (U1 + U2))) in Hlen by lia.
  assert (Hpost : post = [] \/ 1 <= U2).
  { destruct post as [|it post']; [left; reflexivity|right].
    unfold U2. cbn [quotients map]. rewrite unary_len_cons.
    inversion Hvpost as [|? ? (Hv0 & Hl0 & _) Hv']; subst.
    pose proof (unary_len_quotients_nonneg post' Hv') as Hq.
    unfold quotients in Hq.
    assert (0 <= Z.shiftr (fst it) (snd it)) by (apply Z.shiftr_nonneg; lia).
    lia. }
  destruct Hpost as [->|HU2].
  - exists r. cbn [map readAll qls_of expected].
    split; [reflexivity|]. split; [assumption|].
    unfold F2, U2 in *. unfold fixed_len, unary_len, sum in *.
    cbn [quotients map fold_right] in *.
    rewrite !Z.add_0_r in *. exact Hat.
  - destruct (readAll_spec (qls_of post) r F1 (F1 + F2 + U1)) as (r' & E & Hd' & Hat').
    + rewrite Hr. exact Hw.
    + exact Hat.
    + apply qls_of_ok, Hvpost.
    + lia.
    + rewrite qls_of_snd. fold (fixed_len post). fold F2. lia.
    + rewrite qls_of_snd, Hr. fold (fixed_len post). fold F2. fold d.
      Z.div_mod_to_equations. lia.
    + rewrite qls_of_fst, Hr. exact Hun.
    + rewrite qls_of_snd, qls_of_fst in Hat'.
      rewrite qls_of_snd, Hr in E.
      fold (fixed_len post) in Hat'. fold F2 U2 in Hat'. fold d in E.
      exists r'. rewrite E. split; [reflexivity|]. split; [congruence|].
      replace (F1 + F2 + (U1 + U2)) with (F1 + F2 + U1 + U2) by lia.
      exact Hat'.
Qed.

Lemma start_reader items rbv :
  Forall item_valid items -> stream_len items + 7 < 2 ^ 64 ->
  encoded items rbv ->
  forall pre post, items = pre ++ post ->
    let bp := fixed_len pre in
    let upos := fixed_len items + unary_len (quotients pre) in
    exists r1,
      readReset bp (upos - bp) rbv = Some r1 /\ rdata r1 = rdata rbv /\
      reader_at r1 bp upos /\
      curr_window_unary r1 =
        Z.shiftr (nth (Z.to_nat (upos / 64)) (Vector.mem (rdata rbv)) 0)
                 (upos mod 64) /\
      valid_lower_bits_unary r1 = 64 - upos mod 64.
Proof.
  intros Hv Hov [Hw Hsz Hlen Hfx Hun] pre post -> bp upos.
  apply Forall_app in Hv. destruct Hv as [Hvpre Hvpost].
  pose proof (fixed_len_nonneg pre Hvpre) as Hn1.
  pose proof (fixed_len_nonneg post Hvpost) as Hn2.
  pose proof (unary_len_quotients_nonneg pre Hvpre) as Hu1.
  pose proof (unary_len_quotients_nonneg post Hvpost) as Hu2.
  unfold stream_len in *. subst bp upos.
  rewrite quotients_app, unary_len_app, fixed_len_app in *.
  pose proof (words_for_covers
                (fixed_len pre + fixed_len post +
                 (unary_len (quotients pre) + unary_len (quotients post)))
                ltac:(lia) ltac:(lia)) as Hcov.
  rewrite <- Hlen in Hcov.
  destruct (readReset_spec (fixed_len pre)
              (fixed_len pre + fixed_len post + unary_len (quotients pre)
               - fixed_len pre) rbv)
    as (r1 & E & Hd1 & Hat & Hwin & Hval); try lia.
  replace (fixed_len pre +
           (fixed_len pre + fixed_len post + unary_len (quotients pre)
            - fixed_len pre))
    with (fixed_len pre + fixed_len post + unary_len (quotients pre)) in * by lia.
  exists r1. repeat split; try assumption; apply Hat.
Qed.

End RoundTrip.

(** ** Further facts used by the theorems *)

Section Helpers.

Lemma readNext_rdata l r x r' : readNext l r = Some (x, r') -> rdata r' = rdata r.
Proof.
  rewrite readNext_unfold. intros H.
  destruct (negb _); [discriminate|].
  destruct (read_unary _ _ _ _) as [[[[q w] p] v]|]; [|discriminate].
  cbv beta iota delta [bind] in H.
  destruct (read_le _ _ _); [|discriminate].
  cbv beta iota delta [bind] in H. apply Some_inj in H.
  inversion H. reflexivity.
Qed.

(** Decoding a concatenation is decoding its parts in turn. *)
Lemma readAll_app_inv ls1 : forall ls2 r vs r2,
  readAll (ls1 ++ ls2) r = Some (vs, r2) ->
  exists r1 vs1 vs2,
    readAll ls1 r = Some (vs1, r1) /\ rdata r1 = rdata r /\
    readAll ls2 r1 = Some (vs2, r2).
Proof.
  induction ls1 as [|l ls1 IH]; intros ls2 r vs r2 H.
  - exists r, [], vs. repeat split; assumption.
  - cbn [app readAll] in H.
    destruct (readNext l r) as [[x ra]|] eqn:Ea; [|discriminate].
    cbv beta iota delta [bind] in H.
    destruct (readAll (ls1 ++ ls2) ra) as [[vsa rb]|] eqn:Eb; [|discriminate].
    cbv beta iota delta [bind] in H. apply Some_inj in H.
    assert (rb = r2) by congruence. subst rb.
    pose proof (readNext_rdata _ _ _ _ Ea) as Hda.
    destruct (IH ls2 ra vsa r2 Eb) as (r1 & vs1 & vs2 & H1 & H2 & H3).
    exists r1, (x :: vs1), vs2. cbn [readAll]. rewrite Ea.
    cbv beta iota delta [bind]. rewrite H1.
    cbv beta iota delta [bind]. repeat split; congruence.
Qed.

Lemma qls_of_app a b : qls_of (a ++ b) = qls_of a ++ qls_of b.
Proof. apply map_app. Qed.

Lemma expected_length d qls : forall off,
  length (expected d off qls) = length qls.
Proof.
  induction qls as [|[q l] qls IH]; intros off; [reflexivity|].
  cbn [expected length]. now rewrite IH.
Qed.

Lemma reach_inv b : reach b -> builder_inv b.
Proof.
  induction 1 as [n Hn|b v l b' Hr IH Hov E|b us b' Hr IH Hus Hov E].
  - now apply Builder_new_inv.
  - assert (Hl : 0 <= l <= 63).
    { unfold appendFixed in E.
      destruct (Z.leb_spec 0 l); destruct (Z.ltb_spec l 64);
        cbn [andb negb] in E; try discriminate. lia. }
    destruct (appendFixed_spec b v l IH Hl Hov) as (b1 & E1 & _ & _ & Hi & _).
    congruence.
  - apply appendUnaryAll_Some in E; try assumption; [tauto|].
    eapply Forall_impl; [|exact Hus]. simpl; intros; lia.
Qed.

(** [appendUnaryAll] only ever sets bits: the terminators. *)
Lemma appendUnaryAll_only_sets us b b' :
  appendUnaryAll us b = Some b' ->
  words_ok (Vector.mem (data b)) -> 0 <= bit_count b ->
  Forall (fun u => 0 <= u < 2 ^ 32) us ->
  bit_count b + unary_len us < 2 ^ 64 ->
  forall k, 0 <= k ->
    sbit (Vector.mem (data b')) k =
    sbit (Vector.mem (data b)) k || is_term us (bit_count b) k.
Proof.
  intros H Hw Hc Hus Hov. unfold appendUnaryAll in H.
  set (d := Vector.resize _ (data b)) in H.
  destruct (write_unary us (Vector.mem d) (bit_count b)) as [[m bc]|] eqn:E;
    [|discriminate].
  cbv beta iota delta [bind] in H. apply Some_inj in H. subst b'.
  cbn [data Vector.mem].
  apply write_unary_Some in E; try assumption.
  - destruct E as (_ & _ & _ & Hb). intros k Hk. rewrite Hb by lia.
    unfold d. now rewrite sbit_resize.
  - apply words_ok_resize. assumption.
  - eapply Forall_impl; [|exact Hus]. simpl; intros; lia.
Qed.

End Helpers.

(** * The claims *)

(** C1, as stated, fails: with parameters above 57 a remainder slot that
    starts late in a byte spills out of the eight bytes [readNext] loads.
    Items [(0, 7)] and [(2^57, 58)] are within the claimed ranges, yet the
    second value is decoded as 0. *)
Lemma roundtrip_wide_counterexample :
  Forall (fun it => 0 <= fst it < 2 ^ 64 /\ 0 <= snd it <= 63)
         [(0, 7); (2 ^ 57, 58)] /\
  decode_all [(0, 7); (2 ^ 57, 58)] = Some [0; 0] /\
  decode_all [(0, 7); (2 ^ 57, 58)] <> Some (map fst [(0, 7); (2 ^ 57, 58)]).
Proof.
  split; [repeat constructor; cbn [fst snd]; lia|].
  split; [vm_compute; reflexivity|].
  vm_compute. discriminate.
Qed.

(** C1 (amended): round trip.  For items [(v, l)] with [v < 2^64],
    [l] in [0, 63], quotient [v >> l < 2^32 - 1], a stream length that
    fits [size_t], and every remainder slot inside the eight bytes loaded
    at its first byte ([(l_1 + ... + l_(i-1)) mod 8 + l_i <= 64]): all
    remainders through [appendFixed], all quotients through one
    [appendUnaryAll], [build], [readReset(0, F)] and one [readNext(l_i)]
    per item return exactly the values [v_i] in order. *)
Theorem roundtrip items :
  Forall item_valid items -> stream_len items + 7 < 2 ^ 64 ->
  fits 0 items ->
  decode_all items = Some (map fst items).
Proof.
  intros Hv Hov Hfit. unfold decode_all.
  destruct (encode_spec items Hv Hov) as (rbv & E & Henc).
  rewrite E. cbv beta iota delta [bind].
  destruct (start_reader items rbv Hv Hov Henc [] items eq_refl)
    as (r0 & E0 & Hd0 & Hat0 & _).
  change (fixed_len []) with 0 in E0, Hat0.
  change (unary_len (quotients [])) with 0 in E0, Hat0.
  rewrite Z.add_0_r, Z.sub_0_r in E0. rewrite Z.add_0_r in Hat0.
  rewrite E0. cbv beta iota delta [bind].
  destruct (decode_from [] items rbv Hv Hov Henc r0 Hd0) as (r' & E1 & _).
  { change (fixed_len []) with 0. change (quotients []) with (@nil Z).
    change (unary_len []) with 0. cbn [app]. rewrite Z.add_0_r. exact Hat0. }
  cbn [app] in E1. change (fixed_len []) with 0 in E1.
  rewrite E1. cbv beta iota delta [bind]. f_equal.
  destruct Henc as [Hw Hsz Hlen Hfx Hun].
  apply expected_values; try assumption; [lia|].
  pose proof (fixed_len_nonneg items Hv) as HF.
  pose proof (unary_len_quotients_nonneg items Hv) as HU.
  unfold stream_len in *.
  rewrite Hlen, words_for_eq by lia.
  destruct items as [|it items'].
  - change (fixed_len []) with 0. change (unary_len (quotients [])) with 0.
    vm_compute. discriminate.
  - assert (1 <= unary_len (quotients (it :: items'))).
    { cbn [quotients map]. rewrite unary_len_cons.
      inversion Hv as [|? ? (Hv0 & Hl0 & _) Hv']; subst.
      pose proof (unary_len_quotients_nonneg items' Hv') as Hq.
      unfold quotients in Hq.
      assert (0 <= Z.shiftr (fst it) (snd it)) by (apply Z.shiftr_nonneg; lia).
      lia. }
    Z.div_mod_to_equations. lia.
Qed.

Lemma roundtrip_witness :
  decode_all [(3, 2); (9, 2); (1000, 60); (77, 3)] =
  Some (map fst [(3, 2); (9, 2); (1000, 60); (77, 3)]).
Proof.
  apply roundtrip.
  - repeat constructor; cbn [fst snd]; try lia; vm_compute; reflexivity.
  - vm_compute. reflexivity.
  - cbn [fits]. repeat split; vm_compute; discriminate.
Defined.

(** C2, as stated, fails on the bit count: the unary codes of 0 and 2
    are [1] and [001], four bits, so the builder has written 4 + 4 = 8
    bits, not 10. *)
Lemma scenario_ten_bits_counterexample : scenario <> Some (10, 3, 9).
Proof. vm_compute. discriminate. Qed.

(** C2 (amended): the concrete scenario.  After [appendFixed(3, 2)],
    [appendFixed(1, 2)] and [appendUnaryAll([0, 2])] the builder has
    written 4 + 4 = 8 bits, and a reader at the start of the sealed
    stream returns 3 and then (2 << 2) | 1 = 9 from two [readNext(2)]
    calls. *)
Theorem scenario_result : scenario = Some (8, 3, 9).
Proof. vm_compute. reflexivity. Qed.

(** C3, as stated, fails at [k = 0]: [skipSubtree] asserts [nodes > 0],
    so skipping zero items aborts while decoding zero items does
    nothing. *)
Lemma skip_zero_counterexample :
  skip_run [(3, 2); (9, 2)] 0 0 [2] = None /\
  (exists r, read_run [(3, 2); (9, 2)] [] [2] = Some ([3], r)) /\
  skip_run [(3, 2); (9, 2)] 0 0 [2] <> read_run [(3, 2); (9, 2)] [] [2].
Proof.
  split; [vm_compute; reflexivity|].
  split; [eexists; vm_compute; reflexivity|].
  vm_compute. discriminate.
Qed.

(** C3 (amended): skip equivalence for [k >= 1].  On the sealed stream
    of the items [pre ++ mid ++ post] with [pre] nonempty, from the
    start-of-stream cursor, [skipSubtree(k, F_k)] over the [k] items of
    [pre] followed by decoding the items of [mid] succeeds and gives the
    same values and the same final reader as decoding [pre] and then
    [mid] with [readNext]; [skipSubtree] returns a reader only. *)
Theorem skip_equivalence pre mid post :
  pre <> [] ->
  Forall item_valid (pre ++ mid ++ post) ->
  stream_len (pre ++ mid ++ post) + 7 < 2 ^ 64 ->
  exists vs r,
    skip_run (pre ++ mid ++ post) (Z.of_nat (length pre)) (fixed_len pre)
             (map snd mid) = Some (vs, r) /\
    read_run (pre ++ mid ++ post) (map snd pre) (map snd mid) = Some (vs, r).
Proof.
  intros Hne Hv Hov. unfold skip_run, read_run.
  destruct (encode_spec _ Hv Hov) as (rbv & E & Henc).
  rewrite E. cbv beta iota delta [bind].
  destruct (start_reader _ rbv Hv Hov Henc [] _ eq_refl)
    as (r0 & E0 & Hd0 & Hat0 & _).
  change (fixed_len []) with 0 in E0, Hat0.
  change (unary_len (quotients [])) with 0 in E0, Hat0.
  rewrite Z.add_0_r, Z.sub_0_r in E0. rewrite Z.add_0_r in Hat0.
  rewrite E0. cbv beta iota delta [bind].
  pose proof (enc_words _ _ Henc) as Hw.
  (* decode [pre], then [mid], from the start *)
  pose proof Hv as Hv2. apply Forall_app in Hv2. destruct Hv2 as [Hvpre Hvrest].
  apply Forall_app in Hvrest. destruct Hvrest as [Hvmid Hvpost].
  assert (Hv12 : Forall item_valid (pre ++ mid)) by (apply Forall_app; tauto).
  assert (Hfl : fixed_len (pre ++ mid ++ post) =
                fixed_len (pre ++ mid) + fixed_len post)
    by (rewrite app_assoc; apply fixed_len_app).
  assert (H12 : exists r1 vs1 r2 vs2,
            readAll (map snd pre) r0 = Some (vs1, r1) /\
            rdata r1 = rdata rbv /\
            readAll (map snd mid) r1 = Some (vs2, r2)).
  { destruct (readAll_spec (qls_of (pre ++ mid)) r0 0
                (fixed_len (pre ++ mid ++ post))) as (r2 & E2 & _).
    - rewrite Hd0. exact Hw.
    - exact Hat0.
    - apply qls_of_ok, Hv12.
    - lia.
    - rewrite qls_of_snd. fold (fixed_len (pre ++ mid)).
      pose proof (fixed_len_nonneg _ Hv12).
      pose proof (fixed_len_nonneg _ Hvpost).
      pose proof (unary_len_quotients_nonneg _ Hv).
      unfold stream_len in Hov. rewrite Hfl in Hov. lia.
    - rewrite qls_of_snd, Hd0. fold (fixed_len (pre ++ mid)).
      destruct Henc as [_ _ Hlen _ _]. rewrite Hlen.
      pose proof (fixed_len_nonneg _ Hv12) as Hf12.
      pose proof (fixed_len_nonneg _ Hvpost) as Hf3.
      pose proof (fixed_len_nonneg _ Hv) as Hf.
      pose proof (unary_len_quotients_nonneg _ Hv) as Hu.
      unfold stream_len in *.
      rewrite words_for_eq by lia.
      assert (1 <= unary_len (quotients (pre ++ mid ++ post))).
      { destruct pre as [|it pre']; [congruence|].
        cbn [app quotients map]. rewrite unary_len_cons.
        inversion Hv as [|? ? (Hv0 & Hl0 & _) Hv']; subst.
        pose proof (unary_len_quotients_nonneg _ Hv') as Hq.
        unfold quotients in Hq.
        assert (0 <= Z.shiftr (fst it) (snd it)) by (apply Z.shiftr_nonneg; lia).
        lia. }
      rewrite Hfl in *.
      rewrite Z.add_0_l. Z.div_mod_to_equations. lia.
    - rewrite qls_of_fst, Hd0. destruct Henc as [_ _ _ _ Hun].
      rewrite (app_assoc pre mid post), quotients_app in Hun.
      apply unary_at_app in Hun. rewrite <- app_assoc in Hun. tauto.
    - rewrite qls_of_snd, map_app in E2.
      clear -E2 Hd0. revert E2.
      generalize (expected (Vector.mem (rdata r0)) 0 (qls_of (pre ++ mid))).
      intros vs E2.
      destruct (readAll_app_inv _ _ _ _ _ E2)
        as (r1 & vs1 & vs2 & H1 & H2 & H3).
      exists r1, vs1, r2, vs2. repeat split; congruence. }
  destruct H12 as (r1 & vs1 & r2 & vs2 & E1 & Hd1 & E2).
  exists vs2, r2.
  assert (Hi0 : cursor_inv r0).
  { destruct Hat0 as [_ Hc]. rewrite Hd0 in Hc.
    destruct (cur_at_bits _ Hw _ _ _ _ Hc) as [Hr _].
    destruct Hc as [Hval _ _ _]. split; assumption. }
  assert (Hk : Z.of_nat (length (map snd pre)) < 2 ^ 64).
  { rewrite length_map.
    pose proof (length_le_unary_len (quotients pre)
                  (u32m_nonneg _ (quotients_valid _ Hvpre))) as Hle.
    unfold quotients in Hle at 1. rewrite length_map in Hle.
    pose proof (fixed_len_nonneg _ Hv).
    assert (Hrest : Forall item_valid (mid ++ post)) by (apply Forall_app; tauto).
    pose proof (unary_len_quotients_nonneg _ Hrest).
    unfold stream_len in Hov.
    rewrite quotients_app, unary_len_app in Hov. lia. }
  pose proof (readAll_skipSubtree (map snd pre) r0 vs1 r1
                ltac:(destruct pre; [congruence|discriminate])
                ltac:(rewrite Hd0; exact Hw) Hi0 Hk E1) as Hskip.
  rewrite length_map in Hskip. fold (fixed_len pre) in Hskip.
  unfold skip_then_read, read_then_read.
  rewrite Hskip, E1. cbv beta iota delta [bind]. split; exact E2.
Qed.

Lemma skip_equivalence_witness :
  exists vs r,
    skip_run ([(3, 2); (9, 2)] ++ [(1000, 60)] ++ [(77, 3)])
             (Z.of_nat (length [(3, 2); (9, 2)])) (fixed_len [(3, 2); (9, 2)])
             (map snd [(1000, 60)]) = Some (vs, r) /\
    read_run ([(3, 2); (9, 2)] ++ [(1000, 60)] ++ [(77, 3)])
             (map snd [(3, 2); (9, 2)]) (map snd [(1000, 60)]) = Some (vs, r).
Proof.
  apply skip_equivalence.
  - discriminate.
  - repeat constructor; cbn [fst snd]; try lia; vm_compute; reflexivity.
  - vm_compute. reflexivity.
Defined.

(** C4: reset correctness.  On the sealed stream of [pre ++ post], the
    boundary before the first item of [post] has [bitPos] the fixed bits
    of [pre] and unary position [upos] the fixed bits of all items plus
    the unary bits of [pre].  [readReset(bitPos, upos - bitPos)] sets the
    fixed cursor to [bitPos], loads the window from the word holding bit
    [upos] shifted right by [upos mod 64], sets the valid bits to
    [64 - upos mod 64], and the [readNext] calls that follow return for
    the items of [post] the values sequential decoding from the start
    returns for them. *)
Theorem reset_correct pre post :
  Forall item_valid (pre ++ post) ->
  stream_len (pre ++ post) + 7 < 2 ^ 64 ->
  let bp := fixed_len pre in
  let upos := fixed_len (pre ++ post) + unary_len (quotients pre) in
  exists rbv r1 r0 vs_pre vs_post rs rs',
    encode (pre ++ post) = Some rbv /\
    readReset bp (upos - bp) rbv = Some r1 /\
    curr_fixed_offset r1 = bp /\
    curr_window_unary r1 =
      Z.shiftr (nth (Z.to_nat (upos / 64)) (Vector.mem (rdata rbv)) 0)
               (upos mod 64) /\
    valid_lower_bits_unary r1 = 64 - upos mod 64 /\
    readReset 0 (fixed_len (pre ++ post)) rbv = Some r0 /\
    readAll (map snd (pre ++ post)) r0 = Some (vs_pre ++ vs_post, rs) /\
    length vs_pre = length pre /\
    readAll (map snd post) r1 = Some (vs_post, rs').
Proof.
  intros Hv Hov bp upos.
  destruct (encode_spec _ Hv Hov) as (rbv & E & Henc).
  destruct (start_reader _ rbv Hv Hov Henc pre post eq_refl)
    as (r1 & E1 & Hd1 & Hat1 & Hwin & Hval).
  destruct (start_reader _ rbv Hv Hov Henc [] _ eq_refl)
    as (r0 & E0 & Hd0 & Hat0 & _).
  change (fixed_len []) with 0 in E0, Hat0.
  change (unary_len (quotients [])) with 0 in E0, Hat0.
  rewrite Z.add_0_r, Z.sub_0_r in E0. rewrite Z.add_0_r in Hat0.
  destruct (decode_from pre post rbv Hv Hov Henc r1 Hd1 Hat1)
    as (rs' & Ep & _).
  destruct (decode_from [] (pre ++ post) rbv Hv Hov Henc r0 Hd0)
    as (rs & Ea & _).
  { change (fixed_len []) with 0. change (quotients []) with (@nil Z).
    change (unary_len []) with 0. cbn [app]. rewrite Z.add_0_r. exact Hat0. }
  cbn [app] in Ea. change (fixed_len []) with 0 in Ea.
  rewrite qls_of_app, expected_app, qls_of_snd in Ea.
  fold (fixed_len pre) in Ea. rewrite Z.add_0_l in Ea.
  exists rbv, r1, r0,
    (expected (Vector.mem (rdata rbv)) 0 (qls_of pre)),
    (expected (Vector.mem (rdata rbv)) (fixed_len pre) (qls_of post)),
    rs, rs'.
  repeat split; try assumption.
  - apply Hat1.
  - rewrite expected_length. unfold qls_of. apply length_map.
Qed.

Lemma reset_correct_witness :
  exists rbv r1 r0 vs_pre vs_post rs rs',
    encode ([(3, 2); (9, 2)] ++ [(1000, 60); (77, 3)]) = Some rbv /\
    readReset 4 (71 - 4) rbv = Some r1 /\
    curr_fixed_offset r1 = 4 /\
    curr_window_unary r1 =
      Z.shiftr (nth (Z.to_nat (71 / 64)) (Vector.mem (rdata rbv)) 0)
               (71 mod 64) /\
    valid_lower_bits_unary r1 = 64 - 71 mod 64 /\
    readReset 0 67 rbv = Some r0 /\
    readAll (map snd ([(3, 2); (9, 2)] ++ [(1000, 60); (77, 3)])) r0 =
      Some (vs_pre ++ vs_post, rs) /\
    length vs_pre = length [(3, 2); (9, 2)] /\
    readAll (map snd [(1000, 60); (77, 3)]) r1 = Some (vs_post, rs').
Proof.
  apply (reset_correct [(3, 2); (9, 2)] [(1000, 60); (77, 3)]).
  - repeat constructor; cbn [fst snd]; try lia; vm_compute; reflexivity.
  - vm_compute. reflexivity.
Defined.

(** C5: [appendFixed] postcondition.  From a builder state satisfying
    the builder invariant, with bit count [B], and for [0 <= l <= 63]
    (the new bit count within [size_t]), [appendFixed(v, l)] succeeds,
    stream bits [B .. B + l) become the low [l] bits of [v] (wherever the
    word boundary falls), stream bits below [B] are unchanged, and the bit
    count grows by exactly [l]. *)
Theorem appendFixed_post b v l :
  builder_inv b -> 0 <= l <= 63 -> bit_count b + l + 7 < 2 ^ 64 ->
  exists b',
    appendFixed v l b = Some b' /\
    bit_count b' = bit_count b + l /\
    (forall j, 0 <= j < l ->
       sbit (Vector.mem (data b')) (bit_count b + j) = Z.testbit v j) /\
    (forall k, 0 <= k < bit_count b ->
       sbit (Vector.mem (data b')) k = sbit (Vector.mem (data b)) k) /\
    64 * Vector.capacity (data b') >= bit_count b'.
Proof.
  intros Hinv Hl Hov.
  destruct (appendFixed_spec b v l Hinv Hl Hov) as (b' & E & Hc & Hs & Hi & Hb).
  pose proof (inv_count b Hinv) as Hc0.
  exists b'. split; [assumption|]. split; [assumption|]. split; [|split].
  - intros j Hj. rewrite Hb by lia.
    replace ((bit_count b <=? bit_count b + j) &&
             (bit_count b + j <? bit_count b + l)) with true
      by (symmetry; apply andb_true_iff; split;
          [apply Z.leb_le|apply Z.ltb_lt]; lia).
    f_equal. lia.
  - intros k Hk. rewrite Hb by lia.
    replace ((bit_count b <=? k) && (k <? bit_count b + l)) with false
      by (symmetry; apply andb_false_iff; left; apply Z.leb_gt; lia).
    reflexivity.
  - pose proof (inv_size b' Hi) as Hsz. rewrite Hs in Hsz.
    pose proof (words_for_covers (bit_count b + l) ltac:(lia) ltac:(lia)).
    lia.
Qed.

Lemma appendFixed_post_witness :
  exists b',
    appendFixed (2 ^ 40 + 5) 41 (mkBuilder (Vector.mk [1; 0] 2) 40) = Some b' /\
    bit_count b' = bit_count (mkBuilder (Vector.mk [1; 0] 2) 40) + 41 /\
    (forall j, 0 <= j < 41 ->
       sbit (Vector.mem (data b'))
            (bit_count (mkBuilder (Vector.mk [1; 0] 2) 40) + j) =
       Z.testbit (2 ^ 40 + 5) j) /\
    (forall k, 0 <= k < bit_count (mkBuilder (Vector.mk [1; 0] 2) 40) ->
       sbit (Vector.mem (data b')) k =
       sbit (Vector.mem (data (mkBuilder (Vector.mk [1; 0] 2) 40))) k) /\
    64 * Vector.capacity (data b') >= bit_count b'.
Proof.
  apply (appendFixed_post (mkBuilder (Vector.mk [1; 0] 2) 40) (2 ^ 40 + 5) 41).
  - apply reach_inv.
    apply (reach_fixed (Builder_new 1) 1 40); [apply reach_new; lia| |].
    + vm_compute. reflexivity.
    + vm_compute. reflexivity.
  - lia.
  - vm_compute. reflexivity.
Defined.

(** C6 fails at the largest 32-bit quotient: [u + 1] is computed in the
    32-bit type of [u] and wraps to 0, so for [u = 2^32 - 1] the buffer is
    sized for no new bits at all while the code is [2^32] bits long; the
    terminator is then written outside the 16-word buffer. *)
Theorem appendUnaryAll_wraps :
  unary_len [4294967295] = 2 ^ 32 /\
  bit_inc_of [4294967295] = 0 /\
  Vector.capacity
    (Vector.resize (words_for (wrap64 (0 + bit_inc_of [4294967295])))
                   (data Builder_default)) = 16 /\
  appendUnaryAll [4294967295] Builder_default = None.
Proof. repeat split; vm_compute; reflexivity. Qed.

(** C7 fails: [getBits] multiplies the word count by [sizeof(uint64_t)],
    which is 8, so it returns the size in bytes.  For the one-word vector
    of the scenario it returns 8, not 64. *)
Theorem getBits_counts_bytes :
  (forall r, getBits r = wrap64 (Vector.size (rdata r) * 8)) /\
  (b <- scenario_builder ;;
   Some (getBits (build b), Vector.size (rdata (build b)),
         Vector.capacity (rdata (build b)))) = Some (8, 1, 1).
Proof. split; [reflexivity|vm_compute; reflexivity]. Qed.

(** C8: cursor invariant.  After [readReset] on a buffer of 64-bit words,
    every run of [readNext] and [skipSubtree] calls that stays in bounds
    (each call returns) leaves [0 <= validUnaryBits <= 64]; and when no
    valid bit remains, the next call that decodes or skips loads a new
    word first: the word pointer has advanced when it returns. *)
Theorem cursor_invariant rbv bp uo r0 ops r :
  words_ok (Vector.mem (rdata rbv)) ->
  readReset bp uo rbv = Some r0 ->
  Forall op_typed ops ->
  run_ops ops r0 = Some r ->
  0 <= valid_lower_bits_unary r <= 64 /\
  forall op r',
    op_typed op -> valid_lower_bits_unary r = 0 ->
    step_op op r = Some r' ->
    curr_ptr_unary r < curr_ptr_unary r'.
Proof.
  intros Hw E0 Ht E.
  destruct (readReset_inv _ _ _ _ E0 Hw) as [Hi0 Hd0].
  destruct (run_ops_inv ops r0 r E Ht ltac:(rewrite Hd0; exact Hw) Hi0)
    as [Hi Hd].
  split; [apply Hi|].
  intros op r' Hop Hz Es.
  assert (Hwr : words_ok (Vector.mem (rdata r))) by (rewrite Hd, Hd0; exact Hw).
  destruct (step_op_inv op r r' Es Hop Hwr Hi) as (_ & _ & Hload).
  apply Hload. destruct Hi as [_ Hwin]. rewrite Hz in Hwin.
  change (2 ^ 0) with 1 in Hwin. lia.
Qed.

Lemma cursor_invariant_witness :
  0 <= valid_lower_bits_unary
         (mkRBV (Vector.mk [9223372036854775808; 3] 2) 0 0 1 0) <= 64 /\
  forall op r',
    op_typed op ->
    valid_lower_bits_unary
      (mkRBV (Vector.mk [9223372036854775808; 3] 2) 0 0 1 0) = 0 ->
    step_op op (mkRBV (Vector.mk [9223372036854775808; 3] 2) 0 0 1 0) = Some r' ->
    curr_ptr_unary (mkRBV (Vector.mk [9223372036854775808; 3] 2) 0 0 1 0)
    < curr_ptr_unary r'.
Proof.
  apply (cursor_invariant
           (mkRBV (Vector.mk [9223372036854775808; 3] 2) 0 0 (-1) 0)
           0 63
           (mkRBV (Vector.mk [9223372036854775808; 3] 2) 0 1 1 1)
           [OpReadNext 0]).
  - repeat constructor; lia.
  - vm_compute. reflexivity.
  - repeat constructor.
  - vm_compute. reflexivity.
Defined.

(** C10: zero tail.  After construction and after every [appendFixed]
    and [appendUnaryAll] call, every bit of the backing buffer at stream
    position [bit_count] or above is zero.  [appendUnaryAll] relies on
    it: whatever the buffer holds, it only sets the terminator bits and
    leaves every other bit as it was, the zero bits of the codes
    included. *)
Theorem zero_tail_invariant :
  (forall b, reach b ->
     forall k, bit_count b <= k -> sbit (Vector.mem (data b)) k = false) /\
  (forall us b b',
     appendUnaryAll us b = Some b' ->
     words_ok (Vector.mem (data b)) -> 0 <= bit_count b ->
     Forall (fun u => 0 <= u < 2 ^ 32) us ->
     bit_count b + unary_len us < 2 ^ 64 ->
     forall k, 0 <= k ->
       sbit (Vector.mem (data b')) k =
       sbit (Vector.mem (data b)) k || is_term us (bit_count b) k).
Proof.
  split.
  - intros b Hr. apply inv_tail, reach_inv, Hr.
  - intros us b b'. apply appendUnaryAll_only_sets.
Qed.

Lemma zero_tail_invariant_witness :
  (forall k, bit_count (mkBuilder (Vector.mk [151] 1) 8) <= k ->
     sbit (Vector.mem (data (mkBuilder (Vector.mk [151] 1) 8))) k = false) /\
  (forall k, 0 <= k ->
     sbit (Vector.mem (data (mkBuilder (Vector.mk [151] 1) 8))) k =
     sbit (Vector.mem (data (mkBuilder (Vector.mk [7] 1) 4))) k ||
     is_term [0; 2] (bit_count (mkBuilder (Vector.mk [7] 1) 4)) k).
Proof.
  split.
  - apply (proj1 zero_tail_invariant).
    apply (reach_unary (mkBuilder (Vector.mk [7] 1) 4) [0; 2]).
    + apply (reach_fixed (mkBuilder (Vector.mk [3] 1) 2) 1 2).
      * apply (reach_fixed (Builder_new 1) 3 2); [apply reach_new; lia| |];
          vm_compute; reflexivity.
      * vm_compute. reflexivity.
      * vm_compute. reflexivity.
    + repeat constructor; lia.
    + vm_compute. reflexivity.
    + vm_compute. reflexivity.
  - apply (proj2 zero_tail_invariant [0; 2] (mkBuilder (Vector.mk [7] 1) 4)).
    + vm_compute. reflexivity.
    + repeat constructor; lia.
    + vm_compute. discriminate.
    + repeat constructor; lia.
    + vm_compute. reflexivity.
Defined.

(** * The Fenwick-tree contract *)

Module FenwickContract.

Import Fenwick.

Lemma prefix_0 t : prefix t 0 = 0.
Proof. reflexivity. Qed.

Lemma sum_cons x l : sum (x :: l) = x + sum l.
Proof. reflexivity. Qed.

Lemma prefix_succ t : forall n,
  (n < length t)%nat ->
  prefix t (Z.of_nat (S n)) = prefix t (Z.of_nat n) + nth n t 0.
Proof.
  unfold prefix. intros n. rewrite !Nat2Z.id. revert n.
  induction t as [|x t IH]; intros n Hn; [simpl in Hn; lia|].
  destruct n as [|n].
  - cbn [firstn nth]. rewrite sum_cons. unfold sum. simpl. lia.
  - change (firstn (S (S n)) (x :: t)) with (x :: firstn (S n) t).
    change (firstn (S n) (x :: t)) with (x :: firstn n t).
    cbn [nth]. rewrite !sum_cons.
    rewrite (IH n) by (simpl in Hn; lia). lia.
Qed.

Lemma prefix_mono t :
  Forall (fun x => 0 <= x) t ->
  forall a b : nat, (a <= b <= length t)%nat ->
    prefix t (Z.of_nat a) <= prefix t (Z.of_nat b).
Proof.
  intros Ht a b [Hab Hb]. induction Hab as [|b Hab IH]; [lia|].
  rewrite prefix_succ by lia.
  assert (0 <= nth b t 0).
  { rewrite Forall_forall in Ht. apply Ht, nth_In. lia. }
  specialize (IH ltac:(lia)). lia.
Qed.

Lemma find_down_spec t bound : forall n,
  0 <= bound ->
  let len := fst (find_down t n bound) in
  let excess := snd (find_down t n bound) in
  0 <= len <= Z.of_nat n /\
  prefix t len <= bound /\
  excess = bound - prefix t len /\
  forall m : nat, len < Z.of_nat m <= Z.of_nat n -> bound < prefix t (Z.of_nat m).
Proof.
  induction n as [|n IH]; intros Hb.
  - cbn [find_down fst snd]. rewrite prefix_0.
    repeat split; intros; lia.
  - cbn zeta. cbn [find_down].
    destruct (Z.leb_spec (prefix t (Z.of_nat (S n))) bound) as [Hle|Hgt].
    + cbn [fst snd]. repeat split; intros; lia.
    + destruct (IH Hb) as (H1 & H2 & H3 & H4).
      split; [lia|]. split; [assumption|]. split; [assumption|].
      intros m Hm.
      destruct (Nat.eq_dec m (S n)) as [->|Hne]; [assumption|].
      apply H4. lia.
Qed.

(** C9: the [find] contract.  For a sequence of nonnegative elements and
    a bound [b] (unsigned, so [0 <= b]), [find(b)] returns the greatest
    length with [prefix(length) <= b]; that length is the only one with
    [prefix(length) <= b < prefix(length + 1)] (or equal to [size()] with
    [prefix(size()) <= b]); the bound is replaced by the excess
    [b - prefix(length)]; and when no nonempty prefix is within the bound
    the length is 0 and the excess is the whole bound. *)
Theorem find_contract t b :
  Forall (fun x => 0 <= x) t -> 0 <= b ->
  let len := fst (find t b) in
  let excess := snd (find t b) in
  0 <= len <= size t /\
  prefix t len <= b /\
  (forall len', 0 <= len' <= size t -> prefix t len' <= b -> len' <= len) /\
  (len = size t \/ b < prefix t (len + 1)) /\
  (forall len', 0 <= len' <= size t -> prefix t len' <= b ->
     (len' = size t \/ b < prefix t (len' + 1)) -> len' = len) /\
  excess = b - prefix t len /\
  find_value t b = len /\
  ((forall len', 1 <= len' <= size t -> b < prefix t len') ->
   len = 0 /\ excess = b).
Proof.
  intros Ht Hb. cbn zeta. unfold find_value, find, size.
  destruct (find_down_spec t b (length t) Hb) as (H1 & H2 & H3 & H4).
  set (len := fst (find_down t (length t) b)) in *.
  set (excess := snd (find_down t (length t) b)) in *.
  assert (Hgreatest : forall len', 0 <= len' <= Z.of_nat (length t) ->
            prefix t len' <= b -> len' <= len).
  { intros len' Hl Hp.
    destruct (Z.le_gt_cases len' len) as [|Hgt]; [assumption|exfalso].
    specialize (H4 (Z.to_nat len')). rewrite Z2Nat.id in H4 by lia.
    specialize (H4 ltac:(lia)). lia. }
  assert (Hnext : len = Z.of_nat (length t) \/ b < prefix t (len + 1)).
  { destruct (Z.eq_dec len (Z.of_nat (length t))) as [|Hne]; [left; assumption|].
    right. specialize (H4 (Z.to_nat (len + 1))).
    rewrite Z2Nat.id in H4 by lia. apply H4. lia. }
  split; [assumption|]. split; [assumption|]. split; [assumption|].
  split; [assumption|]. split; [|split; [assumption|split; [reflexivity|]]].
  - intros len' Hl Hp Hn.
    pose proof (Hgreatest len' Hl Hp) as Hle.
    destruct (Z.eq_dec len' len) as [|Hne]; [assumption|exfalso].
    destruct Hn as [Hn|Hn]; [lia|].
    pose proof (prefix_mono t Ht (Z.to_nat (len' + 1)) (Z.to_nat len)
                  ltac:(lia)) as Hm.
    rewrite !Z2Nat.id in Hm by lia. lia.
  - intros Hnone.
    assert (len = 0).
    { destruct (Z.eq_dec len 0) as [|Hne]; [assumption|exfalso].
      specialize (Hnone len ltac:(lia)). lia. }
    split; [assumption|]. rewrite H3, H. rewrite prefix_0. lia.
Qed.

Lemma find_contract_witness :
  let len := fst (find [3; 0; 5; 2] 4) in
  let excess := snd (find [3; 0; 5; 2] 4) in
  0 <= len <= size [3; 0; 5; 2] /\
  prefix [3; 0; 5; 2] len <= 4 /\
  (forall len', 0 <= len' <= size [3; 0; 5; 2] ->
     prefix [3; 0; 5; 2] len' <= 4 -> len' <= len) /\
  (len = size [3; 0; 5; 2] \/ 4 < prefix [3; 0; 5; 2] (len + 1)) /\
  (forall len', 0 <= len' <= size [3; 0; 5; 2] ->
     prefix [3; 0; 5; 2] len' <= 4 ->
     (len' = size [3; 0; 5; 2] \/ 4 < prefix [3; 0; 5; 2] (len' + 1)) ->
     len' = len) /\
  excess = 4 - prefix [3; 0; 5; 2] len /\
  find_value [3; 0; 5; 2] 4 = len /\
  ((forall len', 1 <= len' <= size [3; 0; 5; 2] ->
      4 < prefix [3; 0; 5; 2] len') ->
   len = 0 /\ excess = 4).
Proof.
  apply (find_contract [3; 0; 5; 2] 4).
  - repeat constructor; lia.
  - lia.
Defined.

Example find_example : find [3; 0; 5; 2] 4 = (2, 1).
Proof. reflexivity. Qed.

Example find_none_example : find [3; 0; 5; 2] 2 = (0, 2).
Proof. reflexivity. Qed.

End FenwickContract.

(** * Further properties of the builder and the reader *)

Section BufferFacts.

Lemma resize_capacity_eq n v :
  Vector.capacity (Vector.resize n v) = Z.max n (Vector.capacity v).
Proof.
  unfold Vector.resize, Vector.capacity.
  destruct (Z.ltb_spec (Z.of_nat (length (Vector.mem v))) n); cbn [Vector.mem].
  - rewrite length_app, repeat_length. lia.
  - lia.
Qed.

Lemma words_for_mono a b :
  0 <= a <= b -> b + 7 < 2 ^ 64 -> words_for a <= words_for b.
Proof.
  intros Hab Hb. rewrite !words_for_eq by lia.
  apply Z.div_le_mono; [lia|].
  assert ((a + 7) / 8 <= (b + 7) / 8) by (apply Z.div_le_mono; lia). lia.
Qed.

(** Two buffers of 64-bit words with the same length and the same stream
    are the same buffer. *)
Lemma list_eq_of_bits (a b : list Z) :
  words_ok a -> words_ok b -> length a = length b ->
  (forall k, 0 <= k -> sbit a k = sbit b k) -> a = b.
Proof.
  intros Ha Hb Hlen Hbits.
  apply (nth_ext a b 0 0 Hlen). intros n Hn.
  pose proof (words_ok_nth a n Ha) as Ra.
  pose proof (words_ok_nth b n Hb) as Rb.
  apply Z.bits_inj'. intros j Hj.
  destruct (Z.lt_ge_cases j 64).
  - specialize (Hbits (64 * Z.of_nat n + j) ltac:(lia)).
    rewrite <- !sbit_word in Hbits by lia.
    rewrite Nat2Z.id in Hbits. exact Hbits.
  - rewrite (bits_above _ 64 j Ra), (bits_above _ 64 j Rb) by lia. reflexivity.
Qed.

Lemma is_term_app us : forall vs p k,
  is_term (us ++ vs) p k =
  is_term us p k || is_term vs (p + unary_len us) k.
Proof.
  induction us as [|u us IH]; intros vs p k.
  - cbn [app is_term orb]. unfold unary_len, sum. cbn [map fold_right].
    now rewrite Z.add_0_r.
  - cbn [app is_term]. rewrite IH, unary_len_cons, orb_assoc.
    do 2 f_equal. lia.
Qed.

Lemma write_unary_length us : forall m bc m' bc',
  write_unary us m bc = Some (m', bc') -> length m' = length m.
Proof.
  induction us as [|u us IH]; intros m bc m' bc' H; cbn [write_unary] in H.
  - apply Some_inj in H. congruence.
  - destruct (set_bit m (wrap64 (bc + u))) as [m1|] eqn:E; [|discriminate].
    cbv beta iota delta [bind] in H. apply IH in H. rewrite H.
    unfold set_bit in E.
    destruct (load m _); [|discriminate]. cbv beta iota delta [bind] in E.
    apply store_Some in E. destruct E as [_ ->]. apply set_nth_length.
Qed.

Lemma appendUnaryAll_capacity us b b' :
  appendUnaryAll us b = Some b' ->
  Vector.capacity (data b') =
  Z.max (words_for (wrap64 (bit_count b + bit_inc_of us)))
        (Vector.capacity (data b)).
Proof.
  unfold appendUnaryAll. intros H.
  destruct (write_unary us _ (bit_count b)) as [[m bc]|] eqn:E; [|discriminate].
  cbv beta iota delta [bind] in H. apply Some_inj in H. subst b'.
  apply write_unary_length in E.
  rewrite <- resize_capacity_eq. unfold Vector.capacity.
  cbn [data Vector.mem]. now rewrite E.
Qed.

Lemma bit_inc_valid us :
  Forall (fun u => 0 <= u < 2 ^ 32 - 1) us -> unary_len us < 2 ^ 64 ->
  bit_inc_of us = unary_len us.
Proof.
  intros Hus Hov. unfold bit_inc_of. rewrite bit_inc_fold; try assumption; lia.
Qed.

End BufferFacts.

(** X1: [appendUnaryAll] within its range.  From a builder state
    satisfying the builder invariant, for quotients below [2^32 - 1] (so
    that [u + 1] does not wrap) and a bit count that stays within
    [size_t], [appendUnaryAll] succeeds, the bit count grows by the sum
    of [u + 1], the buffer is resized to the words covering the new bit
    count, the codes ([u] zero bits, then a one bit) lie back to back
    from the old bit count, and the bits below it are unchanged. *)
Theorem appendUnaryAll_post us b :
  builder_inv b -> Forall (fun u => 0 <= u < 2 ^ 32 - 1) us ->
  bit_count b + unary_len us + 7 < 2 ^ 64 ->
  exists b',
    appendUnaryAll us b = Some b' /\
    bit_count b' = bit_count b + unary_len us /\
    Vector.size (data b') = words_for (bit_count b + unary_len us) /\
    unary_at (Vector.mem (data b')) (bit_count b) us /\
    (forall k, 0 <= k < bit_count b ->
       sbit (Vector.mem (data b')) k = sbit (Vector.mem (data b)) k).
Proof.
  intros Hinv Hus Hov.
  destruct (appendUnaryAll_spec us b Hinv Hus Hov) as (b' & E & Hc & Hs & _ & Hb).
  pose proof (inv_count b Hinv) as Hc0.
  exists b'. split; [assumption|]. split; [assumption|]. split; [assumption|].
  split.
  - apply unary_at_of_terms; [apply u32m_nonneg, Hus|].
    intros k Hk. rewrite Hb by lia. now rewrite (inv_tail b Hinv) by lia.
  - intros k Hk. rewrite Hb by lia.
    destruct (is_term us (bit_count b) k) eqn:Et; [|apply orb_false_r].
    apply is_term_ge in Et; [lia|apply u32m_nonneg, Hus].
Qed.

Lemma appendUnaryAll_post_witness :
  exists b',
    appendUnaryAll [0; 2; 70] (mkBuilder (Vector.mk [7] 1) 4) = Some b' /\
    bit_count b' = bit_count (mkBuilder (Vector.mk [7] 1) 4)
                   + unary_len [0; 2; 70] /\
    Vector.size (data b') =
      words_for (bit_count (mkBuilder (Vector.mk [7] 1) 4)
                 + unary_len [0; 2; 70]) /\
    unary_at (Vector.mem (data b'))
             (bit_count (mkBuilder (Vector.mk [7] 1) 4)) [0; 2; 70] /\
    (forall k, 0 <= k < bit_count (mkBuilder (Vector.mk [7] 1) 4) ->
       sbit (Vector.mem (data b')) k =
       sbit (Vector.mem (data (mkBuilder (Vector.mk [7] 1) 4))) k).
Proof.
  apply (appendUnaryAll_post [0; 2; 70] (mkBuilder (Vector.mk [7] 1) 4)).
  - apply reach_inv.
    apply (reach_fixed (mkBuilder (Vector.mk [3] 1) 2) 1 2).
    + apply (reach_fixed (Builder_new 1) 3 2); [apply reach_new; lia| |];
        vm_compute; reflexivity.
    + vm_compute. reflexivity.
    + vm_compute. reflexivity.
  - repeat constructor; lia.
  - vm_compute. reflexivity.
Defined.

(** X2: batching.  One [appendUnaryAll] call with the quotients
    [us ++ vs] leaves the builder in exactly the state of a call with
    [us] followed by a call with [vs] (same buffer, size and bit
    count), for quotients below [2^32 - 1] and a bit count within
    [size_t]. *)
Theorem appendUnaryAll_app us vs b :
  builder_inv b -> Forall (fun u => 0 <= u < 2 ^ 32 - 1) (us ++ vs) ->
  bit_count b + unary_len (us ++ vs) + 7 < 2 ^ 64 ->
  exists b',
    appendUnaryAll (us ++ vs) b = Some b' /\
    (b1 <- appendUnaryAll us b ;; appendUnaryAll vs b1) = Some b'.
Proof.
  intros Hinv Hall Hov.
  pose proof Hall as Hall'. apply Forall_app in Hall'. destruct Hall' as [Hus Hvs].
  pose proof (unary_len_nonneg us (u32m_nonneg us Hus)) as Hn1.
  pose proof (unary_len_nonneg vs (u32m_nonneg vs Hvs)) as Hn2.
  pose proof (inv_count b Hinv) as Hc0.
  rewrite unary_len_app in Hov.
  destruct (appendUnaryAll_spec (us ++ vs) b Hinv Hall)
    as (b12 & E12 & Hc12 & Hs12 & Hi12 & Hb12);
    [rewrite unary_len_app; lia|].
  destruct (appendUnaryAll_spec us b Hinv Hus ltac:(lia))
    as (b1 & E1 & Hc1 & Hs1 & Hi1 & Hb1).
  destruct (appendUnaryAll_spec vs b1 Hi1 Hvs ltac:(lia))
    as (b2 & E2 & Hc2 & Hs2 & Hi2 & Hb2).
  exists b12. split; [assumption|].
  rewrite E1. cbv beta iota delta [bind]. rewrite E2. f_equal.
  pose proof (appendUnaryAll_capacity _ _ _ E12) as K12.
  pose proof (appendUnaryAll_capacity _ _ _ E1) as K1.
  pose proof (appendUnaryAll_capacity _ _ _ E2) as K2.
  rewrite bit_inc_valid in K12, K1, K2
    by (try assumption; rewrite ?unary_len_app; lia).
  rewrite unary_len_app in K12, Hc12, Hs12.
  rewrite wrap64_small in K12, K1, K2 by lia.
  pose proof (words_for_mono (bit_count b + unary_len us)
                (bit_count b + (unary_len us + unary_len vs))
                ltac:(lia) ltac:(lia)) as Hmono.
  rewrite Hc1 in K2, Hc2, Hs2, Hb2.
  replace (bit_count b + unary_len us + unary_len vs)
    with (bit_count b + (unary_len us + unary_len vs)) in K2, Hc2, Hs2 by lia.
  destruct b2 as [[m2 s2] c2]. destruct b12 as [[m12 s12] c12].
  cbn [bit_count data Vector.mem Vector.size] in *.
  assert (m2 = m12).
  { apply list_eq_of_bits.
    - apply (inv_words _ Hi2).
    - apply (inv_words _ Hi12).
    - unfold Vector.capacity in K2, K12, K1. cbn [Vector.mem] in K2, K12. lia.
    - intros k Hk. rewrite Hb2, Hb1, Hb12 by lia.
      rewrite is_term_app. now rewrite orb_assoc. }
  congruence.
Qed.

Lemma appendUnaryAll_app_witness :
  exists b',
    appendUnaryAll ([0; 2] ++ [70; 1]) (Builder_new 1) = Some b' /\
    (b1 <- appendUnaryAll [0; 2] (Builder_new 1) ;;
     appendUnaryAll [70; 1] b1) = Some b'.
Proof.
  apply (appendUnaryAll_app [0; 2] [70; 1] (Builder_new 1)).
  - apply Builder_new_inv. lia.
  - repeat constructor; lia.
  - vm_compute. reflexivity.
Defined.

Section SealedLayout.

Lemma encode_from_default items : encode items = encode_from 16 items.
Proof.
  unfold encode, encode_from, fill, Builder_default.
  destruct (appendFixedAll items (Builder_new 16)) as [b1|]; [|reflexivity].
  cbv beta iota delta [bind]. reflexivity.
Qed.

Lemma fill_spec n items :
  0 <= n -> Forall item_valid items -> stream_len items + 7 < 2 ^ 64 ->
  exists b,
    fill n items = Some b /\
    bit_count b = stream_len items /\
    Vector.size (data b) = words_for (stream_len items) /\
    builder_inv b /\
    fixed_at (Vector.mem (data b)) 0 items /\
    (forall k, fixed_len items <= k ->
       sbit (Vector.mem (data b)) k =
       is_term (quotients items) (fixed_len items) k).
Proof.
  intros Hn Hv Hov. unfold stream_len in *.
  pose proof (fixed_len_nonneg items Hv) as HF.
  pose proof (unary_len_quotients_nonneg items Hv) as HU.
  pose proof (quotients_valid items Hv) as Hq.
  unfold fill.
  destruct (appendFixedAll_spec items (Builder_new n) (Builder_new_inv n Hn) Hv)
    as (b1 & E1 & Hc1 & Hinv1 & _ & Hf1).
  { cbn [Builder_new bit_count]. lia. }
  cbn [Builder_new bit_count] in Hc1, Hf1. rewrite Z.add_0_l in Hc1.
  destruct (appendUnaryAll_spec (quotients items) b1 Hinv1 Hq)
    as (b2 & E2 & Hc2 & Hs2 & Hinv2 & Hb2); [lia|].
  rewrite E1. cbv beta iota delta [bind].
  rewrite Hc1 in Hc2, Hs2, Hb2.
  exists b2. split; [assumption|]. split; [assumption|].
  split; [assumption|]. split; [assumption|]. split.
  - apply (fixed_at_ext (Vector.mem (data b1))); try assumption; [lia|].
    intros k Hk. rewrite Hb2 by lia.
    destruct (is_term (quotients items) (fixed_len items) k) eqn:E;
      [|apply orb_false_r].
    apply is_term_ge in E; [lia|]. apply u32m_nonneg, Hq.
  - intros k Hk. rewrite Hb2 by lia.
    now rewrite (inv_tail b1 Hinv1) by lia.
Qed.

(** What [build] keeps of the builder's buffer. *)
Lemma build_bits b :
  builder_inv b -> 0 <= Vector.size (data b) ->
  bit_count b <= 64 * Vector.size (data b) ->
  words_ok (Vector.mem (rdata (build b))) /\
  Z.of_nat (length (Vector.mem (rdata (build b)))) = Vector.size (data b) /\
  forall k, 0 <= k ->
    sbit (Vector.mem (rdata (build b))) k = sbit (Vector.mem (data b)) k.
Proof.
  intros [Hw Hc Hs Ht] Hs0 Hcov. unfold Vector.capacity in Hs.
  cbn [build rdata Vector.trimToFit Vector.mem].
  assert (Hlen : Z.of_nat (length (firstn (Z.to_nat (Vector.size (data b)))
                                          (Vector.mem (data b)))) =
                 Vector.size (data b))
    by (rewrite length_firstn; lia).
  split; [apply words_ok_firstn, Hw|]. split; [exact Hlen|].
  intros k Hk. destruct (Z.lt_ge_cases k (64 * Vector.size (data b))).
  - apply sbit_firstn. lia.
  - rewrite sbit_overflow by lia. symmetry. apply Ht. lia.
Qed.

Lemma encode_from_layout n items :
  0 <= n -> Forall item_valid items -> stream_len items + 7 < 2 ^ 64 ->
  exists b,
    fill n items = Some b /\ encode_from n items = Some (build b) /\
    bit_count b = stream_len items /\
    Vector.size (rdata (build b)) = words_for (stream_len items) /\
    words_ok (Vector.mem (rdata (build b))) /\
    Z.of_nat (length (Vector.mem (rdata (build b)))) =
      words_for (stream_len items) /\
    fixed_at (Vector.mem (rdata (build b))) 0 items /\
    (forall k, fixed_len items <= k ->
       sbit (Vector.mem (rdata (build b))) k =
       is_term (quotients items) (fixed_len items) k).
Proof.
  intros Hn Hv Hov.
  destruct (fill_spec n items Hn Hv Hov) as (b & E & Hc & Hs & Hinv & Hf & Hu).
  pose proof (fixed_len_nonneg items Hv) as HF.
  pose proof (unary_len_quotients_nonneg items Hv) as HU.
  assert (Hsl : 0 <= stream_len items) by (unfold stream_len; lia).
  pose proof (words_for_covers (stream_len items) Hsl Hov) as Hcov.
  destruct (build_bits b Hinv) as (Hw & Hlen & Hb); [lia|lia|].
  exists b. unfold encode_from. rewrite E. cbv beta iota delta [bind].
  split; [reflexivity|]. split; [reflexivity|]. split; [assumption|].
  split; [exact Hs|]. split; [assumption|]. split; [congruence|]. split.
  - apply (fixed_at_ext (Vector.mem (data b))); try assumption; [lia|].
    intros k Hk. apply Hb. lia.
  - intros k Hk. rewrite Hb by lia. now apply Hu.
Qed.

Lemma fixed_at_agree d d' items : forall off,
  Forall item_valid items ->
  fixed_at d off items -> fixed_at d' off items ->
  forall k, off <= k < off + fixed_len items -> sbit d k = sbit d' k.
Proof.
  induction items as [|[v l] items IH]; intros off Hv H1 H2 k Hk.
  - unfold fixed_len, sum in Hk. cbn [map fold_right] in Hk. lia.
  - inversion Hv as [|? ? (_ & Hl & _) Hv']; subst. cbn [snd] in Hl.
    rewrite fixed_len_cons in Hk.
    destruct H1 as [Hb1 H1]. destruct H2 as [Hb2 H2].
    destruct (Z.lt_ge_cases k (off + l)).
    + replace k with (off + (k - off)) by lia.
      rewrite Hb1, Hb2 by lia. reflexivity.
    + apply (IH (off + l)); try assumption. lia.
Qed.

Lemma stream_tail items :
  Forall item_valid items -> stream_len items + 7 < 2 ^ 64 ->
  exists rbv, encode items = Some rbv /\
    forall k, stream_len items <= k -> sbit (Vector.mem (rdata rbv)) k = false.
Proof.
  intros Hv Hov.
  destruct (encode_from_layout 16 items ltac:(lia) Hv Hov)
    as (b & _ & Ee & _ & _ & _ & _ & _ & Hu).
  pose proof (fixed_len_nonneg items Hv) as HF.
  pose proof (unary_len_quotients_nonneg items Hv) as HU.
  pose proof (u32m_nonneg _ (quotients_valid items Hv)) as Hq.
  exists (build b). rewrite encode_from_default. split; [assumption|].
  intros k Hk. unfold stream_len in Hk. rewrite Hu by lia.
  destruct (is_term (quotients items) (fixed_len items) k) eqn:Et;
    [|reflexivity].
  apply is_term_lt in Et; [lia|assumption].
Qed.

End SealedLayout.

(** X3: layout of the sealed stream.  For items [(v, l)] within the
    builder's ranges, the builder ends with a bit count equal to the sum
    of the [l] plus the sum of the [(v >> l) + 1], and the sealed buffer
    has the words covering that count; the remainders lie back to back
    from bit 0, the unary codes back to back from the end of the
    remainders, and every bit after the last code is zero. *)
Theorem stream_layout items :
  Forall item_valid items -> stream_len items + 7 < 2 ^ 64 ->
  exists b,
    fill 16 items = Some b /\ encode items = Some (build b) /\
    Builder_getBits b = stream_len items /\
    Z.of_nat (length (Vector.mem (rdata (build b)))) =
      ((stream_len items + 7) / 8 + 14) / 8 /\
    fixed_at (Vector.mem (rdata (build b))) 0 items /\
    unary_at (Vector.mem (rdata (build b))) (fixed_len items)
             (quotients items) /\
    (forall k, stream_len items <= k ->
       sbit (Vector.mem (rdata (build b))) k = false).
Proof.
  intros Hv Hov.
  destruct (encode_from_layout 16 items ltac:(lia) Hv Hov)
    as (b & E & Ee & Hc & _ & Hw & Hlen & Hf & Hu).
  pose proof (fixed_len_nonneg items Hv) as HF.
  pose proof (unary_len_quotients_nonneg items Hv) as HU.
  pose proof (u32m_nonneg _ (quotients_valid items Hv)) as Hq.
  exists b. split; [assumption|]. rewrite encode_from_default.
  split; [assumption|]. split; [exact Hc|]. split.
  - rewrite Hlen. apply words_for_eq; [unfold stream_len; lia|exact Hov].
  - split; [assumption|]. split.
    + apply unary_at_of_terms; assumption.
    + intros k Hk. unfold stream_len in Hk. rewrite Hu by lia.
      destruct (is_term (quotients items) (fixed_len items) k) eqn:Et;
        [|reflexivity].
      apply is_term_lt in Et; [lia|assumption].
Qed.

Lemma stream_layout_witness :
  exists b,
    fill 16 [(3, 2); (9, 2); (1000, 60); (77, 3)] = Some b /\
    encode [(3, 2); (9, 2); (1000, 60); (77, 3)] = Some (build b) /\
    Builder_getBits b = stream_len [(3, 2); (9, 2); (1000, 60); (77, 3)] /\
    Z.of_nat (length (Vector.mem (rdata (build b)))) =
      ((stream_len [(3, 2); (9, 2); (1000, 60); (77, 3)] + 7) / 8 + 14) / 8 /\
    fixed_at (Vector.mem (rdata (build b))) 0
             [(3, 2); (9, 2); (1000, 60); (77, 3)] /\
    unary_at (Vector.mem (rdata (build b)))
             (fixed_len [(3, 2); (9, 2); (1000, 60); (77, 3)])
             (quotients [(3, 2); (9, 2); (1000, 60); (77, 3)]) /\
    (forall k, stream_len [(3, 2); (9, 2); (1000, 60); (77, 3)] <= k ->
       sbit (Vector.mem (rdata (build b))) k = false).
Proof.
  apply (stream_layout [(3, 2); (9, 2); (1000, 60); (77, 3)]).
  - repeat constructor; cbn [fst snd]; try lia; vm_compute; reflexivity.
  - vm_compute. reflexivity.
Defined.

(** X4: the initial allocation does not matter.  A builder constructed
    with any number [alloc_words >= 0] of words seals the same vector
    (buffer contents and length) as the default builder, for items
    within the builder's ranges. *)
Theorem encode_alloc_independent n items :
  0 <= n -> Forall item_valid items -> stream_len items + 7 < 2 ^ 64 ->
  exists rbv, encode_from n items = Some rbv /\ encode items = Some rbv.
Proof.
  intros Hn Hv Hov.
  destruct (encode_from_layout n items Hn Hv Hov)
    as (b & _ & Ee & _ & Hs & Hw & Hlen & Hf & Hu).
  destruct (encode_from_layout 16 items ltac:(lia) Hv Hov)
    as (b' & _ & Ee' & _ & Hs' & Hw' & Hlen' & Hf' & Hu').
  exists (build b). split; [assumption|].
  rewrite encode_from_default, Ee'. f_equal.
  pose proof (fixed_len_nonneg items Hv) as HF.
  assert (Hm : Vector.mem (rdata (build b')) = Vector.mem (rdata (build b))).
  { apply list_eq_of_bits; try assumption; [lia|].
    intros k Hk. destruct (Z.lt_ge_cases k (fixed_len items)).
    - apply (fixed_at_agree _ _ items 0); try assumption. lia.
    - rewrite Hu, Hu' by lia. reflexivity. }
  unfold build in *. cbn [rdata] in *.
  destruct (Vector.trimToFit (data b)) as [m s].
  destruct (Vector.trimToFit (data b')) as [m' s'].
  cbn [Vector.mem Vector.size] in *. congruence.
Qed.

Lemma encode_alloc_independent_witness :
  exists rbv,
    encode_from 0 [(3, 2); (9, 2); (1000, 60); (77, 3)] = Some rbv /\
    encode [(3, 2); (9, 2); (1000, 60); (77, 3)] = Some rbv.
Proof.
  apply (encode_alloc_independent 0 [(3, 2); (9, 2); (1000, 60); (77, 3)]).
  - lia.
  - repeat constructor; cbn [fst snd]; try lia; vm_compute; reflexivity.
  - vm_compute. reflexivity.
Defined.

Section ReaderFacts.

Lemma skipSubtree_rdata n f r r' :
  skipSubtree n f r = Some r' -> rdata r' = rdata r.
Proof.
  rewrite skipSubtree_unfold. intros H.
  destruct (negb _); [discriminate|].
  destruct (skip_unary _ _ _ _ _) as [[[w p] v]|]; [|discriminate].
  cbv beta iota delta [bind] in H. apply Some_inj in H. subst r'. reflexivity.
Qed.

Lemma run_ops_rdata ops : forall r r',
  run_ops ops r = Some r' -> rdata r' = rdata r.
Proof.
  induction ops as [|op ops IH]; intros r r' H; cbn [run_ops] in H.
  - apply Some_inj in H. congruence.
  - destruct (step_op op r) as [r1|] eqn:E; [|discriminate].
    cbv beta iota delta [bind] in H. apply IH in H. rewrite H.
    destruct op as [l|n f]; cbn [step_op] in E.
    + destruct (readNext l r) as [[x r2]|] eqn:E2; [|discriminate].
      cbv beta iota delta [bind] in E. apply Some_inj in E. subst r2.
      eapply readNext_rdata; eassumption.
    + eapply skipSubtree_rdata; eassumption.
Qed.

(** [readReset] looks at the buffer only, not at the cursor it replaces. *)
Lemma readReset_rdata_eq bp uo r r' :
  rdata r = rdata r' -> readReset bp uo r = readReset bp uo r'.
Proof. unfold readReset. intros ->. reflexivity. Qed.

Lemma readAll_app ls1 : forall ls2 r,
  readAll (ls1 ++ ls2) r =
  ('(vs1, r1) <- readAll ls1 r ;;
   '(vs2, r2) <- readAll ls2 r1 ;;
   Some (vs1 ++ vs2, r2)).
Proof.
  induction ls1 as [|l ls1 IH]; intros ls2 r.
  - cbn [app readAll]. cbv beta iota delta [bind].
    destruct (readAll ls2 r) as [[vs2 r2]|]; reflexivity.
  - cbn [app readAll].
    destruct (readNext l r) as [[x ra]|]; [|reflexivity].
    cbv beta iota delta [bind]. rewrite IH.
    destruct (readAll ls1 ra) as [[vs1 r1]|]; [|reflexivity].
    cbv beta iota delta [bind].
    destruct (readAll ls2 r1) as [[vs2 r2]|]; reflexivity.
Qed.

Lemma readAll_length ls : forall r vs r',
  readAll ls r = Some (vs, r') -> length vs = length ls.
Proof.
  induction ls as [|l ls IH]; intros r vs r' H; cbn [readAll] in H.
  - apply Some_inj in H. inversion H. reflexivity.
  - destruct (readNext l r) as [[x ra]|]; [|discriminate].
    cbv beta iota delta [bind] in H.
    destruct (readAll ls ra) as [[vs1 r1]|] eqn:E; [|discriminate].
    cbv beta iota delta [bind] in H. apply Some_inj in H.
    inversion H; subst. cbn [length]. f_equal. eapply IH; eassumption.
Qed.

Lemma readAll_inv ls : forall r vs r',
  readAll ls r = Some (vs, r') ->
  words_ok (Vector.mem (rdata r)) -> cursor_inv r ->
  cursor_inv r' /\ rdata r' = rdata r.
Proof.
  induction ls as [|l ls IH]; intros r vs r' H Hw Hi; cbn [readAll] in H.
  - apply Some_inj in H. inversion H; subst. tauto.
  - destruct (readNext l r) as [[x ra]|] eqn:Ea; [|discriminate].
    cbv beta iota delta [bind] in H.
    destruct (readAll ls ra) as [[vs1 r1]|] eqn:E; [|discriminate].
    cbv beta iota delta [bind] in H. apply Some_inj in H.
    assert (r1 = r') by congruence. subst r1.
    destruct (readNext_inv _ _ _ _ Ea Hw Hi) as (Hia & Hda & _).
    destruct (IH _ _ _ E ltac:(rewrite Hda; exact Hw) Hia) as [H1 H2].
    split; [assumption|congruence].
Qed.

Lemma fixed_at_app d a : forall off b,
  fixed_at d off (a ++ b) <->
  fixed_at d off a /\ fixed_at d (off + fixed_len a) b.
Proof.
  induction a as [|[v l] a IH]; intros off b.
  - cbn [app fixed_at]. unfold fixed_len, sum. cbn [map fold_right].
    rewrite Z.add_0_r. tauto.
  - cbn [app fixed_at]. rewrite IH, fixed_len_cons.
    replace (off + l + fixed_len a) with (off + (l + fixed_len a)) by lia.
    tauto.
Qed.

Lemma fits_app a : forall off b,
  fits off (a ++ b) <-> fits off a /\ fits (off + fixed_len a) b.
Proof.
  induction a as [|[v l] a IH]; intros off b.
  - cbn [app fits]. unfold fixed_len, sum. cbn [map fold_right].
    rewrite Z.add_0_r. tauto.
  - cbn [app fits]. rewrite IH, fixed_len_cons.
    replace (off + l + fixed_len a) with (off + (l + fixed_len a)) by lia.
    tauto.
Qed.

Lemma some_unary_bit items :
  Forall item_valid items -> items <> [] -> 1 <= unary_len (quotients items).
Proof.
  intros Hv Hne. destruct items as [|it items]; [congruence|].
  cbn [quotients map]. rewrite unary_len_cons.
  inversion Hv as [|? ? (Hv0 & Hl0 & _) Hv']; subst.
  pose proof (unary_len_quotients_nonneg items Hv') as Hq.
  unfold quotients in Hq.
  assert (0 <= Z.shiftr (fst it) (snd it)) by (apply Z.shiftr_nonneg; lia).
  lia.
Qed.

(** The buffer of an encoded stream holds eight bytes from every byte
    that starts inside the stream, and from the byte at the end of the
    remainders. *)
Lemma encoded_bytes items rbv :
  Forall item_valid items -> stream_len items + 7 < 2 ^ 64 ->
  encoded items rbv ->
  (forall off, 0 <= off < stream_len items ->
     off / 8 + 8 <= 8 * Z.of_nat (length (Vector.mem (rdata rbv)))) /\
  fixed_len items / 8 + 8 <= 8 * Z.of_nat (length (Vector.mem (rdata rbv))).
Proof.
  intros Hv Hov [_ _ Hlen _ _].
  pose proof (fixed_len_nonneg items Hv) as HF.
  pose proof (unary_len_quotients_nonneg items Hv) as HU.
  rewrite Hlen. unfold stream_len in *. rewrite words_for_eq by lia.
  split.
  - intros off Ho. Z.div_mod_to_equations. lia.
  - destruct items as [|it items'].
    + change (fixed_len []) with 0. change (unary_len (quotients [])) with 0.
      vm_compute. discriminate.
    + pose proof (some_unary_bit (it :: items') Hv ltac:(discriminate)).
      Z.div_mod_to_equations. lia.
Qed.

(** Encoding, and decoding every item from the start of the stream. *)
Lemma decode_start items :
  Forall item_valid items -> stream_len items + 7 < 2 ^ 64 ->
  exists rbv r0 r',
    encode items = Some rbv /\ encoded items rbv /\
    (forall k, stream_len items <= k ->
       sbit (Vector.mem (rdata rbv)) k = false) /\
    readReset 0 (fixed_len items) rbv = Some r0 /\
    rdata r0 = rdata rbv /\ cursor_inv r0 /\
    readAll (map snd items) r0 =
      Some (expected (Vector.mem (rdata rbv)) 0 (qls_of items), r') /\
    rdata r' = rdata rbv /\
    reader_at r' (fixed_len items) (stream_len items).
Proof.
  intros Hv Hov.
  destruct (encode_spec items Hv Hov) as (rbv & E & Henc).
  destruct (start_reader items rbv Hv Hov Henc [] items eq_refl)
    as (r0 & E0 & Hd0 & Hat0 & _).
  change (fixed_len []) with 0 in E0, Hat0.
  change (unary_len (quotients [])) with 0 in E0, Hat0.
  rewrite Z.add_0_r, Z.sub_0_r in E0. rewrite Z.add_0_r in Hat0.
  destruct (decode_from [] items rbv Hv Hov Henc r0 Hd0) as (r' & E1 & Hd' & Hat').
  { change (fixed_len []) with 0. change (quotients []) with (@nil Z).
    change (unary_len []) with 0. cbn [app]. rewrite Z.add_0_r. exact Hat0. }
  cbn [app] in E1, Hat'. change (fixed_len []) with 0 in E1.
  exists rbv, r0, r'. split; [assumption|]. split; [assumption|]. split.
  { destruct (stream_tail items Hv Hov) as (rbv' & E' & Ht).
    assert (rbv' = rbv) by congruence. subst rbv'. exact Ht. }
  split; [assumption|]. split; [assumption|]. split.
  { pose proof (enc_words _ _ Henc) as Hw.
    destruct Hat0 as [_ Hc]. rewrite Hd0 in Hc.
    destruct (cur_at_bits _ Hw _ _ _ _ Hc) as [Hr _].
    destruct Hc as [Hval _ _ _]. split; assumption. }
  split; [assumption|]. split; assumption.
Qed.

End ReaderFacts.

(** X5: the remainder read stays inside the buffer.  The builder sizes
    the buffer with seven bytes beyond the last byte of the stream, so
    in the sealed vector the eight-byte load of [readNext] at the byte
    holding any bit position inside the stream is within the buffer and
    yields a 64-bit word. *)
Theorem fixed_read_in_bounds items off :
  Forall item_valid items -> stream_len items + 7 < 2 ^ 64 ->
  0 <= off < stream_len items ->
  exists rbv x,
    encode items = Some rbv /\
    read_le (Vector.mem (rdata rbv)) (off / 8) 8 = Some x /\
    0 <= x < 2 ^ 64.
Proof.
  intros Hv Hov Ho.
  destruct (encode_spec items Hv Hov) as (rbv & E & Henc).
  destruct (encoded_bytes items rbv Hv Hov Henc) as [Hb _].
  specialize (Hb off Ho).
  destruct (read_le_bits _ (enc_words _ _ Henc) 8 (off / 8))
    as (x & Ex & Hx0 & Hxb).
  - apply Z.div_pos; lia.
  - change (Z.of_nat 8) with 8. lia.
  - exists rbv, x. split; [assumption|]. split; [assumption|].
    split; [assumption|].
    apply range_of_bits; [lia|assumption|].
    intros j Hj. rewrite Hxb by lia.
    change (8 * Z.of_nat 8) with 64.
    replace (j <? 64) with false by (symmetry; apply Z.ltb_ge; lia).
    reflexivity.
Qed.

Lemma fixed_read_in_bounds_witness :
  exists rbv x,
    encode [(3, 2); (9, 2); (1000, 60); (77, 3)] = Some rbv /\
    read_le (Vector.mem (rdata rbv)) (80 / 8) 8 = Some x /\
    0 <= x < 2 ^ 64.
Proof.
  apply (fixed_read_in_bounds [(3, 2); (9, 2); (1000, 60); (77, 3)] 80).
  - repeat constructor; cbn [fst snd]; try lia; vm_compute; reflexivity.
  - vm_compute. reflexivity.
  - vm_compute. split; [discriminate|reflexivity].
Defined.

Section EndOfStream.

Lemma cursor_at_tail d w ptr v p :
  words_ok d -> cur_at d w ptr v p ->
  (forall k, p <= k -> sbit d k = false) ->
  w = 0 /\ Forall (fun x => x = 0) (suffix d ptr).
Proof.
  intros Hd Hc Ht.
  destruct (cur_at_bits d Hd _ _ _ _ Hc) as [Hw Hb].
  destruct Hc as [Hv Hp Hpos _].
  split.
  - apply Z.bits_inj'. intros j Hj. rewrite Z.bits_0.
    destruct (Z.lt_ge_cases j v).
    + rewrite Hb by lia. apply Ht. lia.
    + apply (bits_above w v); lia.
  - apply Forall_forall. intros x Hx. unfold suffix in Hx.
    destruct ((0 <=? ptr) && (ptr <? Z.of_nat (length d))); [|destruct Hx].
    apply (In_nth _ _ 0) in Hx. destruct Hx as (i & Hi & Hx).
    rewrite nth_skipn in Hx. subst x.
    replace (Z.to_nat ptr + i)%nat with (Z.to_nat (ptr + Z.of_nat i)) by lia.
    apply (word_zero d Hd); [lia|].
    intros j Hj. apply Ht. lia.
Qed.




End EndOfStream.

(** X6: decoding consumes exactly the stream.  For items within the
    builder's ranges (whatever their widths), decoding all of them from
    the start of the sealed stream succeeds with one value per item and
    leaves the fixed cursor at the end of the remainders, the unary
    cursor at the end of the stream ([64 * ptr - valid] is the written
    bit count) and an empty window. *)
Theorem decode_consumes_stream items :
  Forall item_valid items -> stream_len items + 7 < 2 ^ 64 ->
  exists rbv r0 vs r',
    encode items = Some rbv /\
    readReset 0 (fixed_len items) rbv = Some r0 /\
    readAll (map snd items) r0 = Some (vs, r') /\
    length vs = length items /\
    curr_fixed_offset r' = fixed_len items /\
    64 * curr_ptr_unary r' - valid_lower_bits_unary r' = stream_len items /\
    curr_window_unary r' = 0.
Proof.
  intros Hv Hov.
  destruct (decode_start items Hv Hov)
    as (rbv & r0 & r' & E & Henc & Ht & E0 & Hd0 & Hi0 & Ea & Hd' & Hat').
  exists rbv, r0, (expected (Vector.mem (rdata rbv)) 0 (qls_of items)), r'.
  split; [assumption|]. split; [assumption|].
  split; [exact Ea|]. split.
  - rewrite expected_length. unfold qls_of. apply length_map.
  - destruct Hat' as [Hoff Hc]. split; [assumption|]. rewrite Hd' in Hc.
    destruct (cursor_at_tail _ _ _ _ _ (enc_words _ _ Henc) Hc Ht) as [Hw0 _].
    destruct Hc as [_ _ Hpos _]. split; [lia|assumption].
Qed.

Lemma decode_consumes_stream_witness :
  exists rbv r0 vs r',
    encode [(3, 2); (9, 2); (2 ^ 57, 58)] = Some rbv /\
    readReset 0 (fixed_len [(3, 2); (9, 2); (2 ^ 57, 58)]) rbv = Some r0 /\
    readAll (map snd [(3, 2); (9, 2); (2 ^ 57, 58)]) r0 = Some (vs, r') /\
    length vs = length [(3, 2); (9, 2); (2 ^ 57, 58)] /\
    curr_fixed_offset r' = fixed_len [(3, 2); (9, 2); (2 ^ 57, 58)] /\
    64 * curr_ptr_unary r' - valid_lower_bits_unary r' =
      stream_len [(3, 2); (9, 2); (2 ^ 57, 58)] /\
    curr_window_unary r' = 0.
Proof.
  apply (decode_consumes_stream [(3, 2); (9, 2); (2 ^ 57, 58)]).
  - repeat constructor; cbn [fst snd]; try lia; vm_compute; reflexivity.
  - vm_compute. reflexivity.
Defined.



Section Segments.

Lemma reader_at_inv r off p :
  words_ok (Vector.mem (rdata r)) -> reader_at r off p -> cursor_inv r.
Proof.
  intros Hw [_ Hc].
  destruct (cur_at_bits _ Hw _ _ _ _ Hc) as [Hr _].
  destruct Hc as [Hval _ _ _]. split; assumption.
Qed.

(** From the boundary after [pre], the reader decodes the items of
    [mid] and stands at the boundary after them. *)
Lemma decode_segment pre mid post rbv :
  Forall item_valid (pre ++ mid ++ post) ->
  stream_len (pre ++ mid ++ post) + 7 < 2 ^ 64 ->
  encoded (pre ++ mid ++ post) rbv ->
  forall r, rdata r = rdata rbv ->
    reader_at r (fixed_len pre)
              (fixed_len (pre ++ mid ++ post) + unary_len (quotients pre)) ->
    exists r',
      readAll (map snd mid) r =
        Some (expected (Vector.mem (rdata rbv)) (fixed_len pre) (qls_of mid), r') /\
      rdata r' = rdata rbv /\
      reader_at r' (fixed_len (pre ++ mid))
                (fixed_len (pre ++ mid ++ post) +
                 unary_len (quotients (pre ++ mid))).
Proof.
  intros Hv Hov Henc r Hr Hat.
  destruct (encoded_bytes _ _ Hv Hov Henc) as [_ Hby].
  destruct Henc as [Hw _ _ _ Hun].
  pose proof (unary_len_quotients_nonneg _ Hv) as HU.
  apply Forall_app in Hv. destruct Hv as [Hv1 Hv23].
  apply Forall_app in Hv23. destruct Hv23 as [Hv2 Hv3].
  pose proof (fixed_len_nonneg _ Hv1) as Hn1.
  pose proof (fixed_len_nonneg _ Hv2) as Hn2.
  pose proof (fixed_len_nonneg _ Hv3) as Hn3.
  rewrite !quotients_app in Hun.
  apply unary_at_app in Hun. destruct Hun as [_ Hun].
  apply unary_at_app in Hun. destruct Hun as [Hun _].
  unfold stream_len in Hov.
  rewrite (quotients_app pre mid), unary_len_app, (fixed_len_app pre mid).
  assert (HF : fixed_len (pre ++ mid ++ post) =
               fixed_len pre + fixed_len mid + fixed_len post)
    by (rewrite !fixed_len_app; lia).
  destruct (readAll_spec (qls_of mid) r (fixed_len pre)
              (fixed_len (pre ++ mid ++ post) + unary_len (quotients pre)))
    as (r' & E & Hd' & Hat').
  - rewrite Hr. exact Hw.
  - exact Hat.
  - apply qls_of_ok, Hv2.
  - lia.
  - rewrite qls_of_snd. fold (fixed_len mid). lia.
  - rewrite qls_of_snd, Hr. fold (fixed_len mid).
    assert ((fixed_len pre + fixed_len mid) / 8 <=
            fixed_len (pre ++ mid ++ post) / 8)
      by (apply Z.div_le_mono; lia).
    lia.
  - rewrite qls_of_fst, Hr. exact Hun.
  - rewrite qls_of_snd, qls_of_fst in Hat'. rewrite qls_of_snd, Hr in E.
    fold (fixed_len mid) in Hat'.
    exists r'. split; [exact E|]. split; [congruence|].
    rewrite Z.add_assoc. exact Hat'.
Qed.

Lemma prefix_count pre rest :
  Forall item_valid (pre ++ rest) -> stream_len (pre ++ rest) + 7 < 2 ^ 64 ->
  Z.of_nat (length (map snd pre)) < 2 ^ 64.
Proof.
  intros Hv Hov. rewrite length_map.
  pose proof (fixed_len_nonneg _ Hv).
  apply Forall_app in Hv. destruct Hv as [Hv1 Hv2].
  pose proof (length_le_unary_len (quotients pre)
                (u32m_nonneg _ (quotients_valid _ Hv1))) as Hle.
  unfold quotients in Hle at 1. rewrite length_map in Hle.
  pose proof (unary_len_quotients_nonneg _ Hv2).
  unfold stream_len in Hov.
  rewrite quotients_app, unary_len_app in Hov. lia.
Qed.

(** The reader placed at the start of an encoded stream. *)
Lemma origin_reader items rbv :
  Forall item_valid items -> stream_len items + 7 < 2 ^ 64 ->
  encoded items rbv ->
  exists r0,
    readReset 0 (fixed_len items) rbv = Some r0 /\ rdata r0 = rdata rbv /\
    reader_at r0 0 (fixed_len items) /\ cursor_inv r0.
Proof.
  intros Hv Hov Henc.
  destruct (start_reader _ rbv Hv Hov Henc [] _ eq_refl)
    as (r0 & E0 & Hd0 & Hat0 & _).
  change (fixed_len []) with 0 in E0, Hat0.
  change (unary_len (quotients [])) with 0 in E0, Hat0.
  rewrite Z.add_0_r, Z.sub_0_r in E0. rewrite Z.add_0_r in Hat0.
  exists r0. split; [assumption|]. split; [assumption|].
  split; [assumption|].
  apply (reader_at_inv r0 0 (fixed_len items)); [|assumption].
  rewrite Hd0. apply (enc_words _ _ Henc).
Qed.

End Segments.

Section SeenValues.

Variable d : list Z.
Hypothesis Hd : words_ok d.

Lemma fixed_field_window off l j :
  0 <= off -> off / 8 + 8 <= 8 * Z.of_nat (length d) ->
  0 <= l -> 0 <= j ->
  Z.testbit (fixed_field d off l) j =
  (j <? l) && ((j + off mod 8 <? 64) && sbit d (off + j)).
Proof.
  intros Ho Hb Hl Hj.
  destruct (fixed_field_read d Hd off l Ho Hb) as (fixed & _ & -> & Hx).
  pose proof (Z.div_mod off 8 ltac:(lia)) as Hdm.
  pose proof (Z.mod_pos_bound off 8 ltac:(lia)) as Hmb.
  rewrite testbit_low_bits by lia.
  destruct (Z.ltb_spec j l); [|reflexivity]. cbn [andb].
  rewrite Z.shiftr_spec, Hx by lia.
  destruct (Z.ltb_spec (j + off mod 8) 64); [|reflexivity].
  cbn [andb]. f_equal. lia.
Qed.

Lemma decoded_seen off v l :
  0 <= v < 2 ^ 64 -> 0 <= l <= 63 ->
  0 <= off -> off / 8 + 8 <= 8 * Z.of_nat (length d) ->
  (forall j, 0 <= j < l -> sbit d (off + j) = Z.testbit v j) ->
  decoded d off (Z.shiftr v l) l = seen off v l.
Proof.
  intros Hv Hl Ho Hb Hbits. unfold decoded, seen.
  pose proof (Z.mod_pos_bound off 8 ltac:(lia)) as Hmb.
  apply Z.bits_inj'. intros j Hj.
  rewrite !Z.lor_spec, testbit_wrap64, fixed_field_window by lia.
  rewrite testbit_low_bits by lia.
  destruct (Z.ltb_spec j l).
  - rewrite !Z.shiftl_spec, !(Z.testbit_neg_r _ (j - l)) by lia.
    rewrite andb_false_r. cbn [orb andb]. rewrite Hbits by lia.
    f_equal.
    destruct (Z.ltb_spec (j + off mod 8) 64);
      [symmetry; apply Z.ltb_lt|symmetry; apply Z.ltb_ge]; lia.
  - cbn [andb]. rewrite orb_false_r.
    replace (j <? Z.min l (64 - off mod 8)) with false
      by (symmetry; apply Z.ltb_ge; lia).
    cbn [andb]. rewrite orb_false_r.
    destruct (Z.ltb_spec j 64); cbn [andb].
    + reflexivity.
    + rewrite Z.shiftl_spec, Z.shiftr_spec by lia.
      replace (j - l + l) with j by lia.
      symmetry. apply (bits_above v 64); lia.
Qed.

Lemma expected_seen items : forall off,
  Forall item_valid items -> 0 <= off ->
  (off + fixed_len items) / 8 + 8 <= 8 * Z.of_nat (length d) ->
  fixed_at d off items ->
  expected d off (qls_of items) = seen_all off items.
Proof.
  induction items as [|[v l] items IH]; intros off Hv Ho Hb Hf;
    [reflexivity|].
  inversion Hv as [|? ? (Hv0 & Hl & _) Hv']; subst. cbn [fst snd] in *.
  pose proof (fixed_len_nonneg items Hv') as Hn.
  rewrite fixed_len_cons in Hb.
  destruct Hf as [Hbits Hf].
  cbn [qls_of map expected seen_all fst snd]. f_equal.
  - apply decoded_seen; try assumption.
    assert (off / 8 <= (off + (l + fixed_len items)) / 8)
      by (apply Z.div_le_mono; lia).
    lia.
  - apply IH; try assumption; try lia.
    replace (off + l + fixed_len items) with (off + (l + fixed_len items))
      by lia.
    exact Hb.
Qed.

End SeenValues.

Section SeenFacts.

Lemma seen_fits off v l :
  0 <= l -> off mod 8 + l <= 64 -> seen off v l = v.
Proof.
  intros Hl Hfit. unfold seen.
  rewrite Z.min_l by lia.
  apply Z.bits_inj'. intros j Hj.
  rewrite Z.lor_spec, testbit_low_bits by lia.
  destruct (Z.ltb_spec j l).
  - rewrite Z.shiftl_spec, (Z.testbit_neg_r _ (j - l)) by lia. reflexivity.
  - cbn [andb]. rewrite orb_false_r.
    rewrite Z.shiftl_spec, Z.shiftr_spec by lia. f_equal. lia.
Qed.

Lemma seen_all_fits items : forall off,
  Forall item_valid items -> fits off items ->
  seen_all off items = map fst items.
Proof.
  induction items as [|[v l] items IH]; intros off Hv Hf; [reflexivity|].
  inversion Hv as [|? ? (_ & Hl & _) Hv']; subst. cbn [fst snd] in *.
  destruct Hf as [Hf1 Hf]. cbn [seen_all map fst]. f_equal.
  - apply seen_fits; lia.
  - apply IH; assumption.
Qed.

Lemma seen_quotient off v l :
  0 <= l -> Z.shiftr (seen off v l) l = Z.shiftr v l.
Proof.
  intros Hl. unfold seen.
  apply Z.bits_inj'. intros j Hj.
  rewrite Z.shiftr_spec, Z.lor_spec, Z.shiftl_spec by lia.
  destruct (Z.le_gt_cases 0 (Z.min l (64 - off mod 8))).
  - rewrite testbit_low_bits by lia.
    replace (j + l <? Z.min l (64 - off mod 8)) with false
      by (symmetry; apply Z.ltb_ge; lia).
    cbn [andb]. rewrite orb_false_r, !Z.shiftr_spec by lia.
    f_equal. lia.
  - pose proof (Z.mod_pos_bound off 8 ltac:(lia)). lia.
Qed.

Lemma seen_submask off v l :
  0 <= l -> Z.land (seen off v l) v = seen off v l.
Proof.
  intros Hl. unfold seen.
  pose proof (Z.mod_pos_bound off 8 ltac:(lia)) as Hmb.
  apply Z.bits_inj'. intros j Hj.
  rewrite Z.land_spec, Z.lor_spec, testbit_low_bits by lia.
  destruct (Z.ltb_spec j l).
  - rewrite Z.shiftl_spec, (Z.testbit_neg_r _ (j - l)) by lia.
    cbn [orb]. destruct (j <? Z.min l (64 - off mod 8)); cbn [andb];
      [apply andb_diag|reflexivity].
  - rewrite Z.shiftl_spec, Z.shiftr_spec by lia.
    replace (j - l + l) with j by lia.
    replace (j <? Z.min l (64 - off mod 8)) with false
      by (symmetry; apply Z.ltb_ge; lia).
    cbn [andb]. rewrite orb_false_r. apply andb_diag.
Qed.

(** The values an encoded stream yields for the items after [pre]. *)
Lemma segment_seen pre mid post rbv :
  Forall item_valid (pre ++ mid ++ post) ->
  stream_len (pre ++ mid ++ post) + 7 < 2 ^ 64 ->
  encoded (pre ++ mid ++ post) rbv ->
  expected (Vector.mem (rdata rbv)) (fixed_len pre) (qls_of mid) =
  seen_all (fixed_len pre) mid.
Proof.
  intros Hv Hov Henc.
  destruct (encoded_bytes _ _ Hv Hov Henc) as [_ Hby].
  destruct Henc as [Hw _ _ Hfx _].
  apply Forall_app in Hv. destruct Hv as [Hv1 Hv23].
  apply Forall_app in Hv23. destruct Hv23 as [Hv2 Hv3].
  pose proof (fixed_len_nonneg _ Hv1) as Hn1.
  pose proof (fixed_len_nonneg _ Hv2) as Hn2.
  pose proof (fixed_len_nonneg _ Hv3) as Hn3.
  rewrite !fixed_len_app in Hby.
  apply fixed_at_app in Hfx. destruct Hfx as [_ Hfx].
  apply fixed_at_app in Hfx. destruct Hfx as [Hfx _].
  rewrite Z.add_0_l in Hfx.
  apply expected_seen; try assumption.
  assert ((fixed_len pre + fixed_len mid) / 8 <=
          (fixed_len pre + (fixed_len mid + fixed_len post)) / 8)
    by (apply Z.div_le_mono; lia).
  lia.
Qed.

End SeenFacts.

(** X8: random access returns the stored values.  On the sealed stream
    of [pre ++ post], whatever [readNext] and [skipSubtree] calls the
    reader has gone through since an earlier [readReset], a
    [readReset] at the boundary before [post] followed by one
    [readNext] per item of [post] returns the values of [post]; only the
    slots of [post] have to lie inside the eight bytes loaded for them,
    the items of [pre] may be of any width. *)
Theorem reset_random_access pre post bp0 uo0 ops :
  Forall item_valid (pre ++ post) ->
  stream_len (pre ++ post) + 7 < 2 ^ 64 ->
  fits (fixed_len pre) post ->
  exists rbv,
    encode (pre ++ post) = Some rbv /\
    forall r0 r,
      readReset bp0 uo0 rbv = Some r0 -> run_ops ops r0 = Some r ->
      exists r1 r2,
        readReset (fixed_len pre)
                  (fixed_len (pre ++ post) + unary_len (quotients pre)
                   - fixed_len pre) r = Some r1 /\
        readAll (map snd post) r1 = Some (map fst post, r2).
Proof.
  intros Hv Hov Hfit.
  destruct (encode_spec _ Hv Hov) as (rbv & E & Henc).
  exists rbv. split; [assumption|]. intros r0 r E0 Eops.
  destruct (readReset_inv _ _ _ _ E0 (enc_words _ _ Henc)) as [_ Hd0].
  apply run_ops_rdata in Eops.
  assert (Hd : rdata r = rdata rbv) by congruence.
  destruct (start_reader _ rbv Hv Hov Henc pre post eq_refl)
    as (r1 & E1 & Hd1 & Hat1 & _).
  rewrite (readReset_rdata_eq _ _ r rbv Hd).
  exists r1.
  assert (Hv' : Forall item_valid (pre ++ post ++ []))
    by (rewrite app_nil_r; assumption).
  assert (Hov' : stream_len (pre ++ post ++ []) + 7 < 2 ^ 64)
    by (rewrite app_nil_r; assumption).
  assert (Henc' : encoded (pre ++ post ++ []) rbv)
    by (rewrite app_nil_r; assumption).
  destruct (decode_segment pre post [] rbv Hv' Hov' Henc' r1 Hd1)
    as (r2 & E2 & _).
  { rewrite app_nil_r. exact Hat1. }
  exists r2. split; [exact E1|].
  rewrite E2, (segment_seen pre post [] rbv Hv' Hov' Henc').
  rewrite seen_all_fits; [reflexivity| |assumption].
  apply Forall_app in Hv. tauto.
Qed.

Lemma reset_random_access_witness :
  exists rbv,
    encode ([(0, 7); (2 ^ 57, 58)] ++ [(9, 2); (77, 3)]) = Some rbv /\
    forall r0 r,
      readReset 0 70 rbv = Some r0 ->
      run_ops [OpReadNext 7; OpSkipSubtree 2 60] r0 = Some r ->
      exists r1 r2,
        readReset (fixed_len [(0, 7); (2 ^ 57, 58)])
                  (fixed_len ([(0, 7); (2 ^ 57, 58)] ++ [(9, 2); (77, 3)])
                   + unary_len (quotients [(0, 7); (2 ^ 57, 58)])
                   - fixed_len [(0, 7); (2 ^ 57, 58)]) r = Some r1 /\
        readAll (map snd [(9, 2); (77, 3)]) r1 =
          Some (map fst [(9, 2); (77, 3)], r2).
Proof.
  apply (reset_random_access [(0, 7); (2 ^ 57, 58)] [(9, 2); (77, 3)] 0 70
           [OpReadNext 7; OpSkipSubtree 2 60]).
  - repeat constructor; cbn [fst snd]; try lia; vm_compute; reflexivity.
  - vm_compute. reflexivity.
  - vm_compute. repeat split; discriminate.
Defined.

(** X9: decoding after a skip returns the stored values.  On the sealed
    stream of [pre ++ mid ++ post] with [pre] nonempty, from the start
    of the stream, [skipSubtree] over the items of [pre] followed by one
    [readNext] per item of [mid] returns the values of [mid], provided
    the slots of [mid] lie inside the eight bytes loaded for them; the
    skipped items may be of any width. *)
Theorem skip_then_decode pre mid post :
  pre <> [] ->
  Forall item_valid (pre ++ mid ++ post) ->
  stream_len (pre ++ mid ++ post) + 7 < 2 ^ 64 ->
  fits (fixed_len pre) mid ->
  exists r,
    skip_run (pre ++ mid ++ post) (Z.of_nat (length pre)) (fixed_len pre)
             (map snd mid) = Some (map fst mid, r).
Proof.
  intros Hne Hv Hov Hfit. unfold skip_run, skip_then_read.
  destruct (encode_spec _ Hv Hov) as (rbv & E & Henc).
  destruct (origin_reader _ rbv Hv Hov Henc) as (r0 & E0 & Hd0 & Hat0 & Hi0).
  rewrite E. cbv beta iota delta [bind]. rewrite E0.
  cbv beta iota delta [bind].
  destruct (decode_segment [] pre (mid ++ post) rbv Hv Hov Henc r0 Hd0)
    as (r1 & E1 & Hd1 & Hat1).
  { change (fixed_len []) with 0. change (unary_len (quotients [])) with 0.
    cbn [app]. rewrite Z.add_0_r. exact Hat0. }
  destruct (decode_segment pre mid post rbv Hv Hov Henc r1 Hd1 Hat1)
    as (r2 & E2 & _).
  pose proof (readAll_skipSubtree (map snd pre) r0 _ r1
                ltac:(destruct pre; [congruence|discriminate])
                ltac:(rewrite Hd0; exact (enc_words _ _ Henc)) Hi0
                (prefix_count pre (mid ++ post) Hv Hov) E1) as Hskip.
  rewrite length_map in Hskip. fold (fixed_len pre) in Hskip.
  rewrite Hskip. cbv beta iota delta [bind].
  exists r2. rewrite E2, (segment_seen pre mid post rbv Hv Hov Henc).
  rewrite seen_all_fits; [reflexivity| |assumption].
  apply Forall_app in Hv. destruct Hv as [_ Hv].
  apply Forall_app in Hv. tauto.
Qed.

Lemma skip_then_decode_witness :
  exists r,
    skip_run ([(0, 7); (2 ^ 57, 58)] ++ [(9, 2); (1000, 60)] ++ [(77, 3)])
             (Z.of_nat (length [(0, 7); (2 ^ 57, 58)]))
             (fixed_len [(0, 7); (2 ^ 57, 58)])
             (map snd [(9, 2); (1000, 60)]) =
    Some (map fst [(9, 2); (1000, 60)], r).
Proof.
  apply (skip_then_decode [(0, 7); (2 ^ 57, 58)] [(9, 2); (1000, 60)]
           [(77, 3)]).
  - discriminate.
  - repeat constructor; cbn [fst snd]; try lia; vm_compute; reflexivity.
  - vm_compute. reflexivity.
  - vm_compute. repeat split; discriminate.
Defined.

(** X10: skips compose.  On the sealed stream of [a ++ b ++ post] with
    [a] and [b] nonempty, from the start of the stream, skipping the
    items of [a] and then the items of [b] succeeds and reaches the
    same reader state as one [skipSubtree] over all of them with the
    counts and the fixed widths added. *)
Theorem skip_compose a b post :
  a <> [] -> b <> [] ->
  Forall item_valid (a ++ b ++ post) ->
  stream_len (a ++ b ++ post) + 7 < 2 ^ 64 ->
  exists rbv r0 r1 r2,
    encode (a ++ b ++ post) = Some rbv /\
    readReset 0 (fixed_len (a ++ b ++ post)) rbv = Some r0 /\
    skipSubtree (Z.of_nat (length a)) (fixed_len a) r0 = Some r1 /\
    skipSubtree (Z.of_nat (length b)) (fixed_len b) r1 = Some r2 /\
    skipSubtree (Z.of_nat (length a) + Z.of_nat (length b))
                (fixed_len a + fixed_len b) r0 = Some r2.
Proof.
  intros Ha Hb Hv Hov.
  destruct (encode_spec _ Hv Hov) as (rbv & E & Henc).
  destruct (origin_reader _ rbv Hv Hov Henc) as (r0 & E0 & Hd0 & Hat0 & Hi0).
  pose proof (enc_words _ _ Henc) as Hw.
  destruct (decode_segment [] a (b ++ post) rbv Hv Hov Henc r0 Hd0)
    as (r1 & E1 & Hd1 & Hat1).
  { change (fixed_len []) with 0. change (unary_len (quotients [])) with 0.
    cbn [app]. rewrite Z.add_0_r. exact Hat0. }
  destruct (decode_segment a b post rbv Hv Hov Henc r1 Hd1 Hat1)
    as (r2 & E2 & _).
  exists rbv, r0, r1, r2.
  split; [assumption|]. split; [assumption|].
  assert (Hw0 : words_ok (Vector.mem (rdata r0))) by (rewrite Hd0; exact Hw).
  assert (Hw1 : words_ok (Vector.mem (rdata r1))) by (rewrite Hd1; exact Hw).
  assert (Hi1 : cursor_inv r1) by (eapply reader_at_inv; eassumption).
  assert (Hv' : Forall item_valid ((a ++ b) ++ post))
    by (rewrite <- app_assoc; assumption).
  assert (Hov' : stream_len ((a ++ b) ++ post) + 7 < 2 ^ 64)
    by (rewrite <- app_assoc; assumption).
  pose proof (prefix_count a (b ++ post) Hv Hov) as Hka.
  pose proof (prefix_count (a ++ b) post Hv' Hov') as Hkab.
  assert (Hvb : Forall item_valid (b ++ post))
    by (apply Forall_app in Hv; tauto).
  assert (Hkb : Z.of_nat (length (map snd b)) < 2 ^ 64).
  { rewrite map_app, length_app in Hkab. lia. }
  pose proof (readAll_skipSubtree (map snd a) r0 _ r1
                ltac:(destruct a; [congruence|discriminate]) Hw0 Hi0 Hka E1)
    as Hs1.
  pose proof (readAll_skipSubtree (map snd b) r1 _ r2
                ltac:(destruct b; [congruence|discriminate]) Hw1 Hi1 Hkb E2)
    as Hs2.
  assert (E12 : readAll (map snd a ++ map snd b) r0 =
                Some (expected (Vector.mem (rdata rbv)) (fixed_len [])
                        (qls_of a) ++
                      expected (Vector.mem (rdata rbv)) (fixed_len a)
                        (qls_of b), r2)).
  { rewrite readAll_app, E1. cbv beta iota delta [bind]. rewrite E2.
    reflexivity. }
  assert (Hkab' : Z.of_nat (length (map snd a ++ map snd b)) < 2 ^ 64)
    by (rewrite <- map_app; assumption).
  pose proof (readAll_skipSubtree (map snd a ++ map snd b) r0 _ r2
                ltac:(destruct a; [congruence|discriminate]) Hw0 Hi0 Hkab' E12)
    as Hs12.
  rewrite length_map in Hs1, Hs2. fold (fixed_len a) in Hs1.
  fold (fixed_len b) in Hs2.
  rewrite length_app, !length_map, Nat2Z.inj_add in Hs12.
  rewrite <- map_app in Hs12. fold (fixed_len (a ++ b)) in Hs12.
  rewrite fixed_len_app in Hs12.
  split; [assumption|]. split; assumption.
Qed.

Lemma skip_compose_witness :
  exists rbv r0 r1 r2,
    encode ([(3, 2)] ++ [(2 ^ 57, 58); (9, 2)] ++ [(77, 3)]) = Some rbv /\
    readReset 0 (fixed_len ([(3, 2)] ++ [(2 ^ 57, 58); (9, 2)] ++ [(77, 3)]))
              rbv = Some r0 /\
    skipSubtree (Z.of_nat (length [(3, 2)])) (fixed_len [(3, 2)]) r0 =
      Some r1 /\
    skipSubtree (Z.of_nat (length [(2 ^ 57, 58); (9, 2)]))
                (fixed_len [(2 ^ 57, 58); (9, 2)]) r1 = Some r2 /\
    skipSubtree (Z.of_nat (length [(3, 2)]) +
                 Z.of_nat (length [(2 ^ 57, 58); (9, 2)]))
                (fixed_len [(3, 2)] + fixed_len [(2 ^ 57, 58); (9, 2)]) r0 =
      Some r2.
Proof.
  apply (skip_compose [(3, 2)] [(2 ^ 57, 58); (9, 2)] [(77, 3)]).
  - discriminate.
  - discriminate.
  - repeat constructor; cbn [fst snd]; try lia; vm_compute; reflexivity.
  - vm_compute. reflexivity.
Defined.

(** X11: what the decoder returns for every stream.  For items within
    the builder's ranges, of any widths, encoding and decoding from the
    start returns for each item its quotient and the remainder bits
    that lie inside the eight bytes [readNext] loads at the byte of the
    slot's first bit: the value [seen], which is the stored value with
    the remainder bits from position [64 - off mod 8] on cleared. *)
Theorem decode_all_seen items :
  Forall item_valid items -> stream_len items + 7 < 2 ^ 64 ->
  decode_all items = Some (seen_all 0 items).
Proof.
  intros Hv Hov.
  destruct (decode_start items Hv Hov)
    as (rbv & r0 & r' & E & Henc & _ & E0 & _ & _ & Ea & _).
  unfold decode_all. rewrite E. cbv beta iota delta [bind].
  rewrite E0. cbv beta iota delta [bind]. rewrite Ea.
  cbv beta iota delta [bind]. f_equal.
  destruct (encoded_bytes _ _ Hv Hov Henc) as [_ Hby].
  apply expected_seen; try assumption.
  - apply (enc_words _ _ Henc).
  - lia.
  - apply (enc_fixed _ _ Henc).
Qed.

Lemma decode_all_seen_witness :
  decode_all [(0, 7); (2 ^ 57, 58); (9, 2)] =
  Some (seen_all 0 [(0, 7); (2 ^ 57, 58); (9, 2)]).
Proof.
  apply (decode_all_seen [(0, 7); (2 ^ 57, 58); (9, 2)]).
  - repeat constructor; cbn [fst snd]; try lia; vm_compute; reflexivity.
  - vm_compute. reflexivity.
Defined.

(** X12: decoding errs on remainder bits only.  For items within the
    builder's ranges, of any widths, every decoded value has the
    quotient of the stored value and no set bit the stored value lacks:
    a slot too wide for one eight-byte load loses bits, it never gains
    any and never disturbs the quotient. *)
Theorem decode_all_quotients items :
  Forall item_valid items -> stream_len items + 7 < 2 ^ 64 ->
  exists vs,
    decode_all items = Some vs /\
    Forall2 (fun x it =>
               Z.shiftr x (snd it) = Z.shiftr (fst it) (snd it) /\
               Z.land x (fst it) = x) vs items.
Proof.
  intros Hv Hov.
  destruct (decode_start items Hv Hov)
    as (rbv & r0 & r' & E & Henc & _ & E0 & _ & _ & Ea & _).
  exists (seen_all 0 items). split.
  - unfold decode_all. rewrite E. cbv beta iota delta [bind].
    rewrite E0. cbv beta iota delta [bind]. rewrite Ea.
    cbv beta iota delta [bind]. f_equal.
    destruct (encoded_bytes _ _ Hv Hov Henc) as [_ Hby].
    apply expected_seen; try assumption.
    + apply (enc_words _ _ Henc).
    + lia.
    + apply (enc_fixed _ _ Henc).
  - clear -Hv. generalize 0 as off.
    induction items as [|[v l] items IH]; intros off; [constructor|].
    inversion Hv as [|? ? (_ & Hl & _) Hv']; subst. cbn [fst snd] in *.
    cbn [seen_all]. constructor.
    + cbn [fst snd]. split; [apply seen_quotient|apply seen_submask]; lia.
    + apply IH. assumption.
Qed.

Lemma decode_all_quotients_witness :
  exists vs,
    decode_all [(0, 7); (2 ^ 64 - 1, 63)] = Some vs /\
    Forall2 (fun x it =>
               Z.shiftr x (snd it) = Z.shiftr (fst it) (snd it) /\
               Z.land x (fst it) = x) vs [(0, 7); (2 ^ 64 - 1, 63)].
Proof.
  apply (decode_all_quotients [(0, 7); (2 ^ 64 - 1, 63)]).
  - repeat constructor; cbn [fst snd]; try lia; vm_compute; reflexivity.
  - vm_compute. reflexivity.
Defined.


Section SkipCounts.



End SkipCounts.



(** X15: [appendFixed] takes the whole value.  Only the low
    [log2golomb] bits of [v] take part: the builder state after
    [appendFixed(v, l)] is the state after appending the remainder
    [v mod 2^l] alone, so a caller may pass the value unreduced, and
    bits of [v] from position [l] on never reach the stream. *)
Theorem appendFixed_masks v l b :
  appendFixed v l b = appendFixed (Z.land v (Z.ones l)) l b.
Proof.
  unfold appendFixed.
  destruct ((0 <=? l) && (l <? 64)) eqn:El; cbn [negb]; [|reflexivity].
  apply andb_true_iff in El. destruct El as [H0 H1].
  apply Z.leb_le in H0. apply Z.ltb_lt in H1.
  rewrite mask_ones by lia.
  rewrite <- Z.land_assoc, Z.land_diag. reflexivity.
Qed.
